(** * chops: non-blocking channel probes, retry combinators, fan-in and fan-out

    A shallow embedding of the Go package [chops] (chops.go, fan.go) and of
    the two versions of [MakeFanIn] found in the repository.

    Layout of the development:
    - [Go]: the fragment of the Go runtime the package relies on (dynamic
      types, interface values, panics, the channel object [hchan] with its
      send, receive and close algorithms, the store of channels);
    - [chops]: chops.go ([TryRecv], [TrySend], [TryClose], [IsClosed],
      [RecvOr], [SendOr]);
    - [Sched]: the actions of the goroutines around a fan session;
    - [fan_go]: [MakeFanIn] of src/fan.go;
    - [fan]: [MakeFanIn] and [MakeFanOut] of the later fan.go, the one
      stored with chops.go in src/unnamed/part_001;
    - [Obs], [Scenario], [Broadcast], [Merge]: the vocabulary of the
      statements;
    - [ProbeVocab], [FanVocab], [MergeVocab], [SignalVocab], [CallVocab],
      [DrainVocab]: the vocabulary of the further properties;
    - the theorems: the facts about the probes and the sessions, then the
      further properties of the probes ([ProbeExtras]), of [MakeFanOut]
      ([FanOutExtras]) and of [MakeFanIn] ([FanInExtras],
      [OldFanInExtras], [CallExtras], [DrainExtras]). *)

From Stdlib Require Import ZArith String Ascii Lia.
From stdpp Require Import base tactics option list.

Set Default Proof Using "Type".

(* ===================================================================== *)
(** * The Go runtime fragment                                             *)
(* ===================================================================== *)

Module Go.

(** Dynamic types that occur in the package and its tests. *)
Inductive ty : Type :=
| TString
| TInt
| TUnit                (* struct{} *)
| TIface               (* interface{} *)
| TChan (elem : ty).   (* chan elem *)

Global Instance ty_eq_dec : EqDecision ty.
Proof. solve_decision. Defined.

(** Values boxed in an [interface{}].  A channel value is a typed pointer
    into the store of channel objects; [None] is the nil channel. *)
Inductive value : Type :=
| VNil
| VStr (s : string)
| VInt (z : Z)
| VUnit
| VChan (elem : ty) (p : option nat).

(** [reflect.TypeOf]: the nil interface has no type. *)
Definition typeOf (x : value) : option ty :=
  match x with
  | VNil => None
  | VStr _ => Some TString
  | VInt _ => Some TInt
  | VUnit => Some TUnit
  | VChan t _ => Some (TChan t)
  end.

(** The zero value of a type, as [x.Interface()] shows it. *)
Definition zero (t : ty) : value :=
  match t with
  | TString => VStr ""
  | TInt => VInt 0
  | TUnit => VUnit
  | TIface => VNil
  | TChan e => VChan e None
  end.

(** [(reflect.Type).AssignableTo]: identical types, or the target is the
    empty interface. *)
Definition AssignableTo (xt t : ty) : bool :=
  bool_decide (xt = t) || bool_decide (t = TIface).

(** The [%T] verb of [fmt]. *)
Fixpoint ty_name (t : ty) : string :=
  match t with
  | TString => "string"
  | TInt => "int"
  | TUnit => "struct {}"
  | TIface => "interface {}"
  | TChan e => String.append "chan " (ty_name e)
  end.

Definition fmtT (x : value) : string :=
  match typeOf x with
  | Some t => ty_name t
  | None => "<nil>"
  end.

(** [strings.Contains]. *)
Fixpoint Contains (s sub : string) : bool :=
  String.prefix sub s ||
  match s with
  | EmptyString => false
  | String _ s' => Contains s' sub
  end.

(** A panic value: a [runtime.Error], or any other value handed to
    [panic] (the package only panics with formatted strings). *)
Inductive panicv : Type :=
| RuntimeError (msg : string)
| PanicString (msg : string).

(** The result of a call that may panic. *)
Inductive res (A : Type) : Type :=
| Ret (a : A)
| Panic (r : panicv).
Arguments Ret {A} a.
Arguments Panic {A} r.

Definition bind {A B} (m : res A) (k : A → res B) : res B :=
  match m with
  | Ret a => k a
  | Panic r => Panic r
  end.

(** Messages of the runtime panics the package recovers from. *)
Definition sendClosedMsg : string := "send on closed channel".
Definition closeClosedMsg : string := "close of closed channel".
Definition closeNilMsg : string := "close of nil channel".
Definition nilDerefMsg : string :=
  "invalid memory address or nil pointer dereference".

(** The channel object.  [buf] is the circular buffer, oldest first;
    [recvq] counts the goroutines parked in a receive; [sendq] holds the
    values of the goroutines parked in a send, oldest first.  [taken] is
    a history variable: the values handed to receivers so far. *)
Record hchan : Type := mkChan {
  dataqsiz : nat;
  buf : list value;
  closed : bool;
  recvq : nat;
  sendq : list value;
  taken : list value
}.

(** A fresh channel of capacity [size]. *)
Definition newchan (size : nat) : hchan :=
  mkChan size [] false 0 [] [].

(** The limits of the allocator of Go 1.16 on a 64-bit platform with 48
    address bits (linux/amd64): the largest allocation, the size of the
    channel header, of an interface value and of a pointer, in bytes. *)
Definition maxAlloc : Z := 281474976710656.
Definition hchanSize : Z := 96.
Definition ifaceSize : Z := 16.
Definition ptrSize : Z := 8.

(** The test of [runtime.makechan] on the size of a [chan interface{}]:
    the size is not negative and the buffer, with the header, fits below
    the allocation limit. *)
Definition chan_size_ok (size : Z) : bool :=
  (0 <=? size)%Z && (ifaceSize * size <=? maxAlloc - hchanSize)%Z.

(** The test of [runtime.makeslice] on the length of a slice of
    channels. *)
Definition slice_len_ok (n : Z) : bool :=
  (0 <=? n)%Z && (ptrSize * n <=? maxAlloc)%Z.

Arguments chan_size_ok : simpl never.
Arguments slice_len_ok : simpl never.

(** [make(chan interface{}, size)]: a size that is negative or past the
    allocation limit panics.  (Running out of memory below that limit is
    a fatal error of the runtime, not a panic; a call that returns did
    not meet it.) *)
Definition makechan (size : Z) : res hchan :=
  if chan_size_ok size then Ret (newchan (Z.to_nat size))
  else Panic (RuntimeError "makechan: size out of range").

(** The outcome of a channel operation on a given state: it completes,
    it cannot proceed now, or it panics. *)
Inductive outcome (A : Type) : Type :=
| Done (a : A)
| WouldBlock
| Panics (r : panicv).
Arguments Done {A} a.
Arguments WouldBlock {A}.
Arguments Panics {A} r.

(** [chansend]: a closed channel panics; a parked receiver is served
    directly; otherwise the value goes to the buffer if there is room. *)
Definition hsend (c : hchan) (x : value) : outcome hchan :=
  if closed c then Panics (RuntimeError sendClosedMsg)
  else match recvq c with
       | S n => Done (mkChan (dataqsiz c) (buf c) false n (sendq c) (taken c ++ [x]))
       | O =>
           if length (buf c) <? dataqsiz c
           then Done (mkChan (dataqsiz c) (buf c ++ [x]) false 0 (sendq c) (taken c))
           else WouldBlock
       end.

(** [chanrecv]: [Done (None, c)] is the receive from a closed, drained
    channel (the caller sees the zero value and ok = false).  With a
    parked sender the receiver takes the head of the buffer and the
    sender's value enters the buffer, or, on an empty buffer, the
    sender's value is taken directly. *)
Definition hrecv (c : hchan) : outcome (option value * hchan) :=
  match buf c with
  | [] =>
      if closed c then Done (None, c)
      else match sendq c with
           | [] => WouldBlock
           | s :: ss =>
               Done (Some s, mkChan (dataqsiz c) [] false (recvq c) ss (taken c ++ [s]))
           end
  | b :: bs =>
      match sendq c with
      | [] =>
          Done (Some b, mkChan (dataqsiz c) bs (closed c) (recvq c) [] (taken c ++ [b]))
      | s :: ss =>
          Done (Some b, mkChan (dataqsiz c) (bs ++ [s]) (closed c) (recvq c) ss (taken c ++ [b]))
      end
  end.

(** [closechan]: closing twice panics; parked receivers are released with
    the zero value, parked senders are released and panic. *)
Definition hclose (c : hchan) : outcome hchan :=
  if closed c then Panics (RuntimeError closeClosedMsg)
  else Done (mkChan (dataqsiz c) (buf c) true 0 [] (taken c)).

(** A goroutine that blocks in a send or a receive parks on the channel. *)
Definition park_send (c : hchan) (x : value) : hchan :=
  mkChan (dataqsiz c) (buf c) (closed c) (recvq c) (sendq c ++ [x]) (taken c).

Definition park_recv (c : hchan) : hchan :=
  mkChan (dataqsiz c) (buf c) (closed c) (S (recvq c)) (sendq c) (taken c).

(** The store of channel objects; [make] allocates at the end. *)
Abbreviation store := (list hchan).

Definition alloc (c : hchan) (σ : store) : nat * store :=
  (length σ, σ ++ [c]).

(** Operations through a channel pointer.  The nil channel never
    proceeds; Go has no dangling pointers, and a pointer outside the
    store is treated like nil. *)
Definition chansend (p : option nat) (x : value) (σ : store) : outcome store :=
  match p with
  | None => WouldBlock
  | Some i =>
      match σ !! i with
      | None => WouldBlock
      | Some c =>
          match hsend c x with
          | Done c' => Done (<[i := c']> σ)
          | WouldBlock => WouldBlock
          | Panics r => Panics r
          end
      end
  end.

Definition chanrecv (p : option nat) (σ : store) : outcome (option value * store) :=
  match p with
  | None => WouldBlock
  | Some i =>
      match σ !! i with
      | None => WouldBlock
      | Some c =>
          match hrecv c with
          | Done (x, c') => Done (x, <[i := c']> σ)
          | WouldBlock => WouldBlock
          | Panics r => Panics r
          end
      end
  end.

Arguments chansend : simpl never.
Arguments chanrecv : simpl never.

Definition closechan (p : option nat) (σ : store) : outcome store :=
  match p with
  | None => Panics (RuntimeError closeNilMsg)
  | Some i =>
      match σ !! i with
      | None => Panics (RuntimeError closeNilMsg)
      | Some c =>
          match hclose c with
          | Done c' => Done (<[i := c']> σ)
          | WouldBlock => WouldBlock
          | Panics r => Panics r
          end
      end
  end.

(** A [reflect.Value] of kind [Chan]. *)
Record chanValue : Type := mkCV { cv_elem : ty; cv_ptr : option nat }.

(** [(reflect.Value).TrySend]: false when the send cannot proceed. *)
Definition Value_TrySend (v : chanValue) (x : value) (σ : store) : res bool * store :=
  match chansend (cv_ptr v) x σ with
  | Done σ' => (Ret true, σ')
  | WouldBlock => (Ret false, σ)
  | Panics r => (Panic r, σ)
  end.

(** [(reflect.Value).TryRecv]: the first component is the received
    [reflect.Value], [None] being the zero (invalid) Value; on a closed
    channel it is the zero value of the element type with ok = false. *)
Definition Value_TryRecv (v : chanValue) (σ : store) : (option value * bool) * store :=
  match chanrecv (cv_ptr v) σ with
  | Done (Some x, σ') => ((Some x, true), σ')
  | Done (None, σ') => ((Some (zero (cv_elem v)), false), σ')
  | WouldBlock => ((None, false), σ)
  | Panics _ => ((None, false), σ)
  end.

(** [(reflect.Value).Close]. *)
Definition Value_Close (v : chanValue) (σ : store) : res unit * store :=
  match closechan (cv_ptr v) σ with
  | Done σ' => (Ret tt, σ')
  | WouldBlock => (Ret tt, σ)
  | Panics r => (Panic r, σ)
  end.

End Go.

(* ===================================================================== *)
(** * chops.go                                                            *)
(* ===================================================================== *)

Module chops.
Import Go.

Inductive Status : Type := Ok | Closed | Blocked.

Global Instance Status_eq_dec : EqDecision Status.
Proof. solve_decision. Defined.

Definition closeChMsg : string := "send on closed channel".
Definition doubleCloseMsg : string := "close of closed channel".

(** [assertChanValue]: panics unless the interface holds a channel. *)
Definition assertChanValue (ch : value) : res chanValue :=
  match ch with
  | VChan t p => Ret (mkCV t p)
  | _ => Panic (PanicString (String.append "not a channel: " (fmtT ch)))
  end.

(** [TryRecv]. *)
Definition TryRecv (ch : value) (σ : store) : res (value * Status) * store :=
  match assertChanValue ch with
  | Panic r => (Panic r, σ)
  | Ret v =>
      match Value_TryRecv v σ with
      | ((Some x, true), σ') => (Ret (x, Ok), σ')
      | ((Some x, false), σ') => (Ret (x, Closed), σ')
      | ((None, _), σ') => (Ret (VNil, Blocked), σ')
      end
  end.

(** The recovery shared by [TrySend] and [SendOr]: a runtime error whose
    text contains [msg] is swallowed, anything else is raised again. *)
Definition recovers (msg : string) (r : panicv) : bool :=
  match r with
  | RuntimeError e => Contains e msg
  | PanicString _ => false
  end.

(** The type check in front of [TrySend] and [SendOr]. *)
Definition checkSend (ch x : value) : res chanValue :=
  bind (assertChanValue ch) (λ v,
    match typeOf x with
    | None => Panic (RuntimeError nilDerefMsg)
    | Some xt =>
        if AssignableTo xt (cv_elem v) then Ret v
        else Panic (PanicString
               (String.append "cannot send "
                  (String.append (fmtT x) (String.append " on " (fmtT ch)))))
    end).

(** [TrySend]. *)
Definition TrySend (ch x : value) (σ : store) : res Status * store :=
  match checkSend ch x with
  | Panic r => (Panic r, σ)
  | Ret v =>
      match Value_TrySend v x σ with
      | (Ret true, σ') => (Ret Ok, σ')
      | (Ret false, σ') => (Ret Blocked, σ')
      | (Panic r, σ') =>
          if recovers closeChMsg r then (Ret Closed, σ') else (Panic r, σ')
      end
  end.

(** [TryClose].  The named result [ok] is still false when [v.Close()]
    panics; the deferred function assigns to its own [ok] (the one
    declared by the type assertion), and returns normally when the panic
    is the double close. *)
Definition TryClose (ch : value) (σ : store) : res bool * store :=
  match assertChanValue ch with
  | Panic r => (Panic r, σ)
  | Ret v =>
      let ok := false in
      match Value_Close v σ with
      | (Ret _, σ') => let ok := true in (Ret ok, σ')
      | (Panic r, σ') =>
          if recovers doubleCloseMsg r then (Ret ok, σ') else (Panic r, σ')
      end
  end.

(** [IsClosed]: reads the [closed] word of the channel object. *)
Definition IsClosed (ch : value) (σ : store) : res bool :=
  bind (assertChanValue ch) (λ v,
    match cv_ptr v ≫= (σ !!.) with
    | None => Panic (RuntimeError nilDerefMsg)
    | Some c => Ret (closed c)
    end).

(** What a retry loop did, in order. *)
Inductive probe_ev : Type :=
| EvProbe (s : Status)
| EvCall.

(** [RecvOr].  The k-th call of [f] acts on the store as [f k]: this
    covers both the closure's own effects and whatever other goroutines
    do in the meantime.  [fuel] bounds the number of iterations; [None]
    means the loop is still running.  [RecvOr] has no [recover]: the
    calls of [f] it goes on after are those that return. *)
Fixpoint RecvOr_loop (fuel : nat) (v : chanValue) (f : nat → store → store)
    (k : nat) (σ : store) (tr : list probe_ev)
    : option ((value * bool) * store * list probe_ev) :=
  match fuel with
  | O => None
  | S fuel' =>
      match Value_TryRecv v σ with
      | ((None, _), σ') =>
          RecvOr_loop fuel' v f (S k) (f k σ') (tr ++ [EvProbe Blocked; EvCall])
      | ((Some x, ok), σ') =>
          Some ((x, ok), σ', tr ++ [EvProbe (if ok then Ok else Closed)])
      end
  end.

Definition RecvOr (fuel : nat) (ch : value) (f : nat → store → store) (σ : store)
    : option (res (value * bool) * store * list probe_ev) :=
  match assertChanValue ch with
  | Panic r => Some (Panic r, σ, [])
  | Ret v =>
      match RecvOr_loop fuel v f 0 σ [] with
      | None => None
      | Some (xo, σ', tr) => Some (Ret xo, σ', tr)
      end
  end.

(** The deferred function of [SendOr]: it runs when [v.TrySend] or the
    fallback panics, both being called in the loop below the [defer].  A
    runtime error whose text contains [closeChMsg] becomes the result
    false; any other panic is raised again. *)
Definition SendOr_deferred (r : panicv) (σ : store) (tr : list probe_ev)
    : res bool * store * list probe_ev :=
  if recovers closeChMsg r then (Ret false, σ, tr) else (Panic r, σ, tr).

(** [SendOr].  The k-th call of the fallback acts on the store as [f k]
    and returns, or panics: the store it gives is the one it leaves in
    either case. *)
Fixpoint SendOr_loop (fuel : nat) (v : chanValue) (x : value)
    (f : nat → store → res unit * store) (k : nat) (σ : store) (tr : list probe_ev)
    : option (res bool * store * list probe_ev) :=
  match fuel with
  | O => None
  | S fuel' =>
      match Value_TrySend v x σ with
      | (Ret true, σ') => Some (Ret true, σ', tr ++ [EvProbe Ok])
      | (Ret false, σ') =>
          match f k σ' with
          | (Ret _, σ'') =>
              SendOr_loop fuel' v x f (S k) σ'' (tr ++ [EvProbe Blocked; EvCall])
          | (Panic r, σ'') =>
              Some (SendOr_deferred r σ'' (tr ++ [EvProbe Blocked; EvCall]))
          end
      | (Panic r, σ') =>
          if recovers closeChMsg r
          then Some (Ret false, σ', tr ++ [EvProbe Closed])
          else Some (Panic r, σ', tr)
      end
  end.

Definition SendOr (fuel : nat) (ch x : value) (f : nat → store → res unit * store)
    (σ : store) : option (res bool * store * list probe_ev) :=
  match checkSend ch x with
  | Panic r => Some (Panic r, σ, [])
  | Ret v => SendOr_loop fuel v x f 0 σ []
  end.

End chops.

(* ===================================================================== *)
(** * Goroutines around a session                                         *)
(* ===================================================================== *)

Module Sched.
Import Go.

(** A session is the goroutine that [MakeFanIn] or [MakeFanOut] starts,
    run against the rest of the program.  The session's goroutine is a
    state machine: each of its channel operations is one atomic step, and
    a blocking operation is a step that exists only in the states where
    the operation can proceed (the goroutine itself is never put on a
    wait queue).  The other goroutines are arbitrary: any of them may act
    on any channel between two steps.

    What the other goroutines of the program do to a channel: a blocking
    send, a blocking receive, a close.  A goroutine that cannot proceed
    parks on the channel; one that panics leaves the channel as it is. *)
Inductive env_action : Type :=
| EnvSend (p : nat) (x : value)
| EnvRecv (p : nat)
| EnvClose (p : nat).

Definition env_chan (a : env_action) : nat :=
  match a with
  | EnvSend p _ => p
  | EnvRecv p => p
  | EnvClose p => p
  end.

Definition env_hstep (a : env_action) (c : hchan) : hchan :=
  match a with
  | EnvSend _ x =>
      match hsend c x with
      | Done c' => c'
      | WouldBlock => park_send c x
      | Panics _ => c
      end
  | EnvRecv _ =>
      match hrecv c with
      | Done (_, c') => c'
      | WouldBlock => park_recv c
      | Panics _ => c
      end
  | EnvClose _ =>
      match hclose c with
      | Done c' => c'
      | _ => c
      end
  end.

Definition env_step (a : env_action) (σ : store) : store :=
  match σ !! env_chan a with
  | None => σ
  | Some c => <[env_chan a := env_hstep a c]> σ
  end.

(** One step of a schedule: the session's goroutine moves (with the case
    its select picks, where it is in a select), or another goroutine
    acts on a channel. *)
Inductive action : Type :=
| Task (chosen : nat)
| Env (a : env_action).

(** What the session's goroutine did, in order. *)
Inductive event : Type :=
| EvRecv (i : nat) (x : value)     (* received x on case i *)
| EvRecvClosed (i : nat)           (* case i reported closed *)
| EvSend (j : nat) (x : value)     (* sent x on output j *)
| EvClose (j : nat)                (* closed output j *)
| EvExit.                          (* the goroutine returned *)

(** Where the merging goroutine of [MakeFanIn] stands. *)
Inductive pc : Type :=
| AtPoll                 (* fan.go of src: RecvOr probing stop *)
| AtSelect               (* in select / reflect.Select *)
| AtSend (x : value)     (* at out <- x *)
| AtSignal               (* fan.go of src: at TrySend(stop, struct{}{}) *)
| AtClose                (* at close(out) *)
| Exited
| Crashed (r : panicv).

(** The goroutine a call of [MakeFanIn] starts. *)
Inductive path : Type :=
| NoTask
| Fast (ch : option nat)
| General (cases : list (option chanValue)) (remaining : nat).

Record world : Type := mkWorld {
  chans : store;
  out : nat;
  stop : nat;
  kind : path;
  at_pc : pc;
  trace : list event
}.

Definition set_chans (w : world) (σ : store) : world :=
  mkWorld σ (out w) (stop w) (kind w) (at_pc w) (trace w).

Definition goto (w : world) (σ : store) (k : path) (l : pc) (evs : list event) : world :=
  mkWorld σ (out w) (stop w) k l (trace w ++ evs).

(** The type assertion [chs[0].(chan interface{})]. *)
Definition assertChanIface (c : value) : res (option nat) :=
  match c with
  | VChan TIface p => Ret p
  | VNil => Panic (RuntimeError
      "interface conversion: interface is nil, not chan interface {}")
  | _ => Panic (RuntimeError
      (String.append "interface conversion: interface {} is "
         (String.append (fmtT c) ", not chan interface {}")))
  end.

(** The loop that fills [cases] from [chs]. *)
Fixpoint assertAll (chs : list value) : res (list chanValue) :=
  match chs with
  | [] => Ret []
  | c :: rest =>
      bind (chops.assertChanValue c) (λ v,
      bind (assertAll rest) (λ vs, Ret (v :: vs)))
  end.

(** The select of the single-input path: case 0 is [<-stop], case 1 is
    [v, ok := <-ch].  Shared by both versions of fan.go. *)
Definition fast_select (chosen : nat) (ch : option nat) (w : world) : option world :=
  match chosen with
  | 0 =>
      match chanrecv (Some (stop w)) (chans w) with
      | Done (Some x, σ') => Some (goto w σ' (kind w) AtClose [EvRecv 0 x])
      | Done (None, σ') => Some (goto w σ' (kind w) AtClose [EvRecvClosed 0])
      | _ => None
      end
  | 1 =>
      match chanrecv ch (chans w) with
      | Done (Some x, σ') => Some (goto w σ' (kind w) (AtSend x) [EvRecv 1 x])
      | Done (None, σ') => Some (goto w σ' (kind w) AtClose [EvRecvClosed 1])
      | _ => None
      end
  | _ => None
  end.

(** [reflect.Select] over receive cases: the chosen case must hold a
    channel on which a receive can proceed. *)
Definition reflect_Select (cases : list (option chanValue)) (chosen : nat) (σ : store)
    : option (option value * store) :=
  match cases !! chosen with
  | Some (Some v) =>
      match chanrecv (cv_ptr v) σ with
      | Done r => Some r
      | _ => None
      end
  | _ => None
  end.

(** [close(out)] as the last act of the goroutine. *)
Definition close_and_exit (w : world) : option world :=
  match closechan (Some (out w)) (chans w) with
  | Done σ' => Some (goto w σ' (kind w) Exited [EvClose 0; EvExit])
  | Panics r => Some (goto w (chans w) (kind w) (Crashed r) [])
  | WouldBlock => None
  end.

End Sched.

(* ===================================================================== *)
(** * src/fan.go                                                          *)
(* ===================================================================== *)

Module fan_go.
Import Go Sched.

(** [MakeFanIn]: the channels it makes and the goroutine it starts. *)
Definition MakeFanIn (outCap : Z) (chs : list value) (σ : store) : res world :=
  match chs with
  | [] =>
      let '(o, σ1) := alloc (newchan 0) σ in
      match closechan (Some o) σ1 with
      | Done σ2 =>
          let '(s, σ3) := alloc (newchan 0) σ2 in
          Ret (mkWorld σ3 o s NoTask Exited [])
      | WouldBlock => Panic (RuntimeError closeNilMsg)
      | Panics r => Panic r
      end
  | [c] =>
      bind (assertChanIface c) (λ ch,
      bind (makechan outCap) (λ oc,
        let '(o, σ1) := alloc oc σ in
        let '(s, σ2) := alloc (newchan 0) σ1 in
        Ret (mkWorld σ2 o s (Fast ch) AtSelect [])))
  | _ =>
      bind (assertAll chs) (λ vs,
      bind (makechan outCap) (λ oc,
        let '(o, σ1) := alloc oc σ in
        let '(s, σ2) := alloc (newchan 1) σ1 in
        Ret (mkWorld σ2 o s (General (Some <$> vs) (length vs)) AtPoll [])))
  end.

(** One step of the goroutine of the single-input path:
    [select] with [break] on stop or on a closed input, then
    [close(out); return]. *)
Definition fast_step (chosen : nat) (ch : option nat) (w : world) : option world :=
  match at_pc w with
  | AtSelect => fast_select chosen ch w
  | AtSend x =>
      match chansend (Some (out w)) x (chans w) with
      | Done σ' => Some (goto w σ' (kind w) AtSelect [EvSend 0 x])
      | WouldBlock => None
      | Panics r => Some (goto w (chans w) (kind w) (Crashed r) [])
      end
  | AtClose => close_and_exit w
  | _ => None
  end.

(** One step of [go RecvOr(stop, func() { ... })].  [AtPoll] is the
    [v.TryRecv()] of [RecvOr] on stop: a valid result makes [RecvOr]
    return and ends the goroutine, an invalid one calls the closure.
    The closure blocks in [reflect.Select(cases)], where [cases] holds
    the inputs only, and returns to [RecvOr] after handling one case.
    ([log.Printf] only writes to the log.) *)
Definition general_step (chosen : nat) (cases : list (option chanValue))
    (remaining : nat) (w : world) : option world :=
  match at_pc w with
  | AtPoll =>
      match Value_TryRecv (mkCV TUnit (Some (stop w))) (chans w) with
      | ((None, _), σ') => Some (goto w σ' (kind w) AtSelect [])
      | ((Some _, _), σ') => Some (goto w σ' (kind w) Exited [EvExit])
      end
  | AtSelect =>
      match reflect_Select cases chosen (chans w) with
      | None => None
      | Some (Some x, σ') => Some (goto w σ' (kind w) (AtSend x) [EvRecv chosen x])
      | Some (None, σ') =>
          if remaining =? 1
          then Some (goto w σ' (kind w) AtSignal [EvRecvClosed chosen])
          else Some (goto w σ' (General (<[chosen := None]> cases) (remaining - 1))
                       AtPoll [EvRecvClosed chosen])
      end
  | AtSend x =>
      match chansend (Some (out w)) x (chans w) with
      | Done σ' => Some (goto w σ' (kind w) AtPoll [EvSend 0 x])
      | WouldBlock => None
      | Panics r => Some (goto w (chans w) (kind w) (Crashed r) [])
      end
  | AtSignal =>
      match chops.TrySend (VChan TUnit (Some (stop w))) VUnit (chans w) with
      | (Ret _, σ') => Some (goto w σ' (kind w) AtClose [])
      | (Panic r, σ') => Some (goto w σ' (kind w) (Crashed r) [])
      end
  | AtClose =>
      match closechan (Some (out w)) (chans w) with
      | Done σ' => Some (goto w σ' (kind w) AtPoll [EvClose 0])
      | Panics r => Some (goto w (chans w) (kind w) (Crashed r) [])
      | WouldBlock => None
      end
  | _ => None
  end.

Definition task_step (chosen : nat) (w : world) : option world :=
  match kind w with
  | NoTask => None
  | Fast ch => fast_step chosen ch w
  | General cases remaining => general_step chosen cases remaining w
  end.

Definition step (a : action) (w : world) : option world :=
  match a with
  | Task chosen => task_step chosen w
  | Env e => Some (set_chans w (env_step e (chans w)))
  end.

Fixpoint run (acts : list action) (w : world) : option world :=
  match acts with
  | [] => Some w
  | a :: rest => step a w ≫= run rest
  end.

End fan_go.

(* ===================================================================== *)
(** * The later fan.go (src/unnamed/part_001)                             *)
(* ===================================================================== *)

Module fan.
Import Go Sched.

(** [MakeFanIn]. *)
Definition MakeFanIn (outCap : Z) (chs : list value) (σ : store) : res world :=
  match chs with
  | [] =>
      let '(o, σ1) := alloc (newchan 0) σ in
      match closechan (Some o) σ1 with
      | Done σ2 =>
          let '(s, σ3) := alloc (newchan 0) σ2 in
          Ret (mkWorld σ3 o s NoTask Exited [])
      | WouldBlock => Panic (RuntimeError closeNilMsg)
      | Panics r => Panic r
      end
  | [c] =>
      bind (assertChanIface c) (λ ch,
      bind (makechan outCap) (λ oc,
        let '(o, σ1) := alloc oc σ in
        let '(s, σ2) := alloc (newchan 0) σ1 in
        Ret (mkWorld σ2 o s (Fast ch) AtSelect [])))
  | _ =>
      bind (makechan outCap) (λ oc,
        let '(o, σ1) := alloc oc σ in
        let '(s, σ2) := alloc (newchan 1) σ1 in
        bind (assertAll chs) (λ vs,
          let cases := (Some <$> vs) ++ [Some (mkCV TUnit (Some s))] in
          Ret (mkWorld σ2 o s (General cases (length chs)) AtSelect [])))
  end.

(** A panic in [out <- v] runs the deferred [close(out)] on the way out. *)
Definition send_or_crash (x : value) (next : pc) (w : world) : option world :=
  match chansend (Some (out w)) x (chans w) with
  | Done σ' => Some (goto w σ' (kind w) next [EvSend 0 x])
  | WouldBlock => None
  | Panics r =>
      match closechan (Some (out w)) (chans w) with
      | Done σ' => Some (goto w σ' (kind w) (Crashed r) [EvClose 0])
      | Panics r' => Some (goto w (chans w) (kind w) (Crashed r') [])
      | WouldBlock => Some (goto w (chans w) (kind w) (Crashed r) [])
      end
  end.

(** The single-input path: [defer close(out)], [return] on stop or on a
    closed input. *)
Definition fast_step (chosen : nat) (ch : option nat) (w : world) : option world :=
  match at_pc w with
  | AtSelect => fast_select chosen ch w
  | AtSend x => send_or_crash x AtSelect w
  | AtClose => close_and_exit w
  | _ => None
  end.

(** The general path: [cases] holds the inputs and, last, stop. *)
Definition general_step (chosen : nat) (cases : list (option chanValue))
    (remaining : nat) (w : world) : option world :=
  match at_pc w with
  | AtSelect =>
      match reflect_Select cases chosen (chans w) with
      | None => None
      | Some (None, σ') =>
          if chosen =? length cases - 1
          then Some (goto w σ' (kind w) AtClose [EvRecvClosed chosen])
          else if remaining =? 1
          then Some (goto w σ' (kind w) AtClose [EvRecvClosed chosen])
          else Some (goto w σ' (General (<[chosen := None]> cases) (remaining - 1))
                       AtSelect [EvRecvClosed chosen])
      | Some (Some x, σ') => Some (goto w σ' (kind w) (AtSend x) [EvRecv chosen x])
      end
  | AtSend x => send_or_crash x AtSelect w
  | AtClose => close_and_exit w
  | _ => None
  end.

Definition task_step (chosen : nat) (w : world) : option world :=
  match kind w with
  | NoTask => None
  | Fast ch => fast_step chosen ch w
  | General cases remaining => general_step chosen cases remaining w
  end.

Definition step (a : action) (w : world) : option world :=
  match a with
  | Task chosen => task_step chosen w
  | Env e => Some (set_chans w (env_step e (chans w)))
  end.

Fixpoint run (acts : list action) (w : world) : option world :=
  match acts with
  | [] => Some w
  | a :: rest => step a w ≫= run rest
  end.

(** ** MakeFanOut *)

(** Where the broadcasting goroutine stands: receiving from the input,
    sending the current item to output [j], closing output [j]. *)
Inductive bpc : Type :=
| BRecv
| BSend (x : value) (j : nat)
| BClose (j : nat)
| BExited
| BCrashed (r : panicv).

Record bworld : Type := mkB {
  bchans : store;
  input : chanValue;
  outs : list nat;
  bat : bpc;
  btrace : list event
}.

Definition bgoto (w : bworld) (σ : store) (l : bpc) (evs : list event) : bworld :=
  mkB σ (input w) (outs w) l (btrace w ++ evs).

(** [MakeFanOut]: [n] and [outCap] are Go ints.  With [n = 0] no
    goroutine is started ([BExited] with no outputs).  The loop of the
    [n = 1] path is the general loop over a single output.  With two
    outputs or more, [make([]chan interface{}, n)] comes first and panics
    on a length that is negative or past the allocation limit. *)
Definition MakeFanOut (n outCap : Z) (ch : value) (σ : store) : res bworld :=
  bind (chops.assertChanValue ch) (λ v,
    if (n =? 0)%Z then Ret (mkB σ v [] BExited [])
    else if (n =? 1)%Z then
      bind (makechan outCap) (λ oc,
        let '(o, σ1) := alloc oc σ in
        Ret (mkB σ1 v [o] BRecv []))
    else if negb (slice_len_ok n)
    then Panic (RuntimeError "makeslice: len out of range")
    else
      bind (makechan outCap) (λ oc,
        Ret (mkB (σ ++ replicate (Z.to_nat n) oc) v
               (seq (length σ) (Z.to_nat n)) BRecv []))).

(** One step of the broadcasting goroutine. *)
Definition bcast_step (w : bworld) : option bworld :=
  match bat w with
  | BRecv =>
      match chanrecv (cv_ptr (input w)) (bchans w) with
      | Done (Some x, σ') => Some (bgoto w σ' (BSend x 0) [EvRecv 0 x])
      | Done (None, σ') => Some (bgoto w σ' (BClose 0) [EvRecvClosed 0])
      | _ => None
      end
  | BSend x j =>
      match outs w !! j with
      | None => Some (bgoto w (bchans w) BRecv [])
      | Some o =>
          match chansend (Some o) x (bchans w) with
          | Done σ' => Some (bgoto w σ' (BSend x (S j)) [EvSend j x])
          | WouldBlock => None
          | Panics r => Some (bgoto w (bchans w) (BCrashed r) [])
          end
      end
  | BClose j =>
      match outs w !! j with
      | None => Some (bgoto w (bchans w) BExited [EvExit])
      | Some o =>
          match closechan (Some o) (bchans w) with
          | Done σ' => Some (bgoto w σ' (BClose (S j)) [EvClose j])
          | WouldBlock => None
          | Panics r => Some (bgoto w (bchans w) (BCrashed r) [])
          end
      end
  | _ => None
  end.

Definition bstep (a : action) (w : bworld) : option bworld :=
  match a with
  | Task _ => bcast_step w
  | Env e => Some (mkB (env_step e (bchans w)) (input w) (outs w) (bat w) (btrace w))
  end.

Fixpoint brun (acts : list action) (w : bworld) : option bworld :=
  match acts with
  | [] => Some w
  | a :: rest => bstep a w ≫= brun rest
  end.

End fan.

(* ===================================================================== *)
(** * Vocabulary of the statements                                        *)
(* ===================================================================== *)

Module Obs.
Import Go chops Sched.

(** Anything the program may do to the channels between two probes:
    blocking operations of any goroutine and the probes themselves. *)
Inductive op : Type :=
| OEnv (a : env_action)
| OTrySend (ch x : value)
| OTryRecv (ch : value)
| OTryClose (ch : value).

Definition op_step (o : op) (σ : store) : store :=
  match o with
  | OEnv a => env_step a σ
  | OTrySend ch x => (TrySend ch x σ).2
  | OTryRecv ch => (TryRecv ch σ).2
  | OTryClose ch => (TryClose ch σ).2
  end.

Definition run_ops (ops : list op) (σ : store) : store :=
  foldl (λ s o, op_step o s) σ ops.

(** A probe on [ch] in store [σ0] reports closed and leaves store [σ]. *)
Definition observes_closed (ch : value) (σ0 σ : store) : Prop :=
  (∃ x, TrySend ch x σ0 = (Ret Closed, σ)) ∨
  (∃ z, TryRecv ch σ0 = (Ret (z, Closed), σ)) ∨
  (IsClosed ch σ0 = Ret true ∧ σ = σ0).

(** The reading of the monotonicity sentence for [TryRecv]: after any
    probe has reported closed, every later [TryRecv] reports [Closed]. *)
Definition closed_observation_sticks : Prop :=
  ∀ (σ0 σ : store) (t : ty) (p : nat) (ops : list op),
    observes_closed (VChan t (Some p)) σ0 σ →
    ∃ z, (TryRecv (VChan t (Some p)) (run_ops ops σ)).1 = Ret (z, Closed).

(** A channel of capacity 1 that received one send and was then closed. *)
Definition buffered_then_closed : store :=
  run_ops [OEnv (EnvSend 0 (VInt 1)); OEnv (EnvClose 0)] [newchan 1].

(** The store after the calls [f k0], ..., [f (k0 + n - 1)] of the
    fallback of a retry loop, and after the first [k] calls. *)
Fixpoint rounds_from (f : nat → store → store) (k0 n : nat) (σ : store) : store :=
  match n with
  | O => σ
  | S n' => rounds_from f (S k0) n' (f k0 σ)
  end.

Definition rounds (f : nat → store → store) (k : nat) (σ : store) : store :=
  rounds_from f 0 k σ.

(** What a call of a fallback that may panic does to the store. *)
Definition effect (f : nat → store → res unit * store) (i : nat) (σ : store) : store :=
  (f i σ).2.

(** The trace of [k] failed attempts, each followed by a call of [f]. *)
Fixpoint retries (k : nat) : list probe_ev :=
  match k with
  | O => []
  | S k' => EvProbe Blocked :: EvCall :: retries k'
  end.

(** How a channel may change once it is closed: it stays closed, and if
    it is drained it does not change at all. *)
Definition evolves (c c' : hchan) : Prop :=
  closed c = true → closed c' = true ∧ (buf c = [] → c' = c).

Definition store_evolves (σ σ' : store) : Prop :=
  ∀ p c, σ !! p = Some c → ∃ c', σ' !! p = Some c' ∧ evolves c c'.

End Obs.

(* ===================================================================== *)
(** * Sessions used as examples                                           *)
(* ===================================================================== *)

Module Scenario.
Import Go Sched.

(** Two open, empty [chan interface{}] of capacity [n], and the handles
    a caller passes for them. *)
Definition two_inputs (n : nat) : store := [newchan n; newchan n].

Definition two_handles : list value :=
  [VChan TIface (Some 0); VChan TIface (Some 1)].

(** Runs a schedule, given as a function of the fresh session, on the
    session that [mk] makes. *)
Definition session (mk : res world) (run : list action → world → option world)
    (sched : world → list action) : option world :=
  match mk with
  | Ret w => run (sched w) w
  | Panic _ => None
  end.

(** src/fan.go, both inputs idle: the goroutine starts (its first probe
    of stop finds nothing and it enters the select), then the caller
    closes stop. *)
Definition idle_then_stop : option world :=
  session (fan_go.MakeFanIn 2 two_handles (two_inputs 0)) fan_go.run
    (λ w, [Task 0; Env (EnvClose (stop w))]).

(** src/fan.go on the schedule of the test "Two closed": the first input
    delivers "Hello" and is closed, the goroutine forwards the item, the
    caller receives it and closes stop, the goroutine probes stop. *)
Definition hello_then_stop : option world :=
  session (fan_go.MakeFanIn 2 two_handles (two_inputs 1)) fan_go.run
    (λ w, [Task 0;
           Env (EnvSend 0 (VStr "Hello")); Env (EnvClose 0);
           Task 0; Task 0;
           Env (EnvRecv (out w)); Env (EnvClose (stop w));
           Task 0]).

(** Both versions, both inputs idle, stop closed before the goroutine
    makes its first step; then the goroutine runs as far as it can. *)
Definition stop_first_old : option world :=
  session (fan_go.MakeFanIn 2 two_handles (two_inputs 0)) fan_go.run
    (λ w, [Env (EnvClose (stop w)); Task 0]).

Definition stop_first_new : option world :=
  session (fan.MakeFanIn 2 two_handles (two_inputs 0)) fan.run
    (λ w, [Env (EnvClose (stop w)); Task 2; Task 0]).

(** Whether the output of a session is closed. *)
Definition out_closed (w : world) : option bool :=
  closed <$> chans w !! out w.

Definition stop_closed (w : world) : option bool :=
  closed <$> chans w !! stop w.

(** The channel [MakeFanIn] returns as output when there is no input. *)
Definition closed_empty : hchan := mkChan 0 [] true 0 [] [].

(** The schedule of the test "Two blocking" of [MakeFanOut]: two
    outputs without buffer on a [chan string]; the producer sends
    "Hello", each consumer receives it, the producer closes the input. *)
Definition two_blocking_store : store := [newchan 0].

Definition two_blocking_start : fan.bworld :=
  fan.mkB [newchan 0; newchan 0; newchan 0] (mkCV TString (Some 0)) [1; 2] fan.BRecv [].

Definition two_blocking_sched : list action :=
  [Env (EnvSend 0 (VStr "Hello")); Task 0;
   Env (EnvRecv 1); Task 0;
   Env (EnvRecv 2); Task 0; Task 0;
   Env (EnvClose 0); Task 0; Task 0; Task 0; Task 0].

Definition two_blocking_end : fan.bworld :=
  Eval vm_compute in default two_blocking_start (fan.brun two_blocking_sched two_blocking_start).

End Scenario.

(* ===================================================================== *)
(** * Vocabulary for the broadcaster                                      *)
(* ===================================================================== *)

Module Broadcast.
Import Go Sched fan.

(** The events of sending [x] to the outputs [0 .. j-1], of closing the
    outputs [0 .. j-1], and of one whole round for item [x] with [n]
    outputs: one receive, then one send per output, in order. *)
Definition sends (x : value) (j : nat) : list event :=
  (λ i, EvSend i x) <$> seq 0 j.

Definition closes (j : nat) : list event :=
  EvClose <$> seq 0 j.

Definition round (n : nat) (x : value) : list event :=
  EvRecv 0 x :: sends x n.

(** The events of the round the goroutine is in. *)
Definition in_progress (n : nat) (l : bpc) : list event :=
  match l with
  | BRecv => []
  | BSend x j => EvRecv 0 x :: sends x j
  | BClose j => EvRecvClosed 0 :: closes j
  | BExited => EvRecvClosed 0 :: closes n ++ [EvExit]
  | BCrashed _ => []
  end.

(** The item of the round in progress, and whether output [j] has it. *)
Definition current (l : bpc) : list value :=
  match l with
  | BSend x _ => [x]
  | _ => []
  end.

Definition has_current (l : bpc) (j : nat) : bool :=
  match l with
  | BSend _ j' => bool_decide (j < j')
  | _ => false
  end.

(** Whether the goroutine has closed output [j]. *)
Definition closed_by (l : bpc) (j : nat) : bool :=
  match l with
  | BClose j' => bool_decide (j < j')
  | BExited => true
  | _ => false
  end.

(** The discipline of the program around a broadcast session: the
    outputs belong to the broadcaster (others only receive from them),
    and the broadcaster is the only receiver on the input. *)
Definition bdisciplined (w : bworld) (a : action) : Prop :=
  match a with
  | Task _ => True
  | Env (EnvRecv p) => cv_ptr (input w) ≠ Some p
  | Env (EnvSend p _) => p ∉ outs w
  | Env (EnvClose p) => p ∉ outs w
  end.

(** The input handle of a session is a live channel on which no
    receiver is parked, or the nil channel. *)
Definition sole_receiver (ch : value) (σ : store) : Prop :=
  ∀ t p, ch = VChan t (Some p) → ∃ c, σ !! p = Some c ∧ recvq c = 0.

(** The items the input had handed out before the session. *)
Definition taken_before (ch : value) (σ : store) : list value :=
  match ch with
  | VChan _ (Some p) => default [] (taken <$> σ !! p)
  | _ => []
  end.

(** All that was ever put into a channel and not withdrawn: what the
    receivers took, then what the buffer holds. *)
Definition delivered (c : hchan) : list value := taken c ++ buf c.

(** The state of output [j] when the items [done] were broadcast and the
    goroutine stands at [l]. *)
Definition out_state (done : list value) (l : bpc) (j : nat) (c : hchan) : Prop :=
  delivered c = done ++ (if has_current l j then current l else []) ∧
  closed c = closed_by l j ∧
  sendq c = [] ∧
  (0 < recvq c → buf c = []).

Definition pc_ok (n : nat) (l : bpc) : Prop :=
  match l with
  | BSend _ j => j ≤ n
  | BClose j => j ≤ n
  | BCrashed _ => False
  | _ => True
  end.

(** The invariant of a broadcast session with [n] outputs allocated at
    [base]. *)
Definition binv (n base : nat) (in0 : list value) (done : list value) (w : bworld) : Prop :=
  outs w = seq base n ∧
  length (bchans w) = base + n ∧
  btrace w = concat (round n <$> done) ++ in_progress n (bat w) ∧
  pc_ok n (bat w) ∧
  (∀ j, j < n → ∃ c, bchans w !! (base + j) = Some c ∧ out_state done (bat w) j c) ∧
  (∀ p, cv_ptr (input w) = Some p →
     p < base ∧ ∃ c, bchans w !! p = Some c ∧ recvq c = 0 ∧
                     taken c = in0 ++ done ++ current (bat w)).

(** A channel that can take an item now: a receiver waits on it, or its
    buffer has room. *)
Definition ready (c : hchan) : Prop :=
  0 < recvq c ∨ length (buf c) < dataqsiz c.

(** A channel that offers item [x] to the next receive: [x] is the oldest
    item of the buffer or, the buffer being empty and the channel open,
    the value of the first parked sender. *)
Definition offers (c : hchan) (x : value) : Prop :=
  (∃ bs, buf c = x :: bs) ∨
  (buf c = [] ∧ closed c = false ∧ ∃ ss, sendq c = x :: ss).

(** What the step about to be taken adds to the broadcast items: the
    current item, when all [n] outputs have it. *)
Definition finished (n : nat) (l : bpc) : list value :=
  match l with
  | BSend x j => if decide (j = n) then [x] else []
  | _ => []
  end.

End Broadcast.

(* ===================================================================== *)
(** * Vocabulary for the merger                                           *)
(* ===================================================================== *)

Module Merge.
Import Go Sched Scenario.

(** The two versions of [MakeFanIn] side by side. *)
Inductive version : Type := SrcFanGo | LaterFanGo.

Definition MakeFanIn_of (ver : version) : Z → list value → store → res world :=
  match ver with
  | SrcFanGo => fan_go.MakeFanIn
  | LaterFanGo => fan.MakeFanIn
  end.

Definition task_step_of (ver : version) : nat → world → option world :=
  match ver with
  | SrcFanGo => fan_go.task_step
  | LaterFanGo => fan.task_step
  end.

Definition run_of (ver : version) : list action → world → option world :=
  match ver with
  | SrcFanGo => fan_go.run
  | LaterFanGo => fan.run
  end.

(** The discipline the doc comment asks of the program around a merge
    session: nobody sends on stop, and the output belongs to the merging
    goroutine (others only receive from it). *)
Definition disciplined (w : world) (a : action) : Prop :=
  match a with
  | Task _ => True
  | Env (EnvSend p _) => p ≠ out w ∧ p ≠ stop w
  | Env (EnvClose p) => p ≠ out w
  | Env (EnvRecv _) => True
  end.

(** The handles passed to [MakeFanIn] point into the store. *)
Definition valid_inputs (chs : list value) (σ : store) : Prop :=
  ∀ t p, VChan t (Some p) ∈ chs → p < length σ.

(** The select case of stop. *)
Definition stop_case (w : world) : option chanValue :=
  Some (mkCV TUnit (Some (stop w))).

(** The index of the stop case in the select the goroutine waits in. *)
Definition stop_index (w : world) : nat :=
  match kind w with
  | General cases _ => length cases - 1
  | _ => 0
  end.

Definition kind_ok (base : nat) (w : world) : Prop :=
  match kind w with
  | NoTask => False
  | Fast ch => ∀ p, ch = Some p → p < base
  | General cases _ =>
      0 < length cases ∧
      cases !! (length cases - 1) = Some (stop_case w) ∧
      ∀ i v p, i < length cases - 1 → cases !! i = Some (Some v) →
               cv_ptr v = Some p → p < base
  end.

Definition out_ok (l : pc) (co : hchan) : Prop :=
  match l with
  | AtSelect => closed co = false
  | AtSend _ => closed co = false
  | AtClose => closed co = false
  | Exited => closed co = true
  | _ => False
  end.

(** The invariant of a merge session of the later fan.go whose output
    and stop channels were allocated at [base] and [base + 1]. *)
Definition finv (base : nat) (w : world) : Prop :=
  out w = base ∧ stop w = S base ∧ length (chans w) = S (S base) ∧
  kind_ok base w ∧
  (∃ co, chans w !! base = Some co ∧ out_ok (at_pc w) co) ∧
  (∃ so, chans w !! S base = Some so ∧ buf so = [] ∧ sendq so = []).

(** Two readings of the cancellation sentence, for the later fan.go in
    a session with at least one input.  The first asks that once stop is
    closed the merging goroutine, unless it has ended, has a step it can
    take.  The second asks that a goroutine waiting in its select with
    stop closed ends within this wait: whatever case the select picks,
    the goroutine goes on to close the output. *)
Definition cancel_never_blocks : Prop :=
  ∀ (outCap : Z) (chs : list value) (σ : store) (w0 w : world) (acts : list action),
    chs ≠ [] → valid_inputs chs σ →
    fan.MakeFanIn outCap chs σ = Ret w0 →
    Forall (disciplined w0) acts →
    fan.run acts w0 = Some w →
    stop_closed w = Some true → at_pc w ≠ Exited →
    ∃ chosen w', fan.task_step chosen w = Some w'.

Definition cancel_within_one_cycle : Prop :=
  ∀ (outCap : Z) (chs : list value) (σ : store) (w0 w : world) (acts : list action)
    (chosen : nat) (w' : world),
    chs ≠ [] → valid_inputs chs σ →
    fan.MakeFanIn outCap chs σ = Ret w0 →
    Forall (disciplined w0) acts →
    fan.run acts w0 = Some w →
    at_pc w = AtSelect → stop_closed w = Some true →
    fan.task_step chosen w = Some w' → at_pc w' = AtClose.

(** The session the later fan.go makes for two unbuffered inputs and an
    unbuffered output. *)
Definition two_idle_start : world :=
  mkWorld [newchan 0; newchan 0; newchan 0; newchan 1] 2 3
    (General [Some (mkCV TIface (Some 0)); Some (mkCV TIface (Some 1));
              Some (mkCV TUnit (Some 3))] 2)
    AtSelect [].

(** A producer offers "Hello" on the first input and the caller closes
    stop: the goroutine is in its select with two cases ready. *)
Definition ready_and_stopped_sched (w : world) : list action :=
  [Env (EnvSend 0 (VStr "Hello")); Env (EnvClose (stop w))].

Definition ready_and_stopped : world :=
  Eval vm_compute in
    default two_idle_start
      (fan.run (ready_and_stopped_sched two_idle_start) two_idle_start).

(** A producer offers "Hello" on the first input, the goroutine takes it
    and goes on to [out <- v]; nobody receives from the output; the
    caller closes stop. *)
Definition send_then_stop_sched (w : world) : list action :=
  [Env (EnvSend 0 (VStr "Hello")); Task 0; Env (EnvClose (stop w))].

Definition send_then_stop : world :=
  Eval vm_compute in
    default two_idle_start
      (fan.run (send_then_stop_sched two_idle_start) two_idle_start).

(** The later fan.go with one idle input, stop closed at once. *)
Definition one_idle_start : world :=
  mkWorld [newchan 0; newchan 0; newchan 0] 1 2 (Fast (Some 0)) AtSelect [].

Definition one_idle_stopped : world :=
  Eval vm_compute in
    default one_idle_start (fan.run [Env (EnvClose 2)] one_idle_start).

(** The select cases of the inputs, and the number of [close(out)] the
    goroutine has executed. *)
Definition input_cases (w : world) : list nat :=
  match kind w with
  | NoTask => []
  | Fast _ => [1]
  | General cases _ => seq 0 (length cases - 1)
  end.

Fixpoint count_close (tr : list event) : nat :=
  match tr with
  | [] => 0
  | EvClose _ :: tr' => S (count_close tr')
  | _ :: tr' => count_close tr'
  end.

(** Why the goroutine may close the output: it saw stop closed, or it
    saw every input closed. *)
Definition close_justified (w : world) : Prop :=
  EvRecvClosed (stop_index w) ∈ trace w ∨
  ∀ i, i ∈ input_cases w → EvRecvClosed i ∈ trace w.

(** The bookkeeping of the general path with [K] inputs: the cases set
    to the zero Value are those of the inputs seen closed, and
    [remaining] counts the others. *)
Definition cases_ok (K : nat) (w : world) : Prop :=
  match kind w with
  | NoTask => False
  | Fast _ => True
  | General cases rem =>
      length cases = S K ∧
      ∃ dead : list nat,
        NoDup dead ∧ length dead + rem = K ∧
        ∀ i, i ∈ dead → i < K ∧ cases !! i = Some None ∧ EvRecvClosed i ∈ trace w
  end.

Definition has_exited (w : world) : bool :=
  match at_pc w with
  | Exited => true
  | _ => false
  end.

Definition cinv (K : nat) (w : world) : Prop :=
  cases_ok K w ∧
  count_close (trace w) = (if has_exited w then 1 else 0) ∧
  (at_pc w = AtClose ∨ at_pc w = Exited → close_justified w).

End Merge.

(* ===================================================================== *)
(** * Vocabulary of the further properties                                *)
(* ===================================================================== *)

Module ProbeVocab.
Import Go chops Sched Obs.

(** What a receiver finds waiting on a channel, oldest first: the
    buffer, then the values of the parked senders. *)
Definition pending (c : hchan) : list value := buf c ++ sendq c.

(** [TrySend] of each value of a list in turn, and [n] times [TryRecv],
    with the results in order. *)
Fixpoint send_all (ch : value) (xs : list value) (σ : store)
    : list (res Status) * store :=
  match xs with
  | [] => ([], σ)
  | x :: rest =>
      let '(r, σ1) := TrySend ch x σ in
      let '(rs, σ2) := send_all ch rest σ1 in
      (r :: rs, σ2)
  end.

Fixpoint recv_n (ch : value) (n : nat) (σ : store)
    : list (res (value * Status)) * store :=
  match n with
  | O => ([], σ)
  | S n' =>
      let '(r, σ1) := TryRecv ch σ in
      let '(rs, σ2) := recv_n ch n' σ1 in
      (r :: rs, σ2)
  end.

(** Whether an operation is a [TryClose] on the channel at [p] that
    returns true in store [σ], and the number of such calls along a
    sequence of operations. *)
Definition wins_close (p : nat) (o : op) (σ : store) : nat :=
  match o with
  | OTryClose (VChan t (Some q)) =>
      if bool_decide (q = p)
      then match (TryClose (VChan t (Some q)) σ).1 with
           | Ret true => 1
           | _ => 0
           end
      else 0
  | _ => 0
  end.

Fixpoint count_wins (p : nat) (ops : list op) (σ : store) : nat :=
  match ops with
  | [] => 0
  | o :: rest => wins_close p o σ + count_wins p rest (op_step o σ)
  end.

(** Whether an operation is a close, of either kind, aimed at [p]. *)
Definition closes_chan (p : nat) (o : op) : bool :=
  match o with
  | OEnv (EnvClose q) => bool_decide (q = p)
  | OTryClose (VChan _ (Some q)) => bool_decide (q = p)
  | _ => false
  end.

(** The panic of [assertChanValue] and of the type check of a send. *)
Definition notChan (ch : value) : panicv :=
  PanicString (String.append "not a channel: " (fmtT ch)).

Definition cannotSend (ch x : value) : panicv :=
  PanicString (String.append "cannot send "
                 (String.append (fmtT x) (String.append " on " (fmtT ch)))).

Definition is_chan (ch : value) : bool :=
  match ch with
  | VChan _ _ => true
  | _ => false
  end.

End ProbeVocab.

Module FanVocab.
Import Go chops Sched fan Scenario Broadcast Merge.

(** The item the broadcaster of a single output holds between its
    receive and its send. *)
Definition held (l : bpc) : list value :=
  match l with
  | BSend x 0 => [x]
  | _ => []
  end.

(** A buffer within its capacity. *)
Definition within_cap (c : hchan) : Prop := length (buf c) ≤ dataqsiz c.

(** A step of the store that keeps every channel, its capacity, and the
    bound of its buffer. *)
Definition cap_kept (σ σ' : store) : Prop :=
  ∀ p c, σ !! p = Some c →
    ∃ c', σ' !! p = Some c' ∧ dataqsiz c' = dataqsiz c ∧ (within_cap c → within_cap c').

(** A pipe on a [chan string] without buffers: the producer sends
    "Hello", the goroutine takes it, the consumer receives it. *)
Definition pipe_start : bworld :=
  mkB [newchan 0; newchan 0] (mkCV TString (Some 0)) [1] BRecv [].

Definition pipe_sched : list action :=
  [Env (EnvSend 0 (VStr "Hello")); Task 0; Env (EnvRecv 1); Task 0].

Definition pipe_end : bworld :=
  Eval vm_compute in default pipe_start (brun pipe_sched pipe_start).

(** Two outputs without buffer; the goroutine has taken "Hello" from
    the input and no consumer is there yet. *)
Definition stall_sched : list action :=
  [Env (EnvSend 0 (VStr "Hello")); Task 0].

Definition stall_world : bworld :=
  Eval vm_compute in
    default two_blocking_start (brun stall_sched two_blocking_start).

(** The actions of the other goroutines only. *)
Definition is_env (a : action) : bool :=
  match a with
  | Env _ => true
  | Task _ => false
  end.

End FanVocab.

Module MergeVocab.
Import Go chops Sched Scenario Broadcast Merge.






End MergeVocab.

Module SignalVocab.
Import Go chops Sched Scenario Broadcast Merge MergeVocab.










End SignalVocab.

Module CallVocab.
Import Go chops Sched Scenario Broadcast Merge ProbeVocab.

(** The arguments of a call of [MakeFanIn] that does not panic: no
    input; one [chan interface{}]; or two channels or more of any element
    types; and, unless there is no input, a capacity that [make] takes
    (not negative, and within the limit of the allocator). *)
Definition accepted (outCap : Z) (chs : list value) : Prop :=
  match chs with
  | [] => True
  | [c] => (∃ p, c = VChan TIface p) ∧ chan_size_ok outCap = true
  | _ => Forall (λ c, is_chan c = true) chs ∧ chan_size_ok outCap = true
  end.

(** The output and stop channels a call of [MakeFanIn] makes. *)
Definition fresh_out (outCap : Z) (chs : list value) : hchan :=
  match chs with
  | [] => closed_empty
  | _ => newchan (Z.to_nat outCap)
  end.

Definition fresh_stop (chs : list value) : hchan :=
  match chs with
  | [] => newchan 0
  | [_] => newchan 0
  | _ => newchan 1
  end.

(** The later fan.go on two idle inputs: the caller closes stop, the
    select picks the stop case, the goroutine closes the output. *)
Definition stopped_sched (w : world) : list action :=
  [Env (EnvClose (stop w)); Task 2; Task 0].

Definition stopped_end : world :=
  Eval vm_compute in
    default two_idle_start (fan.run (stopped_sched two_idle_start) two_idle_start).

End CallVocab.

Module DrainVocab.
Import Go chops Sched Scenario Broadcast Merge.

(** A channel from which nothing more will come. *)
Definition exhausted (σ : store) (q : option nat) : Prop :=
  ∃ p c, q = Some p ∧ σ !! p = Some c ∧ closed c = true ∧ buf c = [].

(** Every input the goroutine still listens to is closed and drained. *)
Definition inputs_done (w : world) : Prop :=
  match kind w with
  | NoTask => False
  | Fast ch => exhausted (chans w) ch
  | General cases _ =>
      ∀ i v, i < length cases - 1 → cases !! i = Some (Some v) →
             exhausted (chans w) (cv_ptr v)
  end.

(** The select cases of the later fan.go with [K] inputs: the cases set
    to the zero Value are [K - remaining] of the inputs, the others still
    hold their channel. *)
Definition live_ok (K : nat) (w : world) : Prop :=
  match kind w with
  | NoTask => False
  | Fast _ => True
  | General cases rem =>
      length cases = S K ∧ 1 ≤ rem ∧
      ∃ dead : list nat,
        NoDup dead ∧ length dead + rem = K ∧
        (∀ i, i ∈ dead → i < K ∧ cases !! i = Some None) ∧
        (∀ i, i < K → i ∉ dead → ∃ v, cases !! i = Some (Some v))
  end.

(** The steps of the session's goroutine only. *)
Definition is_task (a : action) : bool :=
  match a with
  | Task _ => true
  | Env _ => false
  end.

(** The later fan.go on two inputs that are closed at once. *)
Definition drained_sched : list action :=
  [Env (EnvClose 0); Env (EnvClose 1)].

Definition drained_world : world :=
  Eval vm_compute in
    default two_idle_start (fan.run drained_sched two_idle_start).

End DrainVocab.

(* ===================================================================== *)
(** * Properties of the probes                                            *)
(* ===================================================================== *)

Module ProbeFacts.
Import Go chops Sched.

(** The sizes [make] accepts. *)
Lemma chan_size_ok_spec size :
  chan_size_ok size = true ↔
  (0 ≤ size)%Z ∧ (ifaceSize * size ≤ maxAlloc - hchanSize)%Z.
Proof.
  unfold chan_size_ok. rewrite andb_true_iff, Z.leb_le, Z.leb_le. done.
Qed.

Lemma slice_len_ok_spec n :
  slice_len_ok n = true ↔ (0 ≤ n)%Z ∧ (ptrSize * n ≤ maxAlloc)%Z.
Proof.
  unfold slice_len_ok. rewrite andb_true_iff, Z.leb_le, Z.leb_le. done.
Qed.

Lemma makechan_ret size c :
  makechan size = Ret c → c = newchan (Z.to_nat size) ∧ chan_size_ok size = true.
Proof. unfold makechan. destruct (chan_size_ok size); [|done]. by intros [= <-]. Qed.

Lemma recovers_send : recovers closeChMsg (RuntimeError sendClosedMsg) = true.
Proof. reflexivity. Qed.

Lemma recovers_close : recovers doubleCloseMsg (RuntimeError closeClosedMsg) = true.
Proof. reflexivity. Qed.

Lemma recovers_close_nil : recovers doubleCloseMsg (RuntimeError closeNilMsg) = false.
Proof. reflexivity. Qed.

(** The three outcomes of [hsend], by the state of the channel. *)
Lemma hsend_closed c x :
  closed c = true → hsend c x = Panics (RuntimeError sendClosedMsg).
Proof. unfold hsend. by intros ->. Qed.

Lemma hsend_handoff c x n :
  closed c = false → recvq c = S n →
  hsend c x = Done (mkChan (dataqsiz c) (buf c) false n (sendq c) (taken c ++ [x])).
Proof. unfold hsend. by intros -> ->. Qed.

Lemma hsend_enqueue c x :
  closed c = false → recvq c = 0 → length (buf c) < dataqsiz c →
  hsend c x = Done (mkChan (dataqsiz c) (buf c ++ [x]) false 0 (sendq c) (taken c)).
Proof.
  unfold hsend. intros -> -> Hlt.
  by apply Nat.ltb_lt in Hlt as ->.
Qed.

Lemma hsend_full c x :
  closed c = false → recvq c = 0 → dataqsiz c ≤ length (buf c) →
  hsend c x = WouldBlock.
Proof.
  unfold hsend. intros -> -> Hge.
  by apply Nat.ltb_ge in Hge as ->.
Qed.

Lemma hsend_panics c x r :
  hsend c x = Panics r → r = RuntimeError sendClosedMsg ∧ closed c = true.
Proof.
  unfold hsend. destruct (closed c); [by intros [= <-]|].
  destruct (recvq c); [|done]. by case_match.
Qed.

Lemma hsend_done_open c x c' : hsend c x = Done c' → closed c = false ∧ closed c' = false.
Proof.
  unfold hsend. destruct (closed c); [done|].
  destruct (recvq c); [case_match|]; by intros [= <-].
Qed.


(** A closed channel stays as it is under sends and closes, and a
    receive only drains its buffer. *)
Lemma hrecv_closed c :
  closed c = true →
  match hrecv c with
  | Done (Some _, c') => closed c' = true ∧ buf c ≠ []
  | Done (None, c') => c' = c ∧ buf c = []
  | _ => False
  end.
Proof.
  unfold hrecv. intros Hc. rewrite Hc.
  destruct (buf c); [done|]. by destruct (sendq c).
Qed.

Lemma env_hstep_closed a c : closed c = true → closed (env_hstep a c) = true.
Proof.
  intros Hc. destruct a as [p x|p|p]; simpl.
  - by rewrite (hsend_closed _ _ Hc).
  - pose proof (hrecv_closed c Hc) as Hr.
    destruct (hrecv c) as [[[y|] c']| |]; [by destruct Hr|by destruct Hr as [-> _]|done..].
  - unfold hclose. by rewrite Hc.
Qed.

Lemma env_hstep_drained a c :
  closed c = true → buf c = [] → env_hstep a c = c.
Proof.
  intros Hc Hb. destruct a as [p x|p|p]; simpl.
  - by rewrite (hsend_closed _ _ Hc).
  - unfold hrecv. by rewrite Hb, Hc.
  - unfold hclose. by rewrite Hc.
Qed.

Lemma env_step_length a σ : length (env_step a σ) = length σ.
Proof. unfold env_step. case_match; [by rewrite length_insert|done]. Qed.

Lemma env_step_lookup a σ p :
  env_step a σ !! p =
    if decide (env_chan a = p) then env_hstep a <$> σ !! p else σ !! p.
Proof.
  unfold env_step. case_decide as Hp.
  - subst p. destruct (σ !! env_chan a) as [c|] eqn:E; [|by rewrite E].
    rewrite list_lookup_insert_eq; [done|]. by eapply lookup_lt_Some.
  - destruct (σ !! env_chan a); [|done]. by rewrite list_lookup_insert_ne.
Qed.

(** What the probes return on a live pointer, in terms of the channel. *)
Lemma TrySend_live σ t p c x xt :
  σ !! p = Some c → typeOf x = Some xt → AssignableTo xt t = true →
  TrySend (VChan t (Some p)) x σ =
    match hsend c x with
    | Done c' => (Ret Ok, <[p := c']> σ)
    | WouldBlock => (Ret Blocked, σ)
    | Panics _ => (Ret Closed, σ)
    end.
Proof.
  intros Hp Hx Ha. unfold TrySend, checkSend, Value_TrySend, chansend. simpl.
  rewrite Hx, Ha. simpl. rewrite Hp.
  destruct (hsend c x) as [c'| |r] eqn:E; [done..|].
  apply hsend_panics in E as [-> _]. done.
Qed.

Lemma TryRecv_live σ t p c :
  σ !! p = Some c →
  TryRecv (VChan t (Some p)) σ =
    match hrecv c with
    | Done (Some x, c') => (Ret (x, Ok), <[p := c']> σ)
    | Done (None, c') => (Ret (zero t, Closed), <[p := c']> σ)
    | _ => (Ret (VNil, Blocked), σ)
    end.
Proof.
  intros Hp. unfold TryRecv, Value_TryRecv, chanrecv. simpl. rewrite Hp. simpl.
  by destruct (hrecv c) as [[[x|] c']| |].
Qed.

Lemma TryClose_live σ t p c :
  σ !! p = Some c →
  TryClose (VChan t (Some p)) σ =
    match hclose c with
    | Done c' => (Ret true, <[p := c']> σ)
    | _ => (Ret false, σ)
    end.
Proof.
  intros Hp. unfold TryClose, Value_Close, closechan. simpl. rewrite Hp.
  unfold hclose. by destruct (closed c).
Qed.

Lemma IsClosed_live σ t p c :
  σ !! p = Some c → IsClosed (VChan t (Some p)) σ = Ret (closed c).
Proof. intros Hp. unfold IsClosed. simpl. by rewrite Hp. Qed.

(** The operations through a live pointer. *)
Lemma chansend_live o x (σ : store) c :
  σ !! o = Some c →
  chansend (Some o) x σ =
    match hsend c x with
    | Done c' => Done (<[o := c']> σ)
    | WouldBlock => WouldBlock
    | Panics r => Panics r
    end.
Proof. intros Ho. unfold chansend. simpl. by rewrite Ho. Qed.

Lemma chanrecv_live p (σ : store) c :
  σ !! p = Some c →
  chanrecv (Some p) σ =
    match hrecv c with
    | Done (x, c') => Done (x, <[p := c']> σ)
    | WouldBlock => WouldBlock
    | Panics r => Panics r
    end.
Proof. intros Hp. unfold chanrecv. simpl. by rewrite Hp. Qed.

Lemma closechan_live o (σ : store) c :
  σ !! o = Some c →
  closechan (Some o) σ =
    match hclose c with
    | Done c' => Done (<[o := c']> σ)
    | WouldBlock => WouldBlock
    | Panics r => Panics r
    end.
Proof. intros Ho. unfold closechan. by rewrite Ho. Qed.

(** A receive keeps the parked receivers and appends to [taken]. *)
Lemma hrecv_some c x c' :
  hrecv c = Done (Some x, c') →
  taken c' = taken c ++ [x] ∧ recvq c' = recvq c.
Proof.
  unfold hrecv. destruct (buf c) as [|b bs].
  - destruct (closed c); [done|]. destruct (sendq c); [done|]. by intros [= <- <-].
  - destruct (sendq c); by intros [= <- <-].
Qed.

Lemma hrecv_none c c' :
  hrecv c = Done (None, c') → closed c = true ∧ buf c = [] ∧ c' = c.
Proof.
  unfold hrecv. destruct (buf c); [|by destruct (sendq c)].
  destruct (closed c); [by intros [= <-]|]. by destruct (sendq c).
Qed.

End ProbeFacts.

Module ProbeClaims.
Import Go chops Sched ProbeFacts.

(** C6. [TrySend] on a channel, with a value assignable to its element
    type, always returns a status and never a panic, and it never waits:
    [Ok] exactly when the channel is open and takes the value at once (a
    parked receiver gets it, or the buffer has room and stores it last),
    [Closed] exactly when the channel is closed (the store is untouched),
    [Blocked] exactly when the channel is open with no parked receiver
    and no room in the buffer (the store is untouched). *)
Theorem TrySend_status (σ : store) (t : ty) (p : nat) (c : hchan)
    (x : value) (xt : ty) :
  σ !! p = Some c → typeOf x = Some xt → AssignableTo xt t = true →
  ∃ st σ', TrySend (VChan t (Some p)) x σ = (Ret st, σ') ∧
    match st with
    | Ok =>
        closed c = false ∧ (0 < recvq c ∨ length (buf c) < dataqsiz c) ∧
        ∃ c', σ' = <[p := c']> σ ∧ closed c' = false ∧
          ((0 < recvq c ∧ taken c' = taken c ++ [x] ∧ buf c' = buf c) ∨
           (recvq c = 0 ∧ buf c' = buf c ++ [x] ∧ taken c' = taken c))
    | Closed => closed c = true ∧ σ' = σ
    | Blocked =>
        closed c = false ∧ recvq c = 0 ∧ dataqsiz c ≤ length (buf c) ∧ σ' = σ
    end.
Proof.
  intros Hp Hx Ha. rewrite (TrySend_live _ _ _ _ _ _ Hp Hx Ha).
  destruct (closed c) eqn:Hc.
  { rewrite (hsend_closed _ _ Hc). by exists Closed, σ. }
  destruct (recvq c) as [|n] eqn:Hq.
  - destruct (decide (length (buf c) < dataqsiz c)) as [Hlt|Hge].
    + rewrite (hsend_enqueue _ _ Hc Hq Hlt).
      eexists Ok, _. split; [done|]. split_and!; [done|by right|].
      eexists. split_and!; [done..|]. right. done.
    + rewrite (hsend_full _ _ Hc Hq); [|lia].
      exists Blocked, σ. split_and!; [done..|lia|done].
  - rewrite (hsend_handoff _ _ n Hc Hq).
    eexists Ok, _. split; [done|]. split_and!; [done|left; lia|].
    eexists. split_and!; [done..|]. left. split_and!; [lia|done..].
Qed.

Lemma TrySend_status_witness :
  [newchan 1] !! 0 = Some (newchan 1) ∧
  typeOf (VStr "Hello") = Some TString ∧
  AssignableTo TString TString = true ∧
  ∃ st σ', TrySend (VChan TString (Some 0)) (VStr "Hello") [newchan 1] = (Ret st, σ') ∧
    match st with
    | Ok =>
        closed (newchan 1) = false ∧
        (0 < recvq (newchan 1) ∨ length (buf (newchan 1)) < dataqsiz (newchan 1)) ∧
        ∃ c', σ' = <[0 := c']> [newchan 1] ∧ closed c' = false ∧
          ((0 < recvq (newchan 1) ∧ taken c' = taken (newchan 1) ++ [VStr "Hello"] ∧
            buf c' = buf (newchan 1)) ∨
           (recvq (newchan 1) = 0 ∧ buf c' = buf (newchan 1) ++ [VStr "Hello"] ∧
            taken c' = taken (newchan 1)))
    | Closed => closed (newchan 1) = true ∧ σ' = [newchan 1]
    | Blocked =>
        closed (newchan 1) = false ∧ recvq (newchan 1) = 0 ∧
        dataqsiz (newchan 1) ≤ length (buf (newchan 1)) ∧ σ' = [newchan 1]
    end.
Proof.
  split; [reflexivity|]. split; [reflexivity|]. split; [reflexivity|].
  apply (TrySend_status [newchan 1] TString 0 (newchan 1) (VStr "Hello") TString);
    reflexivity.
Defined.

(** The nil channel: a non-blocking send on it reports [Blocked]. *)
Lemma TrySend_nil (σ : store) (t : ty) (x : value) (xt : ty) :
  typeOf x = Some xt → AssignableTo xt t = true →
  TrySend (VChan t None) x σ = (Ret Blocked, σ).
Proof. intros Hx Ha. unfold TrySend, checkSend. simpl. by rewrite Hx, Ha. Qed.

(** C7. [TryClose] on a channel returns, without a panic, whether the
    channel was open before the call: [true] exactly when this call took
    it from open to closed (buffered items stay), [false] when it was
    closed already, in which case nothing changes.  Either way the
    channel is closed afterwards. *)
Theorem TryClose_reports (σ : store) (t : ty) (p : nat) (c : hchan) :
  σ !! p = Some c →
  ∃ c', TryClose (VChan t (Some p)) σ = (Ret (negb (closed c)), <[p := c']> σ) ∧
    closed c' = true ∧
    (closed c = true → c' = c ∧ <[p := c']> σ = σ) ∧
    (closed c = false →
       buf c' = buf c ∧ taken c' = taken c ∧ dataqsiz c' = dataqsiz c).
Proof.
  intros Hp. rewrite (TryClose_live _ _ _ _ Hp). unfold hclose.
  destruct (closed c) eqn:Hc; simpl.
  - exists c. rewrite list_insert_id by done. done.
  - eexists. split; [done|]. done.
Qed.

Lemma TryClose_reports_witness :
  [newchan 0] !! 0 = Some (newchan 0) ∧
  ∃ c', TryClose (VChan TUnit (Some 0)) [newchan 0]
          = (Ret (negb (closed (newchan 0))), <[0 := c']> [newchan 0]) ∧
    closed c' = true ∧
    (closed (newchan 0) = true → c' = newchan 0 ∧ <[0 := c']> [newchan 0] = [newchan 0]) ∧
    (closed (newchan 0) = false →
       buf c' = buf (newchan 0) ∧ taken c' = taken (newchan 0) ∧
       dataqsiz c' = dataqsiz (newchan 0)).
Proof.
  split; [reflexivity|].
  apply (TryClose_reports [newchan 0] TUnit 0 (newchan 0)). reflexivity.
Defined.

(** Closing the nil channel is not a double close: the panic goes on. *)
Lemma TryClose_nil (σ : store) (t : ty) :
  TryClose (VChan t None) σ = (Panic (RuntimeError closeNilMsg), σ).
Proof. reflexivity. Qed.

End ProbeClaims.

Module MonotoneClaims.
Import Go chops Sched Obs ProbeFacts.

Lemma evolves_refl c : evolves c c.
Proof. by intros Hc. Qed.

Lemma evolves_trans c1 c2 c3 : evolves c1 c2 → evolves c2 c3 → evolves c1 c3.
Proof.
  intros H12 H23 Hc. destruct (H12 Hc) as [Hc2 Hd]. destruct (H23 Hc2) as [Hc3 Hd'].
  split; [done|]. intros Hb. specialize (Hd Hb). subst c2. by apply Hd'.
Qed.

Lemma store_evolves_refl σ : store_evolves σ σ.
Proof. intros p c Hp. exists c. split; [done|apply evolves_refl]. Qed.

Lemma store_evolves_trans σ1 σ2 σ3 :
  store_evolves σ1 σ2 → store_evolves σ2 σ3 → store_evolves σ1 σ3.
Proof.
  intros H12 H23 p c Hp. destruct (H12 p c Hp) as (c2 & Hp2 & He).
  destruct (H23 p c2 Hp2) as (c3 & Hp3 & He'). exists c3.
  split; [done|]. by eapply evolves_trans.
Qed.

Lemma store_evolves_insert σ q cq cq' :
  σ !! q = Some cq → evolves cq cq' → store_evolves σ (<[q := cq']> σ).
Proof.
  intros Hq He p c Hp. destruct (decide (q = p)) as [->|Hne].
  - exists cq'. rewrite list_lookup_insert_eq by (by eapply lookup_lt_Some).
    split; [done|]. by simplify_eq.
  - exists c. rewrite list_lookup_insert_ne by done. split; [done|apply evolves_refl].
Qed.

Lemma hsend_evolves c x c' : hsend c x = Done c' → evolves c c'.
Proof. intros H Hc. apply hsend_done_open in H as [? _]. congruence. Qed.

Lemma hrecv_evolves c y c' : hrecv c = Done (y, c') → evolves c c'.
Proof.
  intros H Hc. pose proof (hrecv_closed c Hc) as Hr. rewrite H in Hr.
  destruct y; [by destruct Hr|]. destruct Hr as [-> _]. done.
Qed.

Lemma hclose_evolves c c' : hclose c = Done c' → evolves c c'.
Proof. unfold hclose. intros H Hc. by rewrite Hc in H. Qed.

Lemma env_hstep_evolves a c : evolves c (env_hstep a c).
Proof.
  intros Hc. split; [by apply env_hstep_closed|].
  intros Hb. by apply env_hstep_drained.
Qed.

Lemma chansend_evolves q x σ σ' : chansend q x σ = Done σ' → store_evolves σ σ'.
Proof.
  unfold chansend. destruct q as [q|]; simpl; [|done].
  destruct (σ !! q) as [cq|] eqn:Hq; [|done].
  destruct (hsend cq x) as [c'| |] eqn:E; [|done..]. intros [= <-].
  eapply store_evolves_insert; [done|]. by eapply hsend_evolves.
Qed.

Lemma chanrecv_evolves q σ y σ' : chanrecv q σ = Done (y, σ') → store_evolves σ σ'.
Proof.
  unfold chanrecv. destruct q as [q|]; simpl; [|done].
  destruct (σ !! q) as [cq|] eqn:Hq; [|done].
  destruct (hrecv cq) as [[y' c']| |] eqn:E; [|done..]. intros [= <- <-].
  eapply store_evolves_insert; [done|]. by eapply hrecv_evolves.
Qed.

Lemma closechan_evolves q σ σ' : closechan q σ = Done σ' → store_evolves σ σ'.
Proof.
  unfold closechan. destruct q as [q|]; [|done].
  destruct (σ !! q) as [cq|] eqn:Hq; [|done].
  destruct (hclose cq) as [c'| |] eqn:E; [|done..]. intros [= <-].
  eapply store_evolves_insert; [done|]. by eapply hclose_evolves.
Qed.

Lemma env_step_evolves a σ : store_evolves σ (env_step a σ).
Proof.
  unfold env_step. destruct (σ !! env_chan a) as [c|] eqn:E.
  - eapply store_evolves_insert; [done|apply env_hstep_evolves].
  - apply store_evolves_refl.
Qed.

Lemma TrySend_evolves ch x σ : store_evolves σ (TrySend ch x σ).2.
Proof.
  unfold TrySend. destruct (checkSend ch x) as [v|r]; [|apply store_evolves_refl].
  unfold Value_TrySend.
  destruct (chansend (cv_ptr v) x σ) as [σ'| |r] eqn:E; simpl.
  - by eapply chansend_evolves.
  - apply store_evolves_refl.
  - destruct (recovers closeChMsg r); apply store_evolves_refl.
Qed.

Lemma TryRecv_evolves ch σ : store_evolves σ (TryRecv ch σ).2.
Proof.
  unfold TryRecv. destruct (assertChanValue ch) as [v|r]; [|apply store_evolves_refl].
  unfold Value_TryRecv.
  destruct (chanrecv (cv_ptr v) σ) as [[[y|] σ']| |r] eqn:E; simpl;
    try apply store_evolves_refl; by eapply chanrecv_evolves.
Qed.

Lemma TryClose_evolves ch σ : store_evolves σ (TryClose ch σ).2.
Proof.
  unfold TryClose. destruct (assertChanValue ch) as [v|r]; [|apply store_evolves_refl].
  unfold Value_Close.
  destruct (closechan (cv_ptr v) σ) as [σ'| |r] eqn:E; simpl.
  - by eapply closechan_evolves.
  - apply store_evolves_refl.
  - destruct (recovers doubleCloseMsg r); apply store_evolves_refl.
Qed.

Lemma op_step_evolves o σ : store_evolves σ (op_step o σ).
Proof.
  destruct o; simpl;
    [apply env_step_evolves|apply TrySend_evolves|apply TryRecv_evolves|apply TryClose_evolves].
Qed.

Lemma run_ops_evolves ops σ : store_evolves σ (run_ops ops σ).
Proof.
  revert σ. induction ops as [|o ops IH]; intros σ; simpl.
  - apply store_evolves_refl.
  - eapply store_evolves_trans; [apply op_step_evolves|apply IH].
Qed.

End MonotoneClaims.

Module ClosedFinal.
Import Go chops Sched Obs ProbeFacts MonotoneClaims.

(** What an observation of closed says about the store it leaves. *)
Lemma observes_closed_inv t p σ0 σ :
  observes_closed (VChan t (Some p)) σ0 σ →
  ∃ c, σ !! p = Some c ∧ closed c = true ∧
       ((∃ z, TryRecv (VChan t (Some p)) σ0 = (Ret (z, Closed), σ)) → buf c = []).
Proof.
  intros [[x Hs]|[[z Hr]|[Hi ->]]].
  - unfold TrySend in Hs. destruct (checkSend _ x) as [v|r] eqn:Hv; [|done].
    assert (v = mkCV t (Some p)) as ->.
    { unfold checkSend in Hv. simpl in Hv. destruct (typeOf x); [|done].
      destruct (AssignableTo _ _); by simplify_eq. }
    unfold Value_TrySend, chansend in Hs. simpl in Hs.
    destruct (σ0 !! p) as [c|] eqn:Hp; [|done].
    destruct (hsend c x) as [c'| |r] eqn:E; [done..|].
    apply hsend_panics in E as [-> Hc]. simpl in Hs. simplify_eq.
    exists c. split_and!; [done..|].
    intros [z Hz]. rewrite (TryRecv_live _ _ _ _ Hp) in Hz.
    destruct (hrecv c) as [[[y|] c']| |] eqn:E; [done| |done..].
    by apply hrecv_none in E as (_ & ? & _).
  - destruct (σ0 !! p) as [c|] eqn:Hp.
    + rewrite (TryRecv_live _ _ _ _ Hp) in Hr.
      destruct (hrecv c) as [[[y|] c']| |] eqn:E; [done| |done..].
      apply hrecv_none in E as (Hc & Hb & ->). simplify_eq.
      rewrite list_insert_id by done. by exists c.
    + unfold TryRecv, Value_TryRecv, chanrecv in Hr. simpl in Hr. by rewrite Hp in Hr.
  - unfold IsClosed in Hi. simpl in Hi.
    destruct (σ0 !! p) as [c|] eqn:Hp; [|done]. simplify_eq.
    exists c. split_and!; [done..|].
    intros [z Hz]. rewrite (TryRecv_live _ _ _ _ Hp) in Hz.
    destruct (hrecv c) as [[[y|] c']| |] eqn:E; [done| |done..].
    by apply hrecv_none in E as (_ & ? & _).
Qed.

(** C5 (as amended).  The closed state never reverts.  After any probe
    on a channel has reported closed ([TrySend] or [TryRecv] returned
    [Closed], or [IsClosed] returned true), and whatever the program
    then does to the channels, the channel is closed: [IsClosed] returns
    true, every [TrySend] of an assignable value returns [Closed],
    [TryRecv] never returns [Blocked] and returns [Closed] exactly when
    the buffer is drained.  After a [TryRecv] that reported [Closed],
    every later [TryRecv] reports [Closed] with the zero value. *)
Theorem closed_is_final (σ0 σ : store) (t : ty) (p : nat) (ops : list op) :
  observes_closed (VChan t (Some p)) σ0 σ →
  ∃ c', run_ops ops σ !! p = Some c' ∧ closed c' = true ∧
    IsClosed (VChan t (Some p)) (run_ops ops σ) = Ret true ∧
    (∀ y yt, typeOf y = Some yt → AssignableTo yt t = true →
       TrySend (VChan t (Some p)) y (run_ops ops σ) = (Ret Closed, run_ops ops σ)) ∧
    (∃ z st, (TryRecv (VChan t (Some p)) (run_ops ops σ)).1 = Ret (z, st) ∧
       st ≠ Blocked ∧ (st = Closed ↔ buf c' = [])) ∧
    ((∃ z, TryRecv (VChan t (Some p)) σ0 = (Ret (z, Closed), σ)) →
       TryRecv (VChan t (Some p)) (run_ops ops σ) = (Ret (zero t, Closed), run_ops ops σ)).
Proof.
  intros Hobs. destruct (observes_closed_inv _ _ _ _ Hobs) as (c & Hp & Hc & Hdr).
  destruct (run_ops_evolves ops σ p c Hp) as (c' & Hp' & He).
  destruct (He Hc) as [Hc' Hsame].
  exists c'. split_and!; [done..| | | |].
  - by rewrite (IsClosed_live _ _ _ _ Hp'), Hc'.
  - intros y yt Hy Ha. rewrite (TrySend_live _ _ _ _ _ _ Hp' Hy Ha).
    by rewrite (hsend_closed _ _ Hc').
  - rewrite (TryRecv_live _ _ _ _ Hp').
    pose proof (hrecv_closed c' Hc') as Hr.
    destruct (hrecv c') as [[[y|] c'']| |] eqn:E; [| |done..].
    + exists y, Ok. destruct Hr as [_ Hne]. split_and!; [done..|]. split; [done|]. done.
    + exists (zero t), Closed. destruct Hr as [_ Hb]. done.
  - intros Hz. specialize (Hdr Hz). specialize (Hsame Hdr). subst c'.
    rewrite (TryRecv_live _ _ _ _ Hp').
    unfold hrecv. rewrite Hdr, Hc. by rewrite list_insert_id.
Qed.

Lemma closed_is_final_witness :
  observes_closed (VChan TInt (Some 0)) buffered_then_closed buffered_then_closed ∧
  ∃ c', run_ops [OTryRecv (VChan TInt (Some 0))] buffered_then_closed !! 0 = Some c' ∧
    closed c' = true ∧
    IsClosed (VChan TInt (Some 0))
      (run_ops [OTryRecv (VChan TInt (Some 0))] buffered_then_closed) = Ret true ∧
    (∀ y yt, typeOf y = Some yt → AssignableTo yt TInt = true →
       TrySend (VChan TInt (Some 0)) y
         (run_ops [OTryRecv (VChan TInt (Some 0))] buffered_then_closed)
       = (Ret Closed, run_ops [OTryRecv (VChan TInt (Some 0))] buffered_then_closed)) ∧
    (∃ z st, (TryRecv (VChan TInt (Some 0))
                (run_ops [OTryRecv (VChan TInt (Some 0))] buffered_then_closed)).1
             = Ret (z, st) ∧
       st ≠ Blocked ∧ (st = Closed ↔ buf c' = [])) ∧
    ((∃ z, TryRecv (VChan TInt (Some 0)) buffered_then_closed
           = (Ret (z, Closed), buffered_then_closed)) →
       TryRecv (VChan TInt (Some 0))
         (run_ops [OTryRecv (VChan TInt (Some 0))] buffered_then_closed)
       = (Ret (zero TInt, Closed),
          run_ops [OTryRecv (VChan TInt (Some 0))] buffered_then_closed)).
Proof.
  assert (observes_closed (VChan TInt (Some 0)) buffered_then_closed buffered_then_closed)
    as Hobs by (right; right; split; reflexivity).
  split; [exact Hobs|].
  exact (closed_is_final buffered_then_closed buffered_then_closed TInt 0
           [OTryRecv (VChan TInt (Some 0))] Hobs).
Defined.

(** C5 as stated fails: on a channel that was closed with an item still
    buffered, [IsClosed] returns true and [TrySend] returns [Closed], and
    the next [TryRecv] returns the item with [Ok]. *)
Lemma closed_then_Ok_counterexample :
  IsClosed (VChan TInt (Some 0)) buffered_then_closed = Ret true ∧
  TrySend (VChan TInt (Some 0)) (VInt 2) buffered_then_closed
    = (Ret Closed, buffered_then_closed) ∧
  (TryRecv (VChan TInt (Some 0)) buffered_then_closed).1 = Ret (VInt 1, Ok) ∧
  ¬ closed_observation_sticks.
Proof.
  split_and!; [reflexivity..|].
  intros H.
  destruct (H buffered_then_closed buffered_then_closed TInt 0 []) as [z Hz].
  - right; right. split; reflexivity.
  - vm_compute in Hz. discriminate.
Qed.

End ClosedFinal.

Module RetryClaims.
Import Go chops Sched Obs ProbeFacts.

Lemma chansend_panics q x σ r :
  chansend q x σ = Panics r →
  r = RuntimeError sendClosedMsg ∧
  ∃ p c, q = Some p ∧ σ !! p = Some c ∧ closed c = true.
Proof.
  unfold chansend. destruct q as [p|]; simpl; [|done].
  destruct (σ !! p) as [c|] eqn:Hp; [|done].
  destruct (hsend c x) as [c'| |r'] eqn:E; [done..|]. intros [= <-].
  apply hsend_panics in E as [-> Hc]. split; [done|]. by exists p, c.
Qed.

Lemma retries_snoc k :
  [EvProbe Blocked; EvCall] ++ retries k = retries k ++ [EvProbe Blocked; EvCall].
Proof. induction k as [|k IH]; [done|]. simpl in *. by rewrite <-IH. Qed.

(** The loop of [SendOr] after [n] attempts that could not proceed, each
    followed by a call of the fallback that returned. *)
Lemma SendOr_loop_blocked v x (f : nat → store → res unit * store) n :
  ∀ fuel k0 σ tr,
    (∀ i, i < n →
       chansend (cv_ptr v) x (rounds_from (effect f) k0 i σ) = WouldBlock ∧
       (f (k0 + i) (rounds_from (effect f) k0 i σ)).1 = Ret tt) →
    SendOr_loop (n + fuel) v x f k0 σ tr =
    SendOr_loop fuel v x f (k0 + n) (rounds_from (effect f) k0 n σ) (tr ++ retries n).
Proof.
  induction n as [|n IH]; intros fuel k0 σ tr Hb.
  - simpl. by rewrite Nat.add_0_r, app_nil_r.
  - destruct (Hb 0 ltac:(lia)) as [H0 Hf0]. cbn [rounds_from] in H0, Hf0.
    rewrite Nat.add_0_r in Hf0.
    change (S n + fuel) with (S (n + fuel)). cbn [SendOr_loop rounds_from retries].
    unfold Value_TrySend at 1. rewrite H0. unfold effect at 2.
    destruct (f k0 σ) as [r σ1] eqn:Hf. simpl in Hf0. subst r. simpl.
    rewrite IH.
    + rewrite <-app_assoc. f_equal. lia.
    + intros i Hi. destruct (Hb (S i) ltac:(lia)) as [Hbi Hfi].
      cbn [rounds_from] in Hbi, Hfi. unfold effect at 2 in Hbi.
      unfold effect at 2 in Hfi. rewrite Hf in Hbi, Hfi. simpl in Hbi, Hfi.
      split; [done|]. by replace (S k0 + i) with (k0 + S i) by lia.
Qed.

(** C8. [SendOr] on a channel with an assignable value and any
    fallback, which may return or panic.  Suppose the first [k] attempts
    cannot proceed and the call of the fallback after each of them
    returns (the k-th call, and whatever else happens meanwhile, takes
    the store from [rounds (effect f) k σ] to the next).  Then the next
    attempt decides: if the channel takes the value, [SendOr] returns
    true and the value is delivered; if the channel is closed, [SendOr]
    returns false, the store is left as the closed probe found it and
    the fallback was called exactly [k] times, all before the probe that
    saw the channel closed (none at all when it is closed at the call).
    If the attempt cannot proceed either, the fallback is called once
    more: when that call returns, [SendOr] is still retrying; when it
    panics, the deferred function of [SendOr] ends the call, with the
    result false if the panic is a runtime error that reads as a send on
    a closed channel (though the channel of [SendOr] was found open) and
    with the fallback's panic otherwise. *)
Theorem SendOr_outcome (σ : store) (t : ty) (p : nat) (x : value) (xt : ty)
    (f : nat → store → res unit * store) (k fuel : nat) :
  typeOf x = Some xt → AssignableTo xt t = true →
  (∀ i, i < k →
     chansend (Some p) x (rounds (effect f) i σ) = WouldBlock ∧
     (f i (rounds (effect f) i σ)).1 = Ret tt) →
  k < fuel →
  match chansend (Some p) x (rounds (effect f) k σ) with
  | Done σ' =>
      SendOr fuel (VChan t (Some p)) x f σ
        = Some (Ret true, σ', retries k ++ [EvProbe Ok]) ∧
      ∃ c c', rounds (effect f) k σ !! p = Some c ∧ hsend c x = Done c' ∧
              σ' = <[p := c']> (rounds (effect f) k σ)
  | Panics _ =>
      SendOr fuel (VChan t (Some p)) x f σ
        = Some (Ret false, rounds (effect f) k σ, retries k ++ [EvProbe Closed]) ∧
      ∃ c, rounds (effect f) k σ !! p = Some c ∧ closed c = true
  | WouldBlock =>
      match f k (rounds (effect f) k σ) with
      | (Ret _, _) => SendOr (S k) (VChan t (Some p)) x f σ = None
      | (Panic r, σ') =>
          SendOr fuel (VChan t (Some p)) x f σ
            = Some (if recovers closeChMsg r then Ret false else Panic r, σ',
                    retries k ++ [EvProbe Blocked; EvCall]) ∧
          ∀ c, rounds (effect f) k σ !! p = Some c → closed c = false
      end
  end.
Proof.
  intros Hx Ha Hb Hk.
  assert (checkSend (VChan t (Some p)) x = Ret (mkCV t (Some p))) as Hv.
  { unfold checkSend. simpl. by rewrite Hx, Ha. }
  unfold SendOr. rewrite Hv.
  pose proof (SendOr_loop_blocked (mkCV t (Some p)) x f k) as Hloop.
  destruct (chansend (Some p) x (rounds (effect f) k σ)) as [σ'| |r] eqn:E.
  - replace fuel with (k + S (fuel - S k)) by lia.
    rewrite Hloop by done. cbn [SendOr_loop]. unfold Value_TrySend. cbn [cv_ptr].
    fold (rounds (effect f) k σ). rewrite E. split; [done|].
    unfold chansend in E. simpl in E.
    destruct (rounds (effect f) k σ !! p) as [c|] eqn:Hp; [|done].
    destruct (hsend c x) as [c'| |] eqn:Hs; [|done..]. simplify_eq.
    by exists c, c'.
  - destruct (f k (rounds (effect f) k σ)) as [[u|r] σ'] eqn:Hf.
    + replace (S k) with (k + 1) by lia.
      rewrite Hloop by done. cbn [SendOr_loop]. unfold Value_TrySend. cbn [cv_ptr].
      fold (rounds (effect f) k σ). rewrite E. simpl. by rewrite Hf.
    + replace fuel with (k + S (fuel - S k)) by lia.
      rewrite Hloop by done. cbn [SendOr_loop]. unfold Value_TrySend. cbn [cv_ptr].
      fold (rounds (effect f) k σ). rewrite E. simpl. rewrite Hf.
      unfold SendOr_deferred. simpl. split; [by destruct (recovers closeChMsg r)|].
      intros c Hc. unfold chansend in E. rewrite Hc in E.
      destruct (hsend c x) as [c'| |r'] eqn:Hs; [done| |done].
      unfold hsend in Hs. by destruct (closed c).
  - replace fuel with (k + S (fuel - S k)) by lia.
    rewrite Hloop by done. cbn [SendOr_loop]. unfold Value_TrySend. cbn [cv_ptr].
    fold (rounds (effect f) k σ). rewrite E.
    apply chansend_panics in E as [-> (p' & c & Hp' & Hc & Hcl)].
    simplify_eq. split; [done|]. by exists c.
Qed.

Lemma SendOr_outcome_witness :
  typeOf VUnit = Some TUnit ∧
  AssignableTo TUnit TUnit = true ∧
  (∀ i, i < 1 →
     chansend (Some 0) VUnit
       (rounds (effect (λ _ s, (Ret tt, env_step (EnvClose 0) s))) i [newchan 0])
     = WouldBlock ∧
     ((λ _ s, (Ret tt, env_step (EnvClose 0) s)) i
        (rounds (effect (λ _ s, (Ret tt, env_step (EnvClose 0) s))) i [newchan 0])).1
     = Ret tt) ∧
  1 < 3 ∧
  SendOr 3 (VChan TUnit (Some 0)) VUnit (λ _ s, (Ret tt, env_step (EnvClose 0) s))
    [newchan 0]
  = Some (Ret false, [mkChan 0 [] true 0 [] []], retries 1 ++ [EvProbe Closed]).
Proof.
  assert (∀ i, i < 1 →
     chansend (Some 0) VUnit
       (rounds (effect (λ _ s, (Ret tt, env_step (EnvClose 0) s))) i [newchan 0])
     = WouldBlock ∧
     ((λ _ s, (Ret tt, env_step (EnvClose 0) s)) i
        (rounds (effect (λ _ s, (Ret tt, env_step (EnvClose 0) s))) i [newchan 0])).1
     = Ret tt) as Hb.
  { intros i Hi. assert (i = 0) as -> by lia. split; reflexivity. }
  split; [reflexivity|]. split; [reflexivity|]. split; [exact Hb|]. split; [lia|].
  exact (proj1 (SendOr_outcome [newchan 0] TUnit 0 VUnit TUnit
                  (λ _ s, (Ret tt, env_step (EnvClose 0) s)) 1 3
                  eq_refl eq_refl Hb ltac:(lia))).
Defined.

(** The test "Send on closed channel, immediate": no call of [f]. *)
Example SendOr_closed_at_call :
  SendOr 1 (VChan TUnit (Some 0)) VUnit (λ _ s, (Ret tt, s)) [mkChan 0 [] true 0 [] []]
  = Some (Ret false, [mkChan 0 [] true 0 [] []], [EvProbe Closed]).
Proof. reflexivity. Qed.

(** A fallback that panics on its first call: with a send on another,
    closed channel, [SendOr] returns false although its own channel is
    open; with a panic of its own, [SendOr] panics. *)
Example SendOr_fallback_panics :
  SendOr 1 (VChan TUnit (Some 0)) VUnit
    (λ _ s, (Panic (RuntimeError sendClosedMsg), s)) [newchan 0]
  = Some (Ret false, [newchan 0], [EvProbe Blocked; EvCall]) ∧
  SendOr 1 (VChan TUnit (Some 0)) VUnit
    (λ _ s, (Panic (PanicString "boom"), s)) [newchan 0]
  = Some (Panic (PanicString "boom"), [newchan 0], [EvProbe Blocked; EvCall]).
Proof. split; reflexivity. Qed.

End RetryClaims.

(* ===================================================================== *)
(** * MakeFanIn: construction and cancellation                            *)
(* ===================================================================== *)

Module FanInClaims.
Import Go chops Sched Obs Scenario ProbeFacts MonotoneClaims.

Lemma run_ops_closed_empty ops (σ : store) p :
  σ !! p = Some closed_empty → run_ops ops σ !! p = Some closed_empty.
Proof.
  intros Hp. destruct (run_ops_evolves ops σ p _ Hp) as (c' & Hp' & He).
  destruct (He eq_refl) as [_ Hsame]. by rewrite Hp', (Hsame eq_refl).
Qed.

(** C9. With no input, both versions of [MakeFanIn] return the same
    session: no goroutine is started (no step of a session goroutine
    exists), and the output is a closed, empty channel.  It stays so
    whatever the program does to the channels afterwards: every receive
    and every [TryRecv] on it reports closed with no item. *)
Theorem MakeFanIn_no_inputs (outCap : Z) (σ : store) :
  ∃ w, fan.MakeFanIn outCap [] σ = Ret w ∧ fan_go.MakeFanIn outCap [] σ = Ret w ∧
    kind w = NoTask ∧ out w = length σ ∧ trace w = [] ∧
    (∀ chosen, fan.task_step chosen w = None ∧ fan_go.task_step chosen w = None) ∧
    ∀ ops,
      run_ops ops (chans w) !! out w = Some closed_empty ∧
      chanrecv (Some (out w)) (run_ops ops (chans w))
        = Done (None, run_ops ops (chans w)) ∧
      TryRecv (VChan TIface (Some (out w))) (run_ops ops (chans w))
        = (Ret (VNil, Closed), run_ops ops (chans w)).
Proof.
  assert (closechan (Some (length σ)) (σ ++ [newchan 0]) = Done (σ ++ [closed_empty])) as Hcl.
  { unfold closechan. rewrite lookup_app_r, Nat.sub_diag by done. simpl.
    f_equal. replace (length σ) with (length σ + 0) at 1 by lia.
    by rewrite insert_app_r. }
  eexists. unfold fan.MakeFanIn, fan_go.MakeFanIn, alloc. rewrite Hcl.
  split; [reflexivity|]. split; [reflexivity|]. simpl.
  split_and!; [done..|].
  intros ops.
  assert (((σ ++ [closed_empty]) ++ [newchan 0]) !! length σ = Some closed_empty) as Hp.
  { rewrite <-app_assoc, lookup_app_r, Nat.sub_diag by done. done. }
  pose proof (run_ops_closed_empty ops _ _ Hp) as Hp'.
  split; [done|]. split.
  - unfold chanrecv. simpl. rewrite Hp'. simpl. by rewrite list_insert_id.
  - rewrite (TryRecv_live _ _ _ _ Hp'). simpl. by rewrite list_insert_id.
Qed.

(** C4, at the failing input: a single input of type [chan string].
    Both versions of [MakeFanIn] panic in the type assertion of the
    single-input path, while the same channel next to a second one is
    accepted by the general path. *)
Theorem MakeFanIn_single_typed_input :
  fan.MakeFanIn 0 [VChan TString (Some 0)] [newchan 0]
    = Panic (RuntimeError
        "interface conversion: interface {} is chan string, not chan interface {}") ∧
  fan_go.MakeFanIn 0 [VChan TString (Some 0)] [newchan 0]
    = Panic (RuntimeError
        "interface conversion: interface {} is chan string, not chan interface {}") ∧
  (∃ w, fan.MakeFanIn 0 [VChan TString (Some 0); VChan TInt (Some 1)]
          [newchan 0; newchan 0] = Ret w ∧ at_pc w = AtSelect) ∧
  (∃ w, fan_go.MakeFanIn 0 [VChan TString (Some 0); VChan TInt (Some 1)]
          [newchan 0; newchan 0] = Ret w ∧ at_pc w = AtPoll).
Proof.
  split_and!; [reflexivity..| |]; eexists; split; reflexivity.
Qed.

(** C2, at the failing input: src/fan.go on the schedule of its test
    "Two closed".  After stop is closed, [RecvOr] returns and the
    goroutine ends; the output was never closed, and no step is left
    that could close it. *)
Theorem fan_go_exits_without_close :
  ∃ w, hello_then_stop = Some w ∧
    stop_closed w = Some true ∧
    at_pc w = Exited ∧
    out_closed w = Some false ∧
    trace w = [EvRecv 0 (VStr "Hello"); EvSend 0 (VStr "Hello"); EvExit] ∧
    ∀ chosen, fan_go.task_step chosen w = None.
Proof.
  eexists. split; [reflexivity|]. split_and!; try reflexivity.
Qed.

(** C10, at the failing input: two idle inputs and a closed stop.
    When stop is closed at once, the later fan.go picks the stop case,
    closes the output and ends, while src/fan.go ends on its first probe
    of stop and leaves the output open for good.  When stop is closed
    after the goroutine of src/fan.go has entered [reflect.Select],
    whose cases are the inputs only, the goroutine is not woken: stop is
    closed, the output is open, and no step exists, whatever case is
    picked. *)
Theorem MakeFanIn_versions_differ :
  (∃ w, stop_first_new = Some w ∧
     at_pc w = Exited ∧ out_closed w = Some true ∧
     trace w = [EvRecvClosed 2; EvClose 0; EvExit]) ∧
  (∃ w, stop_first_old = Some w ∧
     at_pc w = Exited ∧ out_closed w = Some false ∧
     trace w = [EvExit] ∧
     ∀ chosen, fan_go.task_step chosen w = None) ∧
  (∃ w, idle_then_stop = Some w ∧
     stop_closed w = Some true ∧ at_pc w = AtSelect ∧
     out_closed w = Some false ∧ trace w = [] ∧
     ∀ chosen, fan_go.task_step chosen w = None).
Proof.
  split_and!; eexists; (split; [reflexivity|]); split_and!; try reflexivity.
  intros [|[|n]]; reflexivity.
Qed.

End FanInClaims.

(* ===================================================================== *)
(** * MakeFanOut: the broadcast invariant                                 *)
(* ===================================================================== *)

Module FanOutClaims.
Import Go chops Sched fan Broadcast Scenario ProbeFacts.

(** A consumer's receive on an output keeps the output's state. *)
Lemma out_state_env_recv done l j c p :
  out_state done l j c → out_state done l j (env_hstep (EnvRecv p) c).
Proof.
  intros (Hd & Hc & Hs & Hq). unfold delivered in Hd. simpl. unfold hrecv. rewrite Hs.
  destruct (buf c) as [|b bs] eqn:Hb.
  - destruct (closed c) eqn:Hcl.
    + unfold out_state, delivered. by rewrite Hb, Hcl, Hs.
    + unfold out_state, delivered, park_recv. simpl. rewrite Hb.
      split_and!; [done|congruence|done..].
  - unfold out_state, delivered. simpl. rewrite <-app_assoc. simpl.
    split_and!; [done..|]. intros Hr. specialize (Hq Hr). done.
Qed.

(** A send or a close by another goroutine on the input keeps what the
    input has handed out, and parks no receiver. *)
Lemma input_env_step a c :
  (∀ p, a ≠ EnvRecv p) → recvq c = 0 →
  recvq (env_hstep a c) = 0 ∧ taken (env_hstep a c) = taken c.
Proof.
  intros Ha Hq. destruct a as [p x|p|p]; simpl.
  - unfold hsend. rewrite Hq. destruct (closed c); [done|].
    by destruct (length (buf c) <? dataqsiz c).
  - by destruct (Ha p).
  - unfold hclose. by destruct (closed c).
Qed.

(** The send of the current item to output [j]. *)
Lemma out_state_send done x j c :
  out_state done (BSend x j) j c →
  match hsend c x with
  | Done c' => out_state done (BSend x (S j)) j c'
  | WouldBlock => True
  | Panics _ => False
  end.
Proof.
  intros (Hd & Hc & Hs & Hq). unfold delivered in Hd. simpl in Hd, Hc.
  rewrite bool_decide_eq_false_2 in Hd by lia.
  unfold hsend. rewrite Hc. destruct (recvq c) as [|r] eqn:Hr.
  - destruct (length (buf c) <? dataqsiz c); [|done].
    unfold out_state, delivered. simpl.
    rewrite bool_decide_eq_true_2 by lia.
    rewrite app_assoc, Hd, app_nil_r. split_and!; [done..|lia].
  - unfold out_state, delivered. simpl.
    rewrite bool_decide_eq_true_2 by lia.
    rewrite Hq in * by lia. rewrite !app_nil_r in *. rewrite Hd.
    split_and!; done.
Qed.

(** The close of output [j]. *)
Lemma out_state_close done j c :
  out_state done (BClose j) j c →
  ∃ c', hclose c = Done c' ∧ out_state done (BClose (S j)) j c'.
Proof.
  intros (Hd & Hc & Hs & Hq). unfold delivered in Hd. simpl in Hd, Hc.
  rewrite bool_decide_eq_false_2 in Hc by lia.
  unfold hclose. rewrite Hc. eexists. split; [done|].
  unfold out_state, delivered. simpl. rewrite bool_decide_eq_true_2 by lia.
  split_and!; [done..|lia].
Qed.

(** Moving the goroutine does not change what the other outputs show. *)
Lemma out_state_other done l l' j c :
  has_current l j = has_current l' j → current l = current l' ∨ has_current l j = false →
  closed_by l j = closed_by l' j →
  out_state done l j c → out_state done l' j c.
Proof.
  intros Hh Hcur Hcl (Hd & Hc & Hs & Hq). unfold out_state.
  rewrite <-Hh, <-Hcl. split_and!; [|done..].
  rewrite Hd. destruct Hcur as [->| ->]; done.
Qed.


Local Ltac flag :=
  first [ done
        | by rewrite bool_decide_eq_false_2 by lia
        | by rewrite bool_decide_eq_true_2 by lia
        | apply bool_decide_ext; lia ].

Lemma sends_S x j : sends x (S j) = sends x j ++ [EvSend j x].
Proof. unfold sends. by rewrite seq_S, fmap_app. Qed.

Lemma closes_S j : closes (S j) = closes j ++ [EvClose j].
Proof. unfold closes. by rewrite seq_S, fmap_app. Qed.

(** The invariant under a step of a bdisciplined goroutine. *)
Lemma binv_env n base in0 done w e :
  binv n base in0 done w → bdisciplined w (Env e) →
  binv n base in0 done
    (mkB (env_step e (bchans w)) (input w) (outs w) (bat w) (btrace w)).
Proof.
  intros (Ho & Hlen & Htr & Hpc & Houts & Hin) Hd.
  split_and!; simpl; [done|by rewrite env_step_length|done|done| |].
  - intros j Hj. destruct (Houts j Hj) as (c & Hc & Hst).
    rewrite env_step_lookup, Hc. case_decide as He; [|by exists c].
    exists (env_hstep e c). split; [done|].
    assert (base + j ∈ outs w) as Hel by (rewrite Ho; apply elem_of_seq; lia).
    destruct e as [p x|p|p]; simpl in He, Hd; subst p; [done| |done].
    by apply out_state_env_recv.
  - intros p Hp. destruct (Hin p Hp) as (Hlt & c & Hc & Hq & Ht).
    split; [done|]. rewrite env_step_lookup, Hc.
    case_decide as He; [|by exists c].
    exists (env_hstep e c). split; [done|].
    destruct (input_env_step e c) as [Hq' Ht']; [|done|by rewrite Ht'].
    intros p' ->. simpl in He, Hd. congruence.
Qed.

(** The invariant under a step of the broadcasting goroutine. *)
Lemma binv_task n base in0 done w w' :
  binv n base in0 done w → bcast_step w = Some w' →
  binv n base in0 (done ++ finished n (bat w)) w'.
Proof.
  intros (Ho & Hlen & Htr & Hpc & Houts & Hin). unfold bcast_step.
  destruct (bat w) as [|x j|j| |r] eqn:Hat; [| | |done..].
  - (* receive from the input *)
    destruct (cv_ptr (input w)) as [p|] eqn:Hp; [|done].
    destruct (Hin p eq_refl) as (Hlt & c & Hc & Hq & Ht).
    rewrite (chanrecv_live _ _ _ Hc).
    destruct (hrecv c) as [[[x|] c']| |] eqn:E; [| |done..]; intros [= <-]; simpl; rewrite app_nil_r.
    + apply hrecv_some in E as [Ht' Hq'].
      split_and!; simpl; [done|by rewrite length_insert| |lia| |].
      * rewrite Htr. simpl. by rewrite app_nil_r.
      * intros j Hj. destruct (Houts j Hj) as (co & Hco & Hst).
        exists co. rewrite list_lookup_insert_ne by lia. split; [done|].
        eapply out_state_other; [..|done]; simpl; [|by right|done].
        flag.
      * intros p' Hp'. rewrite Hp in Hp'. simplify_eq. split; [done|].
        exists c'. rewrite list_lookup_insert_eq by (by eapply lookup_lt_Some).
        split_and!; [done|congruence|]. rewrite Ht', Ht. simpl.
        by rewrite app_nil_r, app_assoc.
    + apply hrecv_none in E as (_ & _ & ->).
      split_and!; simpl; [done|by rewrite length_insert| |lia| |].
      * rewrite Htr. simpl. by rewrite app_nil_r.
      * intros j Hj. destruct (Houts j Hj) as (co & Hco & Hst).
        exists co. rewrite list_lookup_insert_ne by lia. split; [done|].
        eapply out_state_other; [..|done]; simpl; [done|by left|].
        flag.
      * intros p' Hp'. rewrite Hp in Hp'. simplify_eq. split; [done|].
        exists c. rewrite list_lookup_insert_eq by (by eapply lookup_lt_Some).
        done.
  - (* send the current item to output j, or start the next round *)
    simpl in Hpc. destruct (decide (j < n)) as [Hj|Hj].
    + rewrite Ho, lookup_seq_lt by done.
      destruct (Houts j Hj) as (c & Hc & Hst).
      rewrite (chansend_live _ _ _ _ Hc).
      pose proof (out_state_send _ _ _ _ Hst) as Hsend.
      destruct (hsend c x) as [c'| |] eqn:E; [|done..]. intros [= <-].
      simpl. rewrite decide_False, app_nil_r by lia.
      split_and!; simpl; [done|by rewrite length_insert| |lia| |].
      * rewrite Htr. simpl. by rewrite sends_S, <-app_assoc.
      * intros j' Hj'. destruct (decide (j' = j)) as [->|Hne].
        -- exists c'. rewrite list_lookup_insert_eq by (by eapply lookup_lt_Some). done.
        -- destruct (Houts j' Hj') as (co & Hco & Hst').
           exists co. rewrite list_lookup_insert_ne by lia. split; [done|].
           eapply out_state_other; [..|done]; simpl; [|by left|done].
           flag.
      * intros p Hp. destruct (Hin p Hp) as (Hlt & ci & Hci & Hq & Ht).
        split; [done|]. exists ci. rewrite list_lookup_insert_ne by lia. done.
    + assert (j = n) as -> by lia.
      rewrite Ho, lookup_seq_ge by done. intros [= <-].
      simpl. rewrite decide_True by done.
      split_and!; simpl; [done|done| |done| |].
      * rewrite Htr. simpl. rewrite fmap_app, concat_app. simpl.
        by rewrite !app_nil_r.
      * intros j' Hj'. destruct (Houts j' Hj') as (co & Hco & (Hd & Hcl & Hs & Hq)).
        exists co. split; [done|]. split_and!; [|done..].
        rewrite Hd. simpl. rewrite bool_decide_eq_true_2 by done. by rewrite app_nil_r.
      * intros p Hp. destruct (Hin p Hp) as (Hlt & ci & Hci & Hq & Ht).
        split; [done|]. exists ci. split_and!; [done..|].
        rewrite Ht. simpl. by rewrite app_nil_r.
  - (* close output j, or return *)
    simpl in Hpc. destruct (decide (j < n)) as [Hj|Hj].
    + rewrite Ho, lookup_seq_lt by done.
      destruct (Houts j Hj) as (c & Hc & Hst).
      rewrite (closechan_live _ _ _ Hc).
      destruct (out_state_close _ _ _ Hst) as (c' & -> & Hst').
      intros [= <-]. simpl. rewrite app_nil_r.
      split_and!; simpl; [done|by rewrite length_insert| |lia| |].
      * rewrite Htr. simpl. by rewrite closes_S, <-app_assoc.
      * intros j' Hj'. destruct (decide (j' = j)) as [->|Hne].
        -- exists c'. rewrite list_lookup_insert_eq by (by eapply lookup_lt_Some). done.
        -- destruct (Houts j' Hj') as (co & Hco & Hst'').
           exists co. rewrite list_lookup_insert_ne by lia. split; [done|].
           eapply out_state_other; [..|done]; simpl; [done|by left|].
           flag.
      * intros p Hp. destruct (Hin p Hp) as (Hlt & ci & Hci & Hq & Ht).
        split; [done|]. exists ci. rewrite list_lookup_insert_ne by lia. done.
    + assert (j = n) as -> by lia.
      rewrite Ho, lookup_seq_ge by done. intros [= <-]. simpl. rewrite app_nil_r.
      split_and!; simpl; [done|done| |done| |].
      * rewrite Htr. simpl. by rewrite <-app_assoc.
      * intros j' Hj'. destruct (Houts j' Hj') as (co & Hco & Hst).
        exists co. split; [done|].
        eapply out_state_other; [..|done]; simpl; [done|by left|].
        flag.
      * done.
Qed.


Lemma bstep_frame a w w' :
  bstep a w = Some w' → input w' = input w ∧ outs w' = outs w.
Proof.
  destruct a as [chosen|e]; simpl; [|by intros [= <-]].
  unfold bcast_step. destruct (bat w); [| | |done..].
  - destruct (chanrecv _ _) as [[[x|] σ']| |]; [| |done..]; by intros [= <-].
  - destruct (outs w !! j); [|by intros [= <-]].
    destruct (chansend _ _ _); [|done|]; by intros [= <-].
  - destruct (outs w !! j); [|by intros [= <-]].
    destruct (closechan _ _); [|done|]; by intros [= <-].
Qed.

Lemma bdisciplined_frame w w' a :
  input w' = input w → outs w' = outs w → bdisciplined w a → bdisciplined w' a.
Proof. intros Hi Ho. destruct a as [|[]]; simpl; by rewrite ?Hi, ?Ho. Qed.

(** The invariant along a bdisciplined schedule. *)
Lemma binv_run n base in0 acts :
  ∀ done w w', binv n base in0 done w → Forall (bdisciplined w) acts →
    brun acts w = Some w' → ∃ done', binv n base in0 done' w'.
Proof.
  induction acts as [|a acts IH]; intros done w w' Hinv Hd Hrun; simpl in Hrun.
  - simplify_eq. by exists done.
  - destruct (bstep a w) as [w1|] eqn:Hs; [|done]. simpl in Hrun.
    apply Forall_cons in Hd as [Ha Hd].
    destruct (bstep_frame _ _ _ Hs) as [Hi Ho].
    assert (Forall (bdisciplined w1) acts) as Hd1.
    { eapply Forall_impl; [done|]. intros b. by apply bdisciplined_frame. }
    destruct a as [chosen|e]; simpl in Hs.
    + eapply IH; [|done..]. by eapply binv_task.
    + simplify_eq. eapply IH; [|done..]. by eapply binv_env.
Qed.

(** From [BClose j] the goroutine closes the remaining outputs and
    returns, without waiting for anyone. *)
Lemma close_all n base in0 done k :
  ∀ w j, binv n base in0 done w → bat w = BClose j → j + k = n →
    ∃ w', brun (replicate (S k) (Task 0)) w = Some w' ∧ bat w' = BExited ∧
          binv n base in0 done w'.
Proof.
  induction k as [|k IH]; intros w j Hinv Hat Hj.
  - assert (j = n) as -> by lia.
    destruct Hinv as (Ho & Hlen & Htr & Hpc & Houts & Hin).
    assert (bcast_step w = Some (bgoto w (bchans w) BExited [EvExit])) as Hs.
    { unfold bcast_step. by rewrite Hat, Ho, lookup_seq_ge. }
    eexists. simpl. rewrite Hs. simpl. split; [done|]. split; [done|].
    pose proof (binv_task n base in0 done w _
                  (conj Ho (conj Hlen (conj Htr (conj Hpc (conj Houts Hin))))) Hs) as H'.
    rewrite Hat in H'. simpl in H'. by rewrite app_nil_r in H'.
  - destruct Hinv as (Ho & Hlen & Htr & Hpc & Houts & Hin).
    destruct (Houts j ltac:(lia)) as (c & Hc & Hst). rewrite Hat in Hst.
    destruct (out_state_close _ _ _ Hst) as (c' & Hcl & _).
    assert (bcast_step w
            = Some (bgoto w (<[base + j := c']> (bchans w)) (BClose (S j)) [EvClose j])) as Hs.
    { unfold bcast_step. rewrite Hat, Ho, lookup_seq_lt by lia.
      by rewrite (closechan_live _ _ _ Hc), Hcl. }
    pose proof (binv_task n base in0 done w _
                  (conj Ho (conj Hlen (conj Htr (conj Hpc (conj Houts Hin))))) Hs) as H'.
    rewrite Hat in H'. simpl in H'. rewrite app_nil_r in H'.
    destruct (IH _ (S j) H' eq_refl ltac:(lia)) as (w' & Hrun & Hat' & Hinv').
    exists w'. split; [|done].
    change (replicate (S (S k)) (Task 0)) with (Task 0 :: replicate (S k) (Task 0)).
    simpl. rewrite Hs. done.
Qed.


(** The session [MakeFanOut] returns for two outputs or more. *)
Lemma MakeFanOut_general n outCap ch (σ : store) w0 :
  (2 ≤ n)%Z → MakeFanOut n outCap ch σ = Ret w0 →
  ∃ t p cap, ch = VChan t p ∧
    w0 = mkB (σ ++ replicate (Z.to_nat n) (newchan cap)) (mkCV t p)
           (seq (length σ) (Z.to_nat n)) BRecv [].
Proof.
  intros Hn. unfold MakeFanOut.
  destruct ch as [| | | |t p]; [done..|]. simpl.
  destruct (Z.eqb_spec n 0); [lia|]. destruct (Z.eqb_spec n 1); [lia|].
  destruct (slice_len_ok n); [|done]. simpl.
  unfold makechan. destruct (chan_size_ok outCap); [|done]. simpl. intros [= <-].
  by eexists _, _, _.
Qed.

Lemma binv_init n outCap ch (σ : store) w0 :
  (2 ≤ n)%Z → sole_receiver ch σ → MakeFanOut n outCap ch σ = Ret w0 →
  binv (Z.to_nat n) (length σ) (taken_before ch σ) [] w0 ∧
  VChan (cv_elem (input w0)) (cv_ptr (input w0)) = ch.
Proof.
  intros Hn Hsole Hmk.
  destruct (MakeFanOut_general _ _ _ _ _ Hn Hmk) as (t & p & cap & -> & ->).
  split; [|done].
  split_and!; simpl; [done|by rewrite length_app, length_replicate|done|done| |].
  - intros j Hj. exists (newchan cap). split; [|done].
    rewrite lookup_app_r by lia.
    apply lookup_replicate_2. lia.
  - intros p' ->. destruct (Hsole t p' eq_refl) as (c & Hc & Hq).
    split; [by eapply lookup_lt_Some|]. exists c.
    rewrite lookup_app_l by (by eapply lookup_lt_Some).
    split_and!; [done..|]. rewrite Hc. simpl. by rewrite app_nil_r.
Qed.

(** ** Progress of the broadcaster *)

(** The receive from an input that offers an item. *)
Lemma take_step w p c x :
  bat w = BRecv → cv_ptr (input w) = Some p → bchans w !! p = Some c →
  offers c x →
  ∃ c', hrecv c = Done (Some x, c') ∧
    bcast_step w = Some (bgoto w (<[p := c']> (bchans w)) (BSend x 0) [EvRecv 0 x]).
Proof.
  intros Hat Hp Hc Hoff.
  assert (∃ c', hrecv c = Done (Some x, c')) as [c' Hr].
  { unfold hrecv. destruct Hoff as [[bs ->]|(-> & -> & ss & ->)].
    - destruct (sendq c); by eexists.
    - by eexists. }
  exists c'. split; [done|].
  unfold bcast_step. by rewrite Hat, Hp, (chanrecv_live _ _ _ Hc), Hr.
Qed.

(** The send of the current item to an output that is ready. *)
Lemma send_step n base in0 done w x j c :
  binv n base in0 done w → bat w = BSend x j → j < n →
  bchans w !! (base + j) = Some c → ready c →
  ∃ c', bcast_step w
          = Some (bgoto w (<[base + j := c']> (bchans w)) (BSend x (S j)) [EvSend j x]) ∧
        delivered c' = delivered c ++ [x].
Proof.
  intros (Ho & Hlen & Htr & Hpc & Houts & Hin) Hat Hj Hc Hready.
  destruct (Houts j Hj) as (c0 & Hc0 & Hd & Hcl & Hsq & Hq).
  rewrite Hc in Hc0. injection Hc0 as <-.
  rewrite Hat in Hcl. simpl in Hcl.
  assert (∃ c', hsend c x = Done c' ∧ delivered c' = delivered c ++ [x])
    as (c' & Hs & Hdel).
  { unfold hsend, delivered. rewrite Hcl. destruct (recvq c) as [|r] eqn:Hr.
    - destruct Hready as [|Hroom]; [lia|]. apply Nat.ltb_lt in Hroom. rewrite Hroom.
      eexists. split; [done|]. simpl. by rewrite app_assoc.
    - eexists. split; [done|]. simpl. rewrite Hq by lia. by rewrite !app_nil_r. }
  exists c'. split; [|done].
  unfold bcast_step. rewrite Hat, Ho, lookup_seq_lt by done.
  by rewrite (chansend_live _ _ _ _ Hc), Hs.
Qed.

(** From [BSend x j], with the outputs from [j] on ready, the goroutine
    sends the item to each of them in turn and comes back to its
    receive, without waiting for anyone.  The channels below the outputs
    and the outputs before [j] are left as they are. *)
Lemma send_rest n base in0 x k :
  ∀ done w j, binv n base in0 done w → bat w = BSend x j → j + k = n →
    (∀ j', j ≤ j' → j' < n → ∃ c, bchans w !! (base + j') = Some c ∧ ready c) →
    ∃ w', brun (replicate (S k) (Task 0)) w = Some w' ∧ bat w' = BRecv ∧
      btrace w' = btrace w ++ ((λ i, EvSend i x) <$> seq j k) ∧
      (∀ q, q < base + j → bchans w' !! q = bchans w !! q) ∧
      (∀ j' c, j ≤ j' → j' < n → bchans w !! (base + j') = Some c →
         ∃ c', bchans w' !! (base + j') = Some c' ∧ delivered c' = delivered c ++ [x]).
Proof.
  induction k as [|k IH]; intros done w j Hinv Hat Hj Hready.
  - assert (j = n) as -> by lia.
    pose proof Hinv as (Ho & _).
    assert (bcast_step w = Some (bgoto w (bchans w) BRecv [])) as Hs.
    { unfold bcast_step. by rewrite Hat, Ho, lookup_seq_ge. }
    eexists. simpl. rewrite Hs. simpl. split; [done|]. split; [done|].
    split; [done|]. split; [done|]. intros j' c Hj1 Hj2. lia.
  - destruct (Hready j ltac:(lia) ltac:(lia)) as (c & Hc & Hrc).
    destruct (send_step _ _ _ _ _ _ _ _ Hinv Hat ltac:(lia) Hc Hrc) as (c' & Hs & Hdel).
    pose proof (binv_task _ _ _ _ _ _ Hinv Hs) as Hinv1.
    assert (base + j < length (bchans w)) as Hlt by (by eapply lookup_lt_Some).
    destruct (IH _ _ (S j) Hinv1 eq_refl ltac:(lia))
      as (w' & Hrun & Hat' & Htr' & Hlow & Hup).
    { intros j' Hj1 Hj2. destruct (Hready j' ltac:(lia) Hj2) as (cj & Hcj & Hrj).
      exists cj. simpl. by rewrite list_lookup_insert_ne by lia. }
    exists w'. split_and!.
    + change (replicate (S (S k)) (Task 0)) with (Task 0 :: replicate (S k) (Task 0)).
      simpl. rewrite Hs. done.
    + done.
    + rewrite Htr'. simpl. by rewrite <- app_assoc.
    + intros q Hq. rewrite Hlow by lia. simpl.
      by rewrite list_lookup_insert_ne by lia.
    + intros j' cj Hj1 Hj2 Hcj. destruct (decide (j' = j)) as [->|Hne].
      * rewrite Hc in Hcj. injection Hcj as <-.
        exists c'. split; [|done]. rewrite Hlow by lia. simpl.
        by apply list_lookup_insert_eq.
      * apply (Hup j' cj); [lia|done|]. simpl.
        by rewrite list_lookup_insert_ne by lia.
Qed.

(** A whole round: from its receive, with an item on offer and every
    output ready, the goroutine takes the item, sends it to every output
    in order and is back at its receive after [n + 2] steps of its own. *)
Lemma whole_round n base in0 done w p c x :
  binv n base in0 done w → bat w = BRecv →
  cv_ptr (input w) = Some p → bchans w !! p = Some c → offers c x →
  (∀ j, j < n → ∃ co, bchans w !! (base + j) = Some co ∧ ready co) →
  ∃ w', brun (replicate (n + 2) (Task 0)) w = Some w' ∧ bat w' = BRecv ∧
    btrace w' = btrace w ++ round n x ∧
    (∀ j co, j < n → bchans w !! (base + j) = Some co →
       ∃ co', bchans w' !! (base + j) = Some co' ∧ delivered co' = delivered co ++ [x]) ∧
    ∃ c', bchans w' !! p = Some c' ∧ taken c' = taken c ++ [x].
Proof.
  intros Hinv Hat Hp Hc Hoff Hready.
  destruct (take_step _ _ _ _ Hat Hp Hc Hoff) as (c' & Hr & Hs).
  pose proof (binv_task _ _ _ _ _ _ Hinv Hs) as Hinv1.
  pose proof Hinv as (_ & _ & _ & _ & _ & Hin).
  destruct (Hin p Hp) as (Hlt & _).
  assert (p < length (bchans w)) as Hpl by (by eapply lookup_lt_Some).
  destruct (send_rest n base in0 x n _ _ 0 Hinv1 eq_refl eq_refl)
    as (w' & Hrun & Hat' & Htr' & Hlow & Hup).
  { intros j _ Hj. destruct (Hready j Hj) as (co & Hco & Hrc).
    exists co. simpl. by rewrite list_lookup_insert_ne by lia. }
  exists w'. split_and!.
  - replace (n + 2) with (S (S n)) by lia.
    change (replicate (S (S n)) (Task 0)) with (Task 0 :: replicate (S n) (Task 0)).
    simpl. rewrite Hs. done.
  - done.
  - rewrite Htr'. simpl. by rewrite <- app_assoc.
  - intros j co Hj Hco. apply (Hup j co); [lia|done|]. simpl.
    by rewrite list_lookup_insert_ne by lia.
  - exists c'. split.
    + rewrite Hlow by lia. simpl. by apply list_lookup_insert_eq.
    + by apply hrecv_some in Hr as [-> _].
Qed.

(** C3. A broadcast session with [n >= 2] outputs, in a program where
    the outputs are only received from and the broadcaster is the only
    receiver on the input.  After any schedule:
    - the goroutine's history is a sequence of whole rounds, one per item
      received, each made of the receive followed by one send to every
      output in order, followed by the round in progress: the next item
      is received only after all [n] sends of the current one;
    - every output has been given exactly the broadcast items, in the
      order in which the input handed them out, plus the current item if
      its turn has come; it is closed only by the goroutine, after the
      input reported closed, and each output is closed once;
    - the goroutine has not panicked;
    - when the goroutine is about to receive and the input is closed and
      drained, [n + 2] steps of the goroutine, none of which has to wait,
      close every output once, in order, and end the goroutine;
    - the goroutine makes progress: at its receive, an input that offers
      an item lets it take that item; holding an item for output [j], an
      output [j] that is ready (a consumer waits, or the buffer has room)
      lets it send the item there, and only there; after the last
      output it goes back to its receive;
    - a whole round: at its receive, with an item on offer and every
      output ready, [n + 2] steps of the goroutine alone take the item
      from the input, put it into every output, in order, and bring the
      goroutine back to its receive. *)
Theorem MakeFanOut_broadcasts (n outCap : Z) (ch : value) (σ : store)
    (w0 w : bworld) (acts : list action) :
  (2 ≤ n)%Z →
  sole_receiver ch σ →
  MakeFanOut n outCap ch σ = Ret w0 →
  Forall (bdisciplined w0) acts →
  brun acts w0 = Some w →
  ∃ done : list value,
    btrace w = concat (round (Z.to_nat n) <$> done) ++ in_progress (Z.to_nat n) (bat w) ∧
    length (outs w) = Z.to_nat n ∧
    (∀ j o, outs w !! j = Some o →
       ∃ c, bchans w !! o = Some c ∧
            delivered c = done ++ (if has_current (bat w) j then current (bat w) else []) ∧
            closed c = closed_by (bat w) j) ∧
    (∀ p, cv_ptr (input w) = Some p →
       ∃ c, bchans w !! p = Some c ∧
            taken c = taken_before ch σ ++ done ++ current (bat w)) ∧
    (∀ r, bat w ≠ BCrashed r) ∧
    (bat w = BRecv →
     (∃ σ', chanrecv (cv_ptr (input w)) (bchans w) = Done (None, σ')) →
     ∃ w', brun (replicate (Z.to_nat n + 2) (Task 0)) w = Some w' ∧
           bat w' = BExited ∧
           btrace w' = btrace w ++ EvRecvClosed 0 :: closes (Z.to_nat n) ++ [EvExit] ∧
           ∀ j o, outs w' !! j = Some o → closed <$> bchans w' !! o = Some true) ∧
    (∀ p c x, bat w = BRecv → cv_ptr (input w) = Some p → bchans w !! p = Some c →
       offers c x →
       ∃ w' c', bcast_step w = Some w' ∧ bat w' = BSend x 0 ∧
                btrace w' = btrace w ++ [EvRecv 0 x] ∧
                bchans w' = <[p := c']> (bchans w) ∧ taken c' = taken c ++ [x]) ∧
    (∀ x j o c, bat w = BSend x j → outs w !! j = Some o → bchans w !! o = Some c →
       ready c →
       ∃ w' c', bcast_step w = Some w' ∧ bat w' = BSend x (S j) ∧
                btrace w' = btrace w ++ [EvSend j x] ∧
                bchans w' = <[o := c']> (bchans w) ∧
                delivered c' = delivered c ++ [x]) ∧
    (∀ x, bat w = BSend x (Z.to_nat n) →
       ∃ w', bcast_step w = Some w' ∧ bat w' = BRecv ∧
             btrace w' = btrace w ∧ bchans w' = bchans w) ∧
    (∀ p c x, bat w = BRecv → cv_ptr (input w) = Some p → bchans w !! p = Some c →
       offers c x →
       (∀ j o, outs w !! j = Some o → ∃ co, bchans w !! o = Some co ∧ ready co) →
       ∃ w', brun (replicate (Z.to_nat n + 2) (Task 0)) w = Some w' ∧
             bat w' = BRecv ∧
             btrace w' = btrace w ++ round (Z.to_nat n) x ∧
             (∀ j o co, outs w !! j = Some o → bchans w !! o = Some co →
                ∃ co', bchans w' !! o = Some co' ∧
                       delivered co' = delivered co ++ [x]) ∧
             ∃ c', bchans w' !! p = Some c' ∧ taken c' = taken c ++ [x]).
Proof.
  intros Hn Hsole Hmk Hd Hrun.
  destruct (binv_init _ _ _ _ _ Hn Hsole Hmk) as [Hinit _].
  destruct (binv_run _ _ _ _ _ _ _ Hinit Hd Hrun) as (done & Hinv).
  exists done. pose proof Hinv as (Ho & Hlen & Htr & Hpc & Houts & Hin).
  split_and!; [done|by rewrite Ho, length_seq| | | | | | | |].
  - intros j o Hj. rewrite Ho in Hj. apply lookup_seq in Hj as [-> Hj].
    destruct (Houts j Hj) as (c & Hc & Hdel & Hcl & _). by exists c.
  - intros p Hp. destruct (Hin p Hp) as (_ & c & Hc & _ & Ht). by exists c.
  - intros r Hr. by rewrite Hr in Hpc.
  - intros Hat [σ' Hrecv].
    assert (bcast_step w = Some (bgoto w σ' (BClose 0) [EvRecvClosed 0])) as Hs.
    { unfold bcast_step. by rewrite Hat, Hrecv. }
    pose proof (binv_task _ _ _ _ _ _ Hinv Hs) as Hinv1.
    rewrite Hat in Hinv1. simpl in Hinv1. rewrite app_nil_r in Hinv1.
    destruct (close_all _ _ _ _ (Z.to_nat n) _ 0 Hinv1 eq_refl eq_refl)
      as (w' & Hrun' & Hat' & Hinv').
    exists w'. split_and!; [|done| |].
    + rewrite Nat.add_comm. simpl. rewrite Hs. done.
    + destruct Hinv' as (_ & _ & -> & _). rewrite Htr, Hat, Hat'. simpl.
      by rewrite app_nil_r.
    + destruct Hinv' as (Ho' & _ & _ & _ & Houts' & _).
      intros j o Hj. rewrite Ho' in Hj. apply lookup_seq in Hj as [-> Hj].
      destruct (Houts' j Hj) as (c & -> & _ & Hcl & _). simpl.
      by rewrite Hcl, Hat'.
  - intros p c x Hat Hp Hc Hoff.
    destruct (take_step _ _ _ _ Hat Hp Hc Hoff) as (c' & Hr & Hs).
    eexists _, c'. split; [exact Hs|]. split_and!; [done..|].
    by apply hrecv_some in Hr as [-> _].
  - intros x j o c Hat Hj Hc Hready.
    rewrite Ho in Hj. apply lookup_seq in Hj as [-> Hj].
    destruct (send_step _ _ _ _ _ _ _ _ Hinv Hat Hj Hc Hready) as (c' & Hs & Hdel).
    eexists _, c'. split; [exact Hs|]. by split_and!.
  - intros x Hat. exists (bgoto w (bchans w) BRecv []). split_and!; [|done| |done].
    + unfold bcast_step. by rewrite Hat, Ho, lookup_seq_ge.
    + simpl. by rewrite app_nil_r.
  - intros p c x Hat Hp Hc Hoff Hready.
    destruct (whole_round _ _ _ _ _ _ _ _ Hinv Hat Hp Hc Hoff)
      as (w' & Hrun' & Hat' & Htr' & Hup & Hin').
    { intros j Hj. apply (Hready j). rewrite Ho. by apply lookup_seq_lt. }
    exists w'. split_and!; [done..| |done].
    intros j o co Hj Hco. rewrite Ho in Hj. apply lookup_seq in Hj as [-> Hj].
    by apply Hup.
Qed.

Lemma MakeFanOut_broadcasts_witness :
  (2 ≤ 2)%Z ∧
  sole_receiver (VChan TString (Some 0)) two_blocking_store ∧
  MakeFanOut 2 0 (VChan TString (Some 0)) two_blocking_store = Ret two_blocking_start ∧
  Forall (bdisciplined two_blocking_start) two_blocking_sched ∧
  brun two_blocking_sched two_blocking_start = Some two_blocking_end ∧
  ∃ done : list value,
    btrace two_blocking_end
      = concat (round 2 <$> done) ++ in_progress 2 (bat two_blocking_end) ∧
    ∀ j o, outs two_blocking_end !! j = Some o →
      ∃ c, bchans two_blocking_end !! o = Some c ∧
           delivered c = done ++ (if has_current (bat two_blocking_end) j
                                  then current (bat two_blocking_end) else []) ∧
           closed c = closed_by (bat two_blocking_end) j.
Proof.
  assert (sole_receiver (VChan TString (Some 0)) two_blocking_store) as Hsole.
  { intros t p [= <- <-]. by exists (newchan 0). }
  assert (Forall (bdisciplined two_blocking_start) two_blocking_sched) as Hd.
  { unfold two_blocking_sched.
    repeat (apply Forall_cons_2; [simpl|]); try apply Forall_nil;
      try done; rewrite !not_elem_of_cons; split_and!; try done; apply not_elem_of_nil. }
  split; [lia|]. split; [exact Hsole|]. split; [reflexivity|].
  split; [exact Hd|]. split; [reflexivity|].
  destruct (MakeFanOut_broadcasts 2 0 (VChan TString (Some 0)) two_blocking_store
              two_blocking_start two_blocking_end two_blocking_sched
              ltac:(lia) Hsole eq_refl Hd eq_refl)
    as (done & Htr & _ & Houts & _).
  exists done. split; [exact Htr|exact Houts].
Defined.

End FanOutClaims.

(* ===================================================================== *)
(** * MakeFanIn: the closed stop and the select                           *)
(* ===================================================================== *)

Module CancelClaims.
Import Go chops Sched Scenario Merge ProbeFacts.

Lemma hrecv_closed_same c y c' : hrecv c = Done (y, c') → closed c' = closed c.
Proof.
  unfold hrecv. destruct (buf c) as [|b bs].
  - destruct (closed c) eqn:Hc; [by intros [= <- <-]|].
    destruct (sendq c); [done|]. by intros [= <- <-].
  - destruct (sendq c); by intros [= <- <-].
Qed.

Lemma out_ok_closed l c c' : closed c' = closed c → out_ok l c → out_ok l c'.
Proof. intros Hc. destruct l; simpl; by rewrite ?Hc. Qed.

(** A channel nobody sends on: a receive only succeeds once it is closed,
    and then leaves it as it is. *)
Lemma hrecv_quiet c :
  buf c = [] → sendq c = [] →
  hrecv c = if closed c then Done (None, c) else WouldBlock.
Proof. intros Hb Hq. unfold hrecv. rewrite Hb, Hq. done. Qed.

Lemma env_hstep_quiet a c :
  (∀ p x, a ≠ EnvSend p x) → buf c = [] → sendq c = [] →
  buf (env_hstep a c) = [] ∧ sendq (env_hstep a c) = [].
Proof.
  intros Ha Hb Hq. destruct a as [p x|p|p]; simpl.
  - by destruct (Ha p x).
  - rewrite hrecv_quiet by done. by destruct (closed c).
  - unfold hclose. by destruct (closed c).
Qed.

Lemma chanrecv_stop (σ : store) s so y σ' :
  σ !! s = Some so → buf so = [] → sendq so = [] →
  chanrecv (Some s) σ = Done (y, σ') → y = None ∧ σ' = σ ∧ closed so = true.
Proof.
  intros Hs Hb Hq. rewrite (chanrecv_live _ _ _ Hs), hrecv_quiet by done.
  destruct (closed so); [|done]. intros [= <- <-]. by rewrite list_insert_id.
Qed.

Lemma chanrecv_stop_closed (σ : store) s so :
  σ !! s = Some so → buf so = [] → sendq so = [] → closed so = true →
  chanrecv (Some s) σ = Done (None, σ).
Proof.
  intros Hs Hb Hq Hc. rewrite (chanrecv_live _ _ _ Hs), hrecv_quiet, Hc by done.
  by rewrite list_insert_id.
Qed.

(** A receive through an input handle leaves the channels above [base]
    alone. *)
Lemma chanrecv_below (σ : store) q base y σ' :
  (∀ p, q = Some p → p < base) →
  chanrecv q σ = Done (y, σ') →
  length σ' = length σ ∧ ∀ i, base ≤ i → σ' !! i = σ !! i.
Proof.
  intros Hq. unfold chanrecv. destruct q as [p|]; simpl; [|done].
  destruct (σ !! p) as [c|]; [|done].
  destruct (hrecv c) as [[y' c']| |]; [|done..]. intros [= <- <-].
  split; [by rewrite length_insert|]. intros i Hi.
  rewrite list_lookup_insert_ne; [done|]. specialize (Hq p eq_refl). lia.
Qed.


Lemma kind_ok_goto base w σ evs l :
  kind_ok base w → kind_ok base (goto w σ (kind w) l evs).
Proof. done. Qed.

(** The invariant under a step of a disciplined goroutine. *)
Lemma finv_env base w e :
  finv base w → disciplined w (Env e) →
  finv base (set_chans w (env_step e (chans w))).
Proof.
  intros (Ho & Hs & Hlen & Hk & (co & Hco & Hok) & (so & Hso & Hb & Hq)) Hd.
  split_and!; simpl; [done|done|by rewrite env_step_length|done| |].
  - rewrite env_step_lookup, Hco. case_decide as He; [|by exists co].
    exists (env_hstep e co). split; [done|].
    destruct e as [p x|p|p]; simpl in He, Hd; [destruct Hd; congruence| |congruence].
    eapply out_ok_closed; [|done]. simpl.
    destruct (hrecv co) as [[y c']| |] eqn:E; [|done..].
    by eapply hrecv_closed_same.
  - rewrite env_step_lookup, Hso. case_decide as He; [|by exists so].
    exists (env_hstep e so). split; [done|].
    apply env_hstep_quiet; [|done..].
    intros p x ->. simpl in He, Hd. destruct Hd. congruence.
Qed.

(** [out <- x] of the later fan.go, while the output is open. *)
Lemma finv_send base w x :
  finv base w → at_pc w = AtSend x →
  ∀ w', fan.send_or_crash x AtSelect w = Some w' → finv base w' ∧ kind w' = kind w.
Proof.
  intros (Ho & Hs & Hlen & Hk & (co & Hco & Hok) & (so & Hso & Hb & Hq)) Hat w'.
  rewrite Hat in Hok. simpl in Hok.
  unfold fan.send_or_crash. rewrite Ho, (chansend_live _ _ _ _ Hco).
  destruct (hsend co x) as [c'| |r] eqn:E; [|done|].
  - intros [= <-]. split; [|done].
    apply hsend_done_open in E as [_ Hc'].
    split_and!; simpl; [done|done|by rewrite length_insert|done| |].
    + exists c'. by rewrite list_lookup_insert_eq by (by eapply lookup_lt_Some).
    + exists so. by rewrite list_lookup_insert_ne by lia.
  - apply hsend_panics in E as [_ E]. congruence.
Qed.

(** [close(out)] at the end of the goroutine, while the output is open. *)
Lemma finv_close base w :
  finv base w → at_pc w = AtClose →
  ∃ w', close_and_exit w = Some w' ∧ finv base w' ∧ at_pc w' = Exited ∧
        kind w' = kind w ∧
        out_closed w' = Some true ∧ trace w' = trace w ++ [EvClose 0; EvExit].
Proof.
  intros (Ho & Hs & Hlen & Hk & (co & Hco & Hok) & (so & Hso & Hb & Hq)) Hat.
  rewrite Hat in Hok. simpl in Hok.
  unfold close_and_exit. rewrite Ho, (closechan_live _ _ _ Hco).
  unfold hclose. rewrite Hok. eexists. split; [done|].
  split_and!; simpl; [|done|done| |done].
  - split_and!; simpl; [done|done|by rewrite length_insert|done| |].
    + eexists. by rewrite list_lookup_insert_eq by (by eapply lookup_lt_Some).
    + exists so. by rewrite list_lookup_insert_ne by lia.
  - unfold out_closed. simpl. rewrite Ho.
    by rewrite list_lookup_insert_eq by (by eapply lookup_lt_Some).
Qed.

(** The select of the single-input path. *)
Lemma finv_fast_select base w chosen ch w' :
  finv base w → kind w = Fast ch → at_pc w = AtSelect →
  fast_select chosen ch w = Some w' → finv base w' ∧ kind w' = kind w.
Proof.
  intros (Ho & Hs & Hlen & Hk & (co & Hco & Hok) & (so & Hso & Hb & Hq)) Hkind Hat.
  rewrite Hat in Hok. simpl in Hok.
  assert (kind_ok base w) as Hk' by done.
  unfold kind_ok in Hk. rewrite Hkind in Hk.
  unfold fast_select. destruct chosen as [|[|chosen]]; [| |done].
  - rewrite Hs.
    destruct (chanrecv (Some (S base)) (chans w)) as [[y σ']| |] eqn:E; [|done..].
    destruct (chanrecv_stop _ _ _ _ _ Hso Hb Hq E) as (-> & -> & Hc).
    intros [= <-]. split; [|done].
    split_and!; simpl; [done..| |]; [by exists co|by exists so].
  - destruct (chanrecv ch (chans w)) as [[y σ']| |] eqn:E; [|done..].
    destruct (chanrecv_below _ _ base _ _ Hk E) as [Hlen' Hsame].
    assert (finv base (goto w σ' (kind w) AtClose [EvRecvClosed 1]) ∧
            ∀ x, finv base (goto w σ' (kind w) (AtSend x) [EvRecv 1 x])) as [H1 H2].
    { split; [|intros x]; (split_and!; simpl; [done|done|congruence|done| |]);
        [exists co|exists so|exists co|exists so]; rewrite Hsame by lia; done. }
    destruct y as [x|]; intros [= <-]; split; done.
Qed.

(** One step of the merging goroutine of the later fan.go. *)
Lemma finv_task base w chosen w' :
  finv base w → fan.task_step chosen w = Some w' → finv base w'.
Proof.
  intros Hinv. unfold fan.task_step.
  destruct (kind w) as [|ch|cases rem] eqn:Hkind; [done| |].
  - unfold fan.fast_step. destruct (at_pc w) eqn:Hat; try done.
    + intros H. by eapply finv_fast_select.
    + intros H. by eapply finv_send.
    + destruct (finv_close _ _ Hinv Hat) as (w2 & -> & Hinv2 & _). by intros [= <-].
  - unfold fan.general_step. destruct (at_pc w) eqn:Hat; try done.
    + pose proof Hinv as (Ho & Hs & Hlen & Hk & (co & Hco & Hok) & (so & Hso & Hb & Hq)).
      rewrite Hat in Hok. simpl in Hok.
      unfold kind_ok in Hk. rewrite Hkind in Hk. destruct Hk as (Hpos & Hlast & Hin).
      unfold reflect_Select.
      destruct (cases !! chosen) as [[v|]|] eqn:Hch; [|done..].
      destruct (chanrecv (cv_ptr v) (chans w)) as [[y σ']| |] eqn:E; [|done..].
      destruct (decide (chosen = length cases - 1)) as [->|Hne].
      * rewrite Hlast in Hch. unfold stop_case in Hch. simplify_eq. simpl in E.
        rewrite Hs in E.
        destruct (chanrecv_stop _ _ _ _ _ Hso Hb Hq E) as (-> & -> & Hc).
        rewrite Nat.eqb_refl. intros [= <-].
        split_and!; simpl; [done..|by rewrite Hkind| |]; [by exists co|by exists so].
      * assert (chosen < length cases - 1) as Hlt.
        { apply lookup_lt_Some in Hch. lia. }
        destruct (chanrecv_below _ _ base _ _ (λ p, Hin _ _ p Hlt Hch) E) as [Hlen' Hsame].
        assert (σ' !! base = Some co) as Hco' by (by rewrite Hsame by lia).
        assert (σ' !! S base = Some so) as Hso' by (by rewrite Hsame by lia).
        destruct y as [x|].
        -- intros [= <-].
           split_and!; simpl; [done|done|congruence|by rewrite Hkind| |];
             [by exists co|by exists so].
        -- rewrite (proj2 (Nat.eqb_neq _ _) Hne).
           destruct (rem =? 1); intros [= <-].
           ++ split_and!; simpl; [done|done|congruence|by rewrite Hkind| |];
                [by exists co|by exists so].
           ++ split_and!; simpl; [done|done|congruence| | |];
                [|by exists co|by exists so].
              unfold kind_ok. simpl. rewrite length_insert.
              split_and!; [done| |].
              ** by rewrite list_lookup_insert_ne.
              ** intros i v' p Hi Hl. destruct (decide (chosen = i)) as [->|Hni].
                 --- rewrite list_lookup_insert_eq in Hl by lia. done.
                 --- rewrite list_lookup_insert_ne in Hl by done. by eapply Hin.
    + intros H. by eapply finv_send.
    + destruct (finv_close _ _ Hinv Hat) as (w2 & -> & Hinv2 & _). by intros [= <-].
Qed.


Lemma assertAll_lookup chs vs :
  assertAll chs = Ret vs →
  ∀ i v, vs !! i = Some v → chs !! i = Some (VChan (cv_elem v) (cv_ptr v)).
Proof.
  revert vs. induction chs as [|c chs IH]; intros vs; simpl.
  - by intros [= <-].
  - destruct c as [| | | |t p]; simpl; try done.
    destruct (assertAll chs) as [vs'|]; simpl; [|done]. intros [= <-].
    intros [|i] v; simpl; [by intros [= <-]|]. by apply IH.
Qed.

(** The session the later fan.go makes for one input or more. *)
Lemma finv_init outCap chs (σ : store) w0 :
  chs ≠ [] → valid_inputs chs σ → fan.MakeFanIn outCap chs σ = Ret w0 →
  finv (length σ) w0 ∧ at_pc w0 = AtSelect ∧ trace w0 = [].
Proof.
  intros Hne Hvalid. unfold fan.MakeFanIn, alloc, makechan.
  destruct chs as [|c1 [|c2 rest]]; [done| |].
  - destruct c1 as [| | | |t p]; try done. destruct t; try done. simpl.
    destruct (chan_size_ok outCap); [|done]. simpl. intros [= <-].
    split; [|done].
    split_and!; simpl; [done|by rewrite length_app; simpl; lia|
                        by rewrite !length_app; simpl; lia| | |].
    + intros p' ->. apply (Hvalid TIface). by apply list_elem_of_singleton.
    + eexists. rewrite <-app_assoc. rewrite lookup_app_r, Nat.sub_diag by done. done.
    + eexists. rewrite lookup_app_r; rewrite length_app; simpl; [|lia].
      replace (S (length σ) - (length σ + 1)) with 0 by lia. done.
  - destruct (chan_size_ok outCap); [|done]. cbn [bind].
    destruct (assertAll (c1 :: c2 :: rest)) as [vs|] eqn:Hall; [|done].
    cbn [bind]. intros [= <-]. split; [|done].
    pose proof (assertAll_lookup _ _ Hall) as Hlk.
    split_and!; simpl; [done|by rewrite length_app; simpl; lia|
                        by rewrite !length_app; simpl; lia| | |].
    + unfold kind_ok. simpl. rewrite length_app, length_fmap. simpl.
      replace (length vs + 1 - 1) with (length vs) by lia.
      split_and!; [lia| |].
      * rewrite lookup_app_r; rewrite length_fmap; [|done].
        rewrite Nat.sub_diag. simpl. unfold stop_case. simpl.
        by rewrite length_app.
      * intros i v p Hi Hl Hp. rewrite lookup_app_l in Hl by (by rewrite length_fmap).
        rewrite list_lookup_fmap in Hl.
        destruct (vs !! i) as [v'|] eqn:Hv; simpl in Hl; [|done]. simplify_eq.
        apply Hlk in Hv. rewrite Hp in Hv.
        eapply Hvalid. by eapply list_elem_of_lookup_2.
    + eexists. rewrite <-app_assoc. rewrite lookup_app_r, Nat.sub_diag by done. done.
    + eexists. rewrite lookup_app_r; rewrite length_app; simpl; [|lia].
      replace (S (length σ) - (length σ + 1)) with 0 by lia. done.
Qed.

(** A step of the goroutine keeps the output and stop handles. *)
Lemma task_step_frame chosen w w' :
  fan.task_step chosen w = Some w' → out w' = out w ∧ stop w' = stop w.
Proof.
  unfold fan.task_step, fan.fast_step, fan.general_step, fast_select,
    fan.send_or_crash, close_and_exit.
  intros H. repeat case_match; by simplify_eq.
Qed.

Lemma fast_step_kind chosen w w' ch :
  kind w = Fast ch → fan.task_step chosen w = Some w' → kind w' = kind w.
Proof.
  unfold fan.task_step, fan.fast_step, fast_select, fan.send_or_crash, close_and_exit.
  intros Hk H. rewrite Hk in H. repeat case_match; by simplify_eq.
Qed.

Lemma disciplined_frame w w' a :
  out w' = out w → stop w' = stop w → disciplined w a → disciplined w' a.
Proof. intros Ho Hs. destruct a as [|[]]; simpl; by rewrite ?Ho, ?Hs. Qed.

Lemma step_frame a w w' :
  fan.step a w = Some w' → out w' = out w ∧ stop w' = stop w.
Proof.
  destruct a as [chosen|e]; simpl; [apply task_step_frame|by intros [= <-]].
Qed.

(** The invariant along a disciplined schedule. *)
Lemma finv_run base acts :
  ∀ w w', finv base w → Forall (disciplined w) acts →
    fan.run acts w = Some w' → finv base w'.
Proof.
  induction acts as [|a acts IH]; intros w w' Hinv Hd Hrun; simpl in Hrun.
  - by simplify_eq.
  - destruct (fan.step a w) as [w1|] eqn:Hs; [|done]. simpl in Hrun.
    apply Forall_cons in Hd as [Ha Hd].
    destruct (step_frame _ _ _ Hs) as [Ho Hst].
    eapply (IH w1); [| |done].
    + destruct a as [chosen|e]; simpl in Hs.
      * by eapply finv_task.
      * simplify_eq. by apply finv_env.
    + eapply Forall_impl; [done|]. intros b. by apply disciplined_frame.
Qed.

(** On the single-input path src/fan.go and the later fan.go take the
    same steps while the output is open. *)
Lemma old_fast_step base w ch chosen :
  finv base w → kind w = Fast ch →
  fan_go.task_step chosen w = fan.task_step chosen w.
Proof.
  intros (Ho & Hs & Hlen & Hk & (co & Hco & Hok) & _) Hkind.
  unfold fan_go.task_step, fan.task_step. rewrite Hkind.
  unfold fan_go.fast_step, fan.fast_step. destruct (at_pc w) eqn:Hat; try done.
  simpl in Hok. unfold fan.send_or_crash.
  rewrite Ho, (chansend_live _ _ _ _ Hco).
  destruct (hsend co x) as [c'| |r] eqn:E; [done..|].
  apply hsend_panics in E as [_ E]. congruence.
Qed.

Lemma old_fast_run base ch acts :
  ∀ w, finv base w → kind w = Fast ch → Forall (disciplined w) acts →
    fan_go.run acts w = fan.run acts w.
Proof.
  induction acts as [|a acts IH]; intros w Hinv Hkind Hd; [done|].
  apply Forall_cons in Hd as [Ha Hd]. simpl.
  assert (fan_go.step a w = fan.step a w) as ->.
  { destruct a as [chosen|e]; simpl; [by eapply old_fast_step|done]. }
  destruct (fan.step a w) as [w1|] eqn:Hs; [|done]. simpl.
  destruct (step_frame _ _ _ Hs) as [Ho Hst].
  apply IH.
  - destruct a as [chosen|e]; simpl in Hs.
    + by eapply finv_task.
    + simplify_eq. by apply finv_env.
  - destruct a as [chosen|e]; simpl in Hs.
    + by rewrite (fast_step_kind _ _ _ _ Hkind Hs).
    + by simplify_eq.
  - eapply Forall_impl; [done|]. intros b. by apply disciplined_frame.
Qed.


(** From the select with stop closed: the stop case, then the close. *)
Lemma stop_case_ready base w :
  finv base w → at_pc w = AtSelect → stop_closed w = Some true →
  ∃ w1 w2, fan.task_step (stop_index w) w = Some w1 ∧ at_pc w1 = AtClose ∧
    chans w1 = chans w ∧ finv base w1 ∧ kind w1 = kind w ∧
    (∀ i, fan.task_step i w1 = Some w2) ∧ at_pc w2 = Exited ∧
    out_closed w2 = Some true ∧
    trace w2 = trace w ++ [EvRecvClosed (stop_index w); EvClose 0; EvExit].
Proof.
  intros Hinv Hat Hstop.
  pose proof Hinv as (Ho & Hs & Hlen & Hk & (co & Hco & Hok) & (so & Hso & Hb & Hq)).
  unfold stop_closed in Hstop. rewrite Hs, Hso in Hstop. simpl in Hstop.
  assert (closed so = true) as Hc by congruence.
  pose proof (chanrecv_stop_closed _ _ _ Hso Hb Hq Hc) as Hrecv.
  assert (fan.task_step (stop_index w) w
          = Some (goto w (chans w) (kind w) AtClose [EvRecvClosed (stop_index w)])) as Hstep.
  { unfold fan.task_step, stop_index, kind_ok in *.
    destruct (kind w) as [|ch|cases rem] eqn:Hkind; [done| |].
    - unfold fan.fast_step, fast_select. by rewrite Hat, Hs, Hrecv, Hkind.
    - destruct Hk as (Hpos & Hlast & _).
      unfold fan.general_step, reflect_Select. rewrite Hat, Hlast. simpl.
      by rewrite Hs, Hrecv, Nat.eqb_refl, Hkind. }
  pose proof (finv_task _ _ _ _ Hinv Hstep) as Hinv1.
  destruct (finv_close _ _ Hinv1 eq_refl) as (w2 & Hcl & _ & Hat2 & _ & Hout & Htr).
  eexists _, w2. split; [exact Hstep|]. split_and!; [done..| |done|done|].
  - intros i. unfold fan.task_step. simpl. unfold kind_ok in Hk.
    destruct (kind w); [done|exact Hcl..].
  - rewrite Htr. simpl. by rewrite <-app_assoc.
Qed.

(** C1 (as amended).  In the later fan.go with one input or more, and
    on the single-input path of src/fan.go, in a program that keeps the
    discipline of the doc comment: whenever the merging goroutine is
    waiting in its select and stop is closed, the goroutine is not
    blocked.  The stop case can be picked whatever the inputs do; when it
    is picked the goroutine goes to [close(out)] without touching any
    channel, and its next step, which waits for nothing, closes the
    output and ends the goroutine. *)
Theorem stop_wakes_select (ver : version) (outCap : Z) (chs : list value)
    (σ : store) (w0 w : world) (acts : list action) :
  (ver = SrcFanGo → length chs = 1) →
  chs ≠ [] →
  valid_inputs chs σ →
  MakeFanIn_of ver outCap chs σ = Ret w0 →
  Forall (disciplined w0) acts →
  run_of ver acts w0 = Some w →
  at_pc w = AtSelect →
  stop_closed w = Some true →
  ∃ w1 w2,
    task_step_of ver (stop_index w) w = Some w1 ∧
    at_pc w1 = AtClose ∧ chans w1 = chans w ∧
    (∀ i, task_step_of ver i w1 = Some w2) ∧
    at_pc w2 = Exited ∧ out_closed w2 = Some true ∧
    trace w2 = trace w ++ [EvRecvClosed (stop_index w); EvClose 0; EvExit].
Proof.
  intros Hver Hne Hvalid Hmk Hd Hrun Hat Hstop.
  assert (fan.MakeFanIn outCap chs σ = Ret w0 ∧ fan.run acts w0 = Some w ∧
          (ver = SrcFanGo → ∃ ch, kind w0 = Fast ch)) as (Hmk' & Hrun' & Hfast).
  { destruct ver; simpl in *; [|done].
    specialize (Hver eq_refl).
    destruct chs as [|c [|c2 rest]]; [done| |done].
    assert (∃ ch, kind w0 = Fast ch) as [ch Hkind].
    { unfold fan_go.MakeFanIn, alloc in Hmk.
      destruct (assertChanIface c); [|done]. simpl in Hmk.
      destruct (makechan outCap); [|done]. simpl in Hmk. simplify_eq. by eexists. }
    split; [done|].
    destruct (finv_init _ _ _ _ Hne Hvalid Hmk) as (Hinv0 & _).
    rewrite <-(old_fast_run _ _ _ _ Hinv0 Hkind Hd). split; [done|]. by exists ch. }
  destruct (finv_init _ _ _ _ Hne Hvalid Hmk') as (Hinv0 & _).
  pose proof (finv_run _ _ _ _ Hinv0 Hd Hrun') as Hinv.
  destruct (stop_case_ready _ _ Hinv Hat Hstop)
    as (w1 & w2 & Hs1 & Hat1 & Hch & Hinv1 & Hk1 & Hs2 & Hat2 & Hout & Htr).
  exists w1, w2.
  assert (∀ i w', (∃ ch, kind w' = Fast ch) ∨ ver = LaterFanGo → finv (length σ) w' →
            task_step_of ver i w' = fan.task_step i w') as Heq.
  { intros i w' Hk' Hinv'. destruct ver; [|done]. simpl.
    destruct Hk' as [[ch Hk']|]; [|done]. by eapply old_fast_step. }
  assert ((∃ ch, kind w = Fast ch) ∨ ver = LaterFanGo) as Hkw.
  { destruct ver; [|by right]. left.
    destruct (Hfast eq_refl) as [ch Hk0]. exists ch.
    clear -Hk0 Hrun'. revert w0 Hk0 Hrun'.
    induction acts as [|a acts IH]; intros w0 Hk0 Hrun'; simpl in Hrun'.
    - by simplify_eq.
    - destruct (fan.step a w0) as [wm|] eqn:Hs; [|done]. simpl in Hrun'.
      eapply (IH wm); [|done].
      destruct a as [chosen|e]; simpl in Hs.
      + by rewrite (fast_step_kind _ _ _ _ Hk0 Hs).
      + by simplify_eq. }
  rewrite Heq by done. split_and!; [done..| |done|done|done].
  intros i. rewrite Heq; [done| |done].
  destruct Hkw as [[ch Hk']|]; [|by right]. left. exists ch. congruence.
Qed.

Lemma stop_wakes_select_witness :
  (SrcFanGo = SrcFanGo → length [VChan TIface (Some 0)] = 1) ∧
  [VChan TIface (Some 0)] ≠ [] ∧
  valid_inputs [VChan TIface (Some 0)] [newchan 0] ∧
  MakeFanIn_of SrcFanGo 0 [VChan TIface (Some 0)] [newchan 0] = Ret one_idle_start ∧
  Forall (disciplined one_idle_start) [Env (EnvClose 2)] ∧
  run_of SrcFanGo [Env (EnvClose 2)] one_idle_start = Some one_idle_stopped ∧
  at_pc one_idle_stopped = AtSelect ∧
  stop_closed one_idle_stopped = Some true ∧
  ∃ w1 w2,
    task_step_of SrcFanGo (stop_index one_idle_stopped) one_idle_stopped = Some w1 ∧
    at_pc w1 = AtClose ∧ chans w1 = chans one_idle_stopped ∧
    (∀ i, task_step_of SrcFanGo i w1 = Some w2) ∧
    at_pc w2 = Exited ∧ out_closed w2 = Some true ∧
    trace w2 = trace one_idle_stopped
               ++ [EvRecvClosed (stop_index one_idle_stopped); EvClose 0; EvExit].
Proof.
  assert (valid_inputs [VChan TIface (Some 0)] [newchan 0]) as Hvalid.
  { intros t p Hin. apply list_elem_of_singleton in Hin. simplify_eq. simpl. lia. }
  assert (Forall (disciplined one_idle_start) [Env (EnvClose 2)]) as Hd.
  { apply Forall_cons_2; [by simpl|apply Forall_nil_2]. }
  split; [reflexivity|]. split; [discriminate|]. split; [exact Hvalid|].
  split; [reflexivity|]. split; [exact Hd|]. split; [reflexivity|].
  split; [reflexivity|]. split; [reflexivity|].
  apply (stop_wakes_select SrcFanGo 0 [VChan TIface (Some 0)] [newchan 0]
           one_idle_start one_idle_stopped [Env (EnvClose 2)]);
    [reflexivity|discriminate|exact Hvalid|reflexivity|exact Hd|reflexivity..].
Defined.

Lemma two_handles_valid : valid_inputs two_handles (two_inputs 0).
Proof.
  intros t p Hin. unfold two_handles in Hin.
  apply elem_of_cons in Hin as [Hin|Hin]; [simplify_eq; simpl; lia|].
  apply list_elem_of_singleton in Hin. simplify_eq. simpl. lia.
Qed.

(** C1 as stated fails in the later fan.go.  When stop is closed while
    an input has an item on offer, the select, which picks among the
    ready cases, may take the input: the goroutine goes on to forward
    the item instead of ending within this wait.  Besides, a goroutine
    that is in [out <- v] when stop is closed has no step until the
    output takes the value: with an unbuffered output that nobody
    receives from, it stays there with stop closed and the output open. *)
Lemma select_picks_input_counterexample :
  (stop_closed ready_and_stopped = Some true ∧
   at_pc ready_and_stopped = AtSelect ∧
   (∃ w', fan.task_step 0 ready_and_stopped = Some w' ∧
          at_pc w' = AtSend (VStr "Hello") ∧ out_closed w' = Some false) ∧
   (∃ w', fan.task_step 2 ready_and_stopped = Some w' ∧ at_pc w' = AtClose)) ∧
  ¬ cancel_within_one_cycle ∧
  (stop_closed send_then_stop = Some true ∧
   at_pc send_then_stop = AtSend (VStr "Hello") ∧
   out_closed send_then_stop = Some false ∧
   ∀ chosen, fan.task_step chosen send_then_stop = None) ∧
  ¬ cancel_never_blocks.
Proof.
  assert (fan.MakeFanIn 0 two_handles (two_inputs 0) = Ret two_idle_start) as Hmk
    by reflexivity.
  assert (∀ sched, sched = ready_and_stopped_sched ∨ sched = send_then_stop_sched →
            Forall (disciplined two_idle_start) (sched two_idle_start)) as Hd.
  { intros sched [->| ->];
      repeat (apply Forall_cons_2; [simpl|]); try apply Forall_nil_2; try done; lia. }
  split; [|split; [|split]].
  - split; [reflexivity|]. split; [reflexivity|].
    split; eexists; repeat split; reflexivity.
  - intros H.
    pose proof (H 0%Z two_handles (two_inputs 0) two_idle_start ready_and_stopped
                  (ready_and_stopped_sched two_idle_start) 0 _
                  ltac:(done) two_handles_valid Hmk (Hd _ (or_introl eq_refl))
                  eq_refl eq_refl eq_refl eq_refl) as Hat.
    discriminate Hat.
  - repeat split; reflexivity.
  - intros H.
    destruct (H 0%Z two_handles (two_inputs 0) two_idle_start send_then_stop
                (send_then_stop_sched two_idle_start)
                ltac:(done) two_handles_valid Hmk (Hd _ (or_intror eq_refl))
                eq_refl eq_refl ltac:(done))
      as (chosen & w' & Hstep).
    vm_compute in Hstep. discriminate.
Qed.

End CancelClaims.

(* ===================================================================== *)
(** * MakeFanIn of the later fan.go: one close, and only for a reason     *)
(* ===================================================================== *)

Module CloseOnce.
Import Go chops Sched Scenario Merge ProbeFacts CancelClaims.

Lemma count_close_app tr tr' :
  count_close (tr ++ tr') = count_close tr + count_close tr'.
Proof.
  induction tr as [|e tr IH]; [done|]. simpl. destruct e; simpl; by rewrite ?IH.
Qed.

(** Distinct live inputs: [dead] misses the chosen case, so it has fewer
    than [K] elements, and when it has [K - 1] it holds all the others. *)
Lemma pigeon (K : nat) (dead : list nat) (c : nat) :
  NoDup dead → (∀ i, i ∈ dead → i < K ∧ i ≠ c) → c < K →
  length dead < K ∧
  (length dead = K - 1 → ∀ i, i < K → i ≠ c → i ∈ dead).
Proof.
  intros Hnd Hin Hc.
  assert (NoDup (c :: dead)) as Hnd'.
  { apply NoDup_cons. split; [|done]. intros Hel. by destruct (Hin c Hel). }
  assert (c :: dead ⊆+ seq 0 K) as Hsub.
  { apply NoDup_submseteq; [done|]. intros i Hi. apply elem_of_seq.
    apply elem_of_cons in Hi as [->|Hi]; [lia|]. destruct (Hin i Hi). lia. }
  pose proof (submseteq_length _ _ Hsub) as Hlen. rewrite length_seq in Hlen.
  simpl in Hlen. split; [lia|]. intros Hfull i Hi Hne.
  assert (c :: dead ≡ₚ seq 0 K) as Hperm.
  { apply submseteq_length_Permutation; [done|]. rewrite length_seq. simpl. lia. }
  assert (i ∈ c :: dead) as Hel.
  { rewrite Hperm. apply elem_of_seq. lia. }
  apply elem_of_cons in Hel as [->|Hel]; done.
Qed.

Lemma assertAll_length chs vs : assertAll chs = Ret vs → length vs = length chs.
Proof.
  revert vs. induction chs as [|c chs IH]; intros vs; simpl.
  - by intros [= <-].
  - destruct c as [| | | |t p]; simpl; try done.
    destruct (assertAll chs) as [vs'|]; simpl; [|done]. intros [= <-].
    simpl. by rewrite (IH vs').
Qed.

Lemma cinv_init outCap chs (σ : store) w0 :
  chs ≠ [] → fan.MakeFanIn outCap chs σ = Ret w0 → cinv (length chs) w0.
Proof.
  intros Hne. unfold fan.MakeFanIn, alloc, makechan.
  destruct chs as [|c1 [|c2 rest]]; [done| |].
  - destruct (assertChanIface c1); [|done]. simpl.
    destruct (chan_size_ok outCap); [|done]. simpl. intros [= <-].
    split_and!; simpl; [done|done|]. by intros [|].
  - destruct (chan_size_ok outCap); [|done]. cbn [bind].
    destruct (assertAll (c1 :: c2 :: rest)) as [vs|] eqn:Hall; [|done].
    cbn [bind]. intros [= <-].
    apply assertAll_length in Hall.
    split_and!; simpl; [|done|by intros [|]].
    unfold cases_ok. simpl. rewrite length_app, length_fmap. simpl.
    split; [simpl in Hall; lia|]. exists []. split_and!; [constructor|done|].
    intros i Hi. by apply elem_of_nil in Hi.
Qed.

Lemma cinv_env K w σ : cinv K w → cinv K (set_chans w σ).
Proof. done. Qed.


Lemma cases_ok_mono K w σ l evs :
  cases_ok K w → cases_ok K (goto w σ (kind w) l evs).
Proof.
  unfold cases_ok. simpl. destruct (kind w) as [|ch|cases rem]; [done..|].
  intros (Hlen & dead & Hnd & Hcount & Hdead). split; [done|].
  exists dead. split_and!; [done..|]. intros i Hi.
  destruct (Hdead i Hi) as (? & ? & ?). split_and!; [done..|].
  apply elem_of_app. by left.
Qed.

Lemma justified_mono w σ l evs :
  close_justified w → close_justified (goto w σ (kind w) l evs).
Proof.
  unfold close_justified, stop_index, input_cases. simpl.
  intros [H|H]; [left|right]; [|intros i Hi]; apply elem_of_app; left; auto.
Qed.

(** A step that keeps the kind of the session. *)
Lemma cinv_goto K w σ l evs :
  cases_ok K w →
  count_close (trace w) + count_close evs
    = (if has_exited (goto w σ (kind w) l evs) then 1 else 0) →
  (l = AtClose ∨ l = Exited → close_justified (goto w σ (kind w) l evs)) →
  cinv K (goto w σ (kind w) l evs).
Proof.
  intros Hc Hn Hj. split_and!; [by apply cases_ok_mono| |done].
  simpl. by rewrite count_close_app.
Qed.

Lemma cinv_send K base w x w' :
  finv base w → cinv K w → at_pc w = AtSend x →
  fan.send_or_crash x AtSelect w = Some w' → cinv K w'.
Proof.
  intros (Ho & Hs & Hlen & Hk & (co & Hco & Hok) & _) (Hc & Hn & Hj) Hat.
  rewrite Hat in Hok. simpl in Hok. unfold has_exited in Hn. rewrite Hat in Hn.
  unfold fan.send_or_crash. rewrite Ho, (chansend_live _ _ _ _ Hco).
  destruct (hsend co x) as [c'| |r] eqn:E; [|done|].
  - intros [= <-]. apply cinv_goto; [done|unfold has_exited; simpl; lia|]. by intros [|].
  - apply hsend_panics in E as [_ E]. congruence.
Qed.

Lemma cinv_close K w w' :
  cinv K w → at_pc w = AtClose → close_and_exit w = Some w' → cinv K w'.
Proof.
  intros (Hc & Hn & Hj) Hat. unfold has_exited in Hn. rewrite Hat in Hn.
  unfold close_and_exit.
  destruct (closechan _ _) as [σ'| |r]; [|done|]; intros [= <-].
  - apply cinv_goto; [done|unfold has_exited; simpl; lia|]. intros _. apply justified_mono. auto.
  - apply cinv_goto; [done|unfold has_exited; simpl; lia|]. by intros [|].
Qed.

(** One step of the merging goroutine of the later fan.go. *)
Lemma cinv_task K base w chosen w' :
  finv base w → cinv K w → fan.task_step chosen w = Some w' → cinv K w'.
Proof.
  intros Hinv Hcinv. pose proof Hcinv as (Hc & Hn & Hj). unfold fan.task_step.
  destruct (kind w) as [|ch|cases rem] eqn:Hkind; [done| |].
  - unfold fan.fast_step. destruct (at_pc w) eqn:Hat; try done.
    + unfold has_exited in Hn. rewrite Hat in Hn.
      unfold fast_select. destruct chosen as [|[|chosen]]; [| |done].
      * destruct Hinv as (_ & Hs & _ & _ & _ & (so & Hso & Hb & Hq)).
        rewrite Hs.
        destruct (chanrecv _ _) as [[y σ']| |] eqn:E; [|done..].
        destruct (chanrecv_stop _ _ _ _ _ Hso Hb Hq E) as (-> & -> & _).
        intros [= <-].
        apply cinv_goto; [done|unfold has_exited; simpl; lia|]. intros _.
        left. unfold stop_index. simpl. rewrite Hkind.
        apply elem_of_app. right. by apply list_elem_of_singleton.
      * destruct (chanrecv _ _) as [[[x|] σ']| |]; [| |done..]; intros [= <-].
        -- apply cinv_goto; [done|unfold has_exited; simpl; lia|]. by intros [|].
        -- apply cinv_goto; [done|unfold has_exited; simpl; lia|]. intros _.
           right. unfold input_cases. simpl. rewrite Hkind.
           intros i Hi. apply list_elem_of_singleton in Hi as ->.
           apply elem_of_app. right. by apply list_elem_of_singleton.
    + intros H. by eapply cinv_send.
    + intros H. by eapply cinv_close.
  - unfold fan.general_step. destruct (at_pc w) eqn:Hat; try done.
    + unfold has_exited in Hn. rewrite Hat in Hn.
      unfold cases_ok in Hc. rewrite Hkind in Hc.
      destruct Hc as (Hlen & dead & Hnd & Hcount & Hdead).
      assert (cases_ok K w) as Hc'.
      { unfold cases_ok. rewrite Hkind. split; [done|]. by exists dead. }
      unfold reflect_Select.
      destruct (cases !! chosen) as [[v|]|] eqn:Hch; [|done..].
      destruct (chanrecv (cv_ptr v) (chans w)) as [[[x|] σ']| |] eqn:E; [| |done..].
      { intros [= <-]. apply cinv_goto; [done|unfold has_exited; simpl; lia|]. by intros [|]. }
      destruct (decide (chosen = length cases - 1)) as [->|Hne].
      { rewrite Nat.eqb_refl. intros [= <-].
        apply cinv_goto; [done|unfold has_exited; simpl; lia|]. intros _.
        left. unfold stop_index. simpl. rewrite Hkind.
        apply elem_of_app. right. by apply list_elem_of_singleton. }
      rewrite (proj2 (Nat.eqb_neq _ _) Hne).
      assert (chosen < K) as Hlt.
      { apply lookup_lt_Some in Hch. lia. }
      destruct (pigeon K dead chosen Hnd) as [Hfew Hall]; [|done|].
      { intros i Hi. destruct (Hdead i Hi) as (? & Hnone & _).
        split; [done|]. intros ->. congruence. }
      destruct (Nat.eqb_spec rem 1) as [->|Hrem]; intros [= <-].
      * apply cinv_goto; [done|unfold has_exited; simpl; lia|]. intros _.
        right. unfold input_cases. simpl. rewrite Hkind, Hlen.
        intros i Hi. apply elem_of_seq in Hi.
        apply elem_of_app. destruct (decide (i = chosen)) as [->|Hi'].
        -- right. by apply list_elem_of_singleton.
        -- left. apply Hdead. apply Hall; [lia|lia|done].
      * split_and!; simpl.
        -- unfold cases_ok. simpl. rewrite length_insert. split; [done|].
           exists (chosen :: dead). split_and!.
           ++ apply NoDup_cons. split; [|done]. intros Hel.
              destruct (Hdead _ Hel) as (_ & Hnone & _). congruence.
           ++ simpl. lia.
           ++ intros i Hi. apply elem_of_cons in Hi as [->|Hi].
              ** split_and!; [done| |].
                 --- apply list_lookup_insert_eq. lia.
                 --- apply elem_of_app. right. by apply list_elem_of_singleton.
              ** destruct (Hdead i Hi) as (Hi1 & Hnone & Hseen).
                 split_and!; [done| |].
                 --- rewrite list_lookup_insert_ne; [done|]. intros ->. congruence.
                 --- apply elem_of_app. by left.
        -- rewrite count_close_app. simpl. unfold has_exited. simpl. lia.
        -- by intros [|].
    + intros H. by eapply cinv_send.
    + intros H. by eapply cinv_close.
Qed.

Lemma cinv_run K base acts :
  ∀ w w', finv base w → cinv K w → Forall (disciplined w) acts →
    fan.run acts w = Some w' → cinv K w'.
Proof.
  induction acts as [|a acts IH]; intros w w' Hinv Hcinv Hd Hrun; simpl in Hrun.
  - by simplify_eq.
  - destruct (fan.step a w) as [w1|] eqn:Hs; [|done]. simpl in Hrun.
    apply Forall_cons in Hd as [Ha Hd].
    destruct (step_frame _ _ _ Hs) as [Ho Hst].
    eapply (IH w1); [| | |done].
    + destruct a as [chosen|e]; simpl in Hs.
      * by eapply finv_task.
      * simplify_eq. by apply finv_env.
    + destruct a as [chosen|e]; simpl in Hs.
      * by eapply cinv_task.
      * by simplify_eq.
    + eapply Forall_impl; [done|]. intros b. by apply disciplined_frame.
Qed.

(** X14. The later fan.go closes the output once, and only for a reason.  In
    a session with one input or more, in a program that keeps the
    discipline of the doc comment, after any schedule: the goroutine has
    not panicked; the output is closed exactly when the goroutine has
    ended; the goroutine has executed [close(out)] once if it has ended
    and never otherwise; and it has ended only after it saw stop closed
    or saw every input closed. *)
Theorem later_fan_closes_once (outCap : Z) (chs : list value) (σ : store)
    (w0 w : world) (acts : list action) :
  chs ≠ [] →
  valid_inputs chs σ →
  fan.MakeFanIn outCap chs σ = Ret w0 →
  Forall (disciplined w0) acts →
  fan.run acts w0 = Some w →
  (∀ r, at_pc w ≠ Crashed r) ∧
  out_closed w = Some (has_exited w) ∧
  count_close (trace w) = (if has_exited w then 1 else 0) ∧
  (has_exited w = true → close_justified w).
Proof.
  intros Hne Hvalid Hmk Hd Hrun.
  destruct (finv_init _ _ _ _ Hne Hvalid Hmk) as (Hinv0 & _).
  pose proof (cinv_init _ _ _ _ Hne Hmk) as Hcinv0.
  pose proof (finv_run _ _ _ _ Hinv0 Hd Hrun) as Hinv.
  destruct (cinv_run _ _ _ _ _ Hinv0 Hcinv0 Hd Hrun) as (_ & Hn & Hj).
  destruct Hinv as (Ho & _ & _ & _ & (co & Hco & Hok) & _).
  split_and!; [| |done|].
  - intros r Hr. by rewrite Hr in Hok.
  - unfold out_closed, has_exited. rewrite Ho, Hco. simpl.
    destruct (at_pc w); simpl in Hok; by rewrite ?Hok.
  - unfold has_exited. intros He. apply Hj. right. by destruct (at_pc w).
Qed.

End CloseOnce.

(* ===================================================================== *)
(** * Where the two versions of MakeFanIn agree                           *)
(* ===================================================================== *)

Module VersionsAgree.
Import Go chops Sched Scenario Merge ProbeFacts CancelClaims.

Lemma no_task_run acts :
  ∀ w, kind w = NoTask → fan_go.run acts w = fan.run acts w.
Proof.
  induction acts as [|a acts IH]; intros w Hk; [done|]. simpl.
  destruct a as [chosen|e]; simpl.
  - unfold fan_go.task_step, fan.task_step. by rewrite Hk.
  - by apply IH.
Qed.

(** X15. With no input or a single input, src/fan.go and the later fan.go
    make the same session and, in a program that keeps the discipline of
    the doc comment, run it alike on every schedule. *)
Theorem versions_agree_upto_one (outCap : Z) (chs : list value) (σ : store)
    (w0 : world) (acts : list action) :
  length chs ≤ 1 →
  valid_inputs chs σ →
  fan.MakeFanIn outCap chs σ = Ret w0 →
  Forall (disciplined w0) acts →
  fan_go.MakeFanIn outCap chs σ = Ret w0 ∧
  fan_go.run acts w0 = fan.run acts w0.
Proof.
  intros Hlen Hvalid Hmk Hd.
  destruct chs as [|c [|c2 rest]]; [| |simpl in Hlen; lia].
  - split; [done|]. apply no_task_run.
    unfold fan.MakeFanIn, alloc in Hmk.
    destruct (closechan (Some (length σ)) (σ ++ [newchan 0])); [|done..].
    by simplify_eq.
  - split; [done|].
    assert ([c] ≠ []) as Hne by done.
    destruct (finv_init _ _ _ _ Hne Hvalid Hmk) as (Hinv0 & _).
    assert (∃ ch, kind w0 = Fast ch) as [ch Hkind].
    { unfold fan.MakeFanIn, alloc in Hmk.
      destruct (assertChanIface c); [|done]. simpl in Hmk.
      destruct (makechan outCap); [|done]. simpl in Hmk. simplify_eq. by eexists. }
    by eapply old_fast_run.
Qed.

End VersionsAgree.

(* ===================================================================== *)
(** * The repository's tests, replayed on the model                       *)
(* ===================================================================== *)

Module RepoTests.
Import Go chops Sched Scenario.

(** TestIsClosed. *)
Example IsClosed_open :
  IsClosed (VChan TUnit (Some 0)) [newchan 0] = Ret false.
Proof. reflexivity. Qed.

Example IsClosed_closed :
  IsClosed (VChan TUnit (Some 0)) (env_step (EnvClose 0) [newchan 0]) = Ret true.
Proof. reflexivity. Qed.

(** TestTryRecv. *)
Example TryRecv_ok :
  (TryRecv (VChan TString (Some 0))
     (env_step (EnvSend 0 (VStr "Hello")) [newchan 1])).1 = Ret (VStr "Hello", Ok).
Proof. reflexivity. Qed.

Example TryRecv_closed :
  (TryRecv (VChan TString (Some 0)) (env_step (EnvClose 0) [newchan 0])).1
  = Ret (VStr "", Closed).
Proof. reflexivity. Qed.

Example TryRecv_blocked :
  (TryRecv (VChan TUnit (Some 0)) [newchan 0]).1 = Ret (VNil, Blocked).
Proof. reflexivity. Qed.

(** TestTrySend. *)
Example TrySend_ok :
  (TrySend (VChan TString (Some 0)) (VStr "Hello") [newchan 1]).1 = Ret Ok.
Proof. reflexivity. Qed.

Example TrySend_closed :
  (TrySend (VChan TString (Some 0)) (VStr "yeet") (env_step (EnvClose 0) [newchan 0])).1
  = Ret Closed.
Proof. reflexivity. Qed.

Example TrySend_blocked :
  (TrySend (VChan TString (Some 0)) (VStr "oof") [newchan 0]).1 = Ret Blocked.
Proof. reflexivity. Qed.

(** TestRecvOr, the two immediate cases: [f] is not called. *)
Example RecvOr_immediate :
  RecvOr 1 (VChan TString (Some 0)) (λ _ s, s)
    (env_step (EnvSend 0 (VStr "Hello")) [newchan 1])
  = Some (Ret (VStr "Hello", true),
          [mkChan 1 [] false 0 [] [VStr "Hello"]], [EvProbe Ok]).
Proof. reflexivity. Qed.

Example RecvOr_closed :
  RecvOr 1 (VChan TUnit (Some 0)) (λ _ s, s) (env_step (EnvClose 0) [newchan 0])
  = Some (Ret (VUnit, false), [mkChan 0 [] true 0 [] []], [EvProbe Closed]).
Proof. reflexivity. Qed.

(** TestRecvOr, "Once, delay": the value arrives while [f] runs. *)
Example RecvOr_delay :
  RecvOr 2 (VChan TString (Some 0)) (λ _, env_step (EnvSend 0 (VStr "Hello")))
    [newchan 0]
  = Some (Ret (VStr "Hello", true),
          [mkChan 0 [] false 0 [] [VStr "Hello"]],
          [EvProbe Blocked; EvCall; EvProbe Ok]).
Proof. reflexivity. Qed.

(** TestSendOr, "Send immediate" and "Send blocked, run f". *)
Example SendOr_immediate :
  SendOr 1 (VChan TString (Some 0)) (VStr "Hello") (λ _ s, (Ret tt, s)) [newchan 1]
  = Some (Ret true, [mkChan 1 [VStr "Hello"] false 0 [] []], [EvProbe Ok]).
Proof. reflexivity. Qed.

Example SendOr_blocked_then_received :
  SendOr 2 (VChan TString (Some 0)) (VStr "Hello")
    (λ _ s, (Ret tt, env_step (EnvRecv 0) s)) [newchan 0]
  = Some (Ret true, [mkChan 0 [] false 0 [] [VStr "Hello"]],
          [EvProbe Blocked; EvCall; EvProbe Ok]).
Proof. reflexivity. Qed.

(** TestMakeFanIn, "Two", on the later fan.go: both items are forwarded
    and the output is closed after the second input is seen closed. *)
Example FanIn_two :
  (λ w, (at_pc w, out_closed w, taken <$> chans w !! out w)) <$>
    session (fan.MakeFanIn 2 two_handles (two_inputs 0)) fan.run
      (λ w, [Env (EnvSend 0 (VStr "Hello")); Task 0; Task 0; Env (EnvClose 0);
             Env (EnvRecv (out w)); Task 0;
             Env (EnvSend 1 (VStr "Goodbye")); Task 1; Task 0; Env (EnvClose 1);
             Env (EnvRecv (out w)); Task 1; Task 0])
  = Some (Exited, Some true, Some [VStr "Hello"; VStr "Goodbye"]).
Proof. reflexivity. Qed.

(** TestMakeFanIn, "Two closed", on the later fan.go: the output is
    closed after stop. *)
Example FanIn_two_closed :
  (λ w, (at_pc w, out_closed w, taken <$> chans w !! out w)) <$>
    session (fan.MakeFanIn 2 two_handles (two_inputs 1)) fan.run
      (λ w, [Env (EnvSend 0 (VStr "Hello")); Env (EnvClose 0); Task 0; Task 0;
             Env (EnvRecv (out w)); Env (EnvClose (stop w)); Task 2; Task 0])
  = Some (Exited, Some true, Some [VStr "Hello"]).
Proof. reflexivity. Qed.

(** Test_MakeFanOut, "Zero" and "Two blocking". *)
Example FanOut_zero :
  fan.MakeFanOut 0 0 (VChan TUnit (Some 0)) [newchan 0]
  = Ret (fan.mkB [newchan 0] (mkCV TUnit (Some 0)) [] fan.BExited []).
Proof. reflexivity. Qed.

Example FanOut_two_blocking :
  fan.brun two_blocking_sched two_blocking_start = Some two_blocking_end ∧
  fan.bat two_blocking_end = fan.BExited ∧
  (taken <$> fan.bchans two_blocking_end) =
    [[VStr "Hello"]; [VStr "Hello"]; [VStr "Hello"]] ∧
  (closed <$> fan.bchans two_blocking_end) = [true; true; true].
Proof. split_and!; reflexivity. Qed.

End RepoTests.

(* ===================================================================== *)
(** * Further properties of the code                                      *)
(* ===================================================================== *)

Module ProbeExtras.
Import Go chops Sched Obs ProbeVocab ProbeFacts MonotoneClaims fan CancelClaims.

(** X1. [TryRecv] on a channel always returns, and what it returns is
    fixed by the state of the channel.  It returns [Ok] with the oldest
    pending item when the buffer is not empty or, on an open channel, a
    sender is parked; the item moves to the receivers' side and the
    other items keep their order.  It returns [Closed] with the zero
    value of the element type when the channel is closed and its buffer
    empty, and [Blocked] with nil when the channel is open with nothing
    pending; in both cases the store is untouched. *)
Theorem TryRecv_status (σ : store) (t : ty) (p : nat) (c : hchan) :
  σ !! p = Some c →
  ∃ x st σ', TryRecv (VChan t (Some p)) σ = (Ret (x, st), σ') ∧
    match st with
    | Ok =>
        (buf c ≠ [] ∨ (closed c = false ∧ sendq c ≠ [])) ∧
        ∃ c', σ' = <[p := c']> σ ∧
          pending c = x :: pending c' ∧ taken c' = taken c ++ [x] ∧
          closed c' = closed c ∧ recvq c' = recvq c ∧ dataqsiz c' = dataqsiz c
    | Closed => closed c = true ∧ buf c = [] ∧ x = zero t ∧ σ' = σ
    | Blocked => closed c = false ∧ pending c = [] ∧ x = VNil ∧ σ' = σ
    end.
Proof.
  intros Hp. rewrite (TryRecv_live _ _ _ _ Hp). unfold hrecv, pending.
  destruct (buf c) as [|b bs] eqn:Hb.
  - destruct (closed c) eqn:Hc.
    + exists (zero t), Closed, σ. by rewrite list_insert_id.
    + destruct (sendq c) as [|s ss] eqn:Hs.
      * by exists VNil, Blocked, σ.
      * eexists s, Ok, _. split; [done|]. split; [by right|].
        eexists. split; [done|]. done.
  - destruct (sendq c) as [|s ss] eqn:Hs.
    + eexists b, Ok, _. split; [done|]. split; [by left|].
      eexists. split; [done|]. simpl. by rewrite !app_nil_r.
    + eexists b, Ok, _. split; [done|]. split; [by left|].
      eexists. split; [done|]. simpl. by rewrite <-app_assoc.
Qed.

Lemma TryRecv_status_witness :
  [mkChan 1 [VStr "Hello"] false 0 [] []] !! 0
    = Some (mkChan 1 [VStr "Hello"] false 0 [] []) ∧
  ∃ x st σ', TryRecv (VChan TString (Some 0)) [mkChan 1 [VStr "Hello"] false 0 [] []]
             = (Ret (x, st), σ') ∧ st ≠ Blocked.
Proof.
  split; [reflexivity|].
  destruct (TryRecv_status [mkChan 1 [VStr "Hello"] false 0 [] []] TString 0
              (mkChan 1 [VStr "Hello"] false 0 [] []) eq_refl)
    as (x & st & σ' & Heq & Hst).
  exists x, st, σ'. split; [exact Heq|].
  destruct st; [discriminate|discriminate|].
  destruct Hst as (_ & Hpend & _). discriminate Hpend.
Defined.


(** A receive takes the oldest pending item. *)
Lemma hrecv_pending c x c' :
  hrecv c = Done (Some x, c') → pending c = x :: pending c'.
Proof.
  unfold hrecv, pending. destruct (buf c) as [|b bs].
  - destruct (closed c); [done|]. destruct (sendq c); [done|].
    by intros [= <- <-].
  - destruct (sendq c); intros [= <- <-]; simpl; by rewrite <- ?app_assoc, ?app_nil_r.
Qed.

(** The loop of [RecvOr] after [n] attempts that found nothing. *)
Lemma RecvOr_loop_blocked v f n :
  ∀ fuel k0 σ tr,
    (∀ i, i < n → chanrecv (cv_ptr v) (rounds_from f k0 i σ) = WouldBlock) →
    RecvOr_loop (n + fuel) v f k0 σ tr =
    RecvOr_loop fuel v f (k0 + n) (rounds_from f k0 n σ) (tr ++ retries n).
Proof.
  induction n as [|n IH]; intros fuel k0 σ tr Hb.
  - simpl. by rewrite Nat.add_0_r, app_nil_r.
  - pose proof (Hb 0 ltac:(lia)) as H0. cbn [rounds_from] in H0.
    change (S n + fuel) with (S (n + fuel)). cbn [RecvOr_loop rounds_from retries].
    unfold Value_TryRecv at 1. rewrite H0. rewrite IH.
    + rewrite <-app_assoc. f_equal. lia.
    + intros i Hi. apply (Hb (S i)). lia.
Qed.

(** X2. [RecvOr] on a channel.  Suppose the first [k] attempts find the
    channel open with nothing pending (the fallback is called after each
    of them).  Then the next attempt decides: if an item is pending,
    [RecvOr] returns it with ok = true; if the channel is closed and
    drained, [RecvOr] returns the zero value of the element type with
    ok = false and leaves the store as it found it; in both cases the
    fallback was called exactly [k] times, all before the probe that
    ended the loop.  If that attempt finds nothing either, [RecvOr] is
    still retrying. *)
Theorem RecvOr_outcome (σ : store) (t : ty) (p : nat)
    (f : nat → store → store) (k fuel : nat) :
  (∀ i, i < k → chanrecv (Some p) (rounds f i σ) = WouldBlock) →
  k < fuel →
  match chanrecv (Some p) (rounds f k σ) with
  | Done (Some x, σ') =>
      RecvOr fuel (VChan t (Some p)) f σ
        = Some (Ret (x, true), σ', retries k ++ [EvProbe Ok]) ∧
      ∃ c, rounds f k σ !! p = Some c ∧ pending c = x :: drop 1 (pending c)
  | Done (None, σ') =>
      RecvOr fuel (VChan t (Some p)) f σ
        = Some (Ret (zero t, false), rounds f k σ, retries k ++ [EvProbe Closed]) ∧
      σ' = rounds f k σ ∧
      ∃ c, rounds f k σ !! p = Some c ∧ closed c = true ∧ buf c = []
  | WouldBlock => RecvOr (S k) (VChan t (Some p)) f σ = None
  | Panics _ => False
  end.
Proof.
  intros Hb Hk. unfold RecvOr, assertChanValue.
  pose proof (RecvOr_loop_blocked (mkCV t (Some p)) f k) as Hloop.
  destruct (chanrecv (Some p) (rounds f k σ)) as [[[x|] σ']| |r] eqn:E.
  - replace fuel with (k + S (fuel - S k)) by lia.
    rewrite Hloop by done. cbn [RecvOr_loop]. unfold Value_TryRecv. cbn [cv_ptr].
    fold (rounds f k σ). rewrite E. split; [done|].
    unfold chanrecv in E. destruct (rounds f k σ !! p) as [c|] eqn:Hp; [|done].
    exists c. split; [done|].
    destruct (hrecv c) as [[y c']| |] eqn:Hr; [|done..]. simplify_eq.
    by rewrite (hrecv_pending _ _ _ Hr).
  - replace fuel with (k + S (fuel - S k)) by lia.
    rewrite Hloop by done. cbn [RecvOr_loop]. unfold Value_TryRecv. cbn [cv_ptr].
    fold (rounds f k σ). rewrite E.
    unfold chanrecv in E. destruct (rounds f k σ !! p) as [c|] eqn:Hp; [|done].
    destruct (hrecv c) as [[y c']| |] eqn:Hr; [|done..]. simplify_eq.
    apply hrecv_none in Hr as (Hc & Hbuf & ->).
    rewrite list_insert_id by done. split_and!; [done..|]. by exists c.
  - replace (S k) with (k + 1) by lia.
    rewrite Hloop by done. cbn [RecvOr_loop]. unfold Value_TryRecv. cbn [cv_ptr].
    fold (rounds f k σ). by rewrite E.
  - unfold chanrecv in E. destruct (rounds f k σ !! p) as [c|]; [|done].
    unfold hrecv in E. by repeat case_match.
Qed.

Lemma RecvOr_outcome_witness :
  (∀ i, i < 1 →
     chanrecv (Some 0) (rounds (λ _, env_step (EnvClose 0)) i [newchan 0]) = WouldBlock) ∧
  1 < 3 ∧
  RecvOr 3 (VChan TUnit (Some 0)) (λ _, env_step (EnvClose 0)) [newchan 0]
    = Some (Ret (VUnit, false), [mkChan 0 [] true 0 [] []],
            [EvProbe Blocked; EvCall; EvProbe Closed]).
Proof.
  assert (∀ i, i < 1 →
     chanrecv (Some 0) (rounds (λ _, env_step (EnvClose 0)) i [newchan 0]) = WouldBlock)
    as Hb.
  { intros i Hi. assert (i = 0) as -> by lia. reflexivity. }
  split; [exact Hb|]. split; [lia|].
  pose proof (RecvOr_outcome [newchan 0] TUnit 0 (λ _, env_step (EnvClose 0)) 1 3
                Hb ltac:(lia)) as H.
  exact (proj1 H).
Defined.


(** X3. A handle that is not a channel is a contract violation: every
    entry point that takes a channel panics at once with "not a channel"
    and the type of the handle, touches no channel, and the retry loops
    never call their fallback.  [MakeFanOut] panics even when asked for
    zero outputs. *)
Theorem not_a_channel (ch x : value) (σ : store) :
  is_chan ch = false →
  TryRecv ch σ = (Panic (notChan ch), σ) ∧
  TrySend ch x σ = (Panic (notChan ch), σ) ∧
  TryClose ch σ = (Panic (notChan ch), σ) ∧
  IsClosed ch σ = Panic (notChan ch) ∧
  (∀ fuel f, RecvOr fuel ch f σ = Some (Panic (notChan ch), σ, [])) ∧
  (∀ fuel f, SendOr fuel ch x f σ = Some (Panic (notChan ch), σ, [])) ∧
  (∀ n outCap, MakeFanOut n outCap ch σ = Panic (notChan ch)).
Proof.
  intros Hch. destruct ch as [| | | |t p]; [..|done]; repeat split; reflexivity.
Qed.

Lemma not_a_channel_witness :
  is_chan (VStr "queue") = false ∧
  TrySend (VStr "queue") (VInt 1) [newchan 0]
    = (Panic (PanicString "not a channel: string"), [newchan 0]).
Proof.
  split; [reflexivity|].
  exact (proj1 (proj2 (not_a_channel (VStr "queue") (VInt 1) [newchan 0] eq_refl))).
Defined.

(** X4. A value whose type is not assignable to the element type of the
    channel is a contract violation of [TrySend] and [SendOr]: both panic
    before they touch the channel, whatever its state (a closed channel
    does not turn the panic into [Closed] or false, and the nil channel
    does not turn it into [Blocked]), and [SendOr] never calls its
    fallback.  The nil interface, which has no type, panics with the nil
    dereference of the type check. *)
Theorem incompatible_value (t : ty) (p : option nat) (x : value) (σ : store) :
  (∀ xt, typeOf x = Some xt → AssignableTo xt t = false) →
  let r := match typeOf x with
           | None => RuntimeError nilDerefMsg
           | Some _ => cannotSend (VChan t p) x
           end in
  TrySend (VChan t p) x σ = (Panic r, σ) ∧
  ∀ fuel f, SendOr fuel (VChan t p) x f σ = Some (Panic r, σ, []).
Proof.
  intros Hx. unfold TrySend, SendOr, checkSend. simpl.
  destruct (typeOf x) as [xt|]; [|done]. by rewrite (Hx xt eq_refl).
Qed.

Lemma incompatible_value_witness :
  (∀ xt, typeOf (VInt 7) = Some xt → AssignableTo xt TString = false) ∧
  TrySend (VChan TString (Some 0)) (VInt 7) [mkChan 0 [] true 0 [] []]
    = (Panic (PanicString "cannot send int on chan string"), [mkChan 0 [] true 0 [] []]).
Proof.
  assert (∀ xt, typeOf (VInt 7) = Some xt → AssignableTo xt TString = false) as Hx.
  { intros xt [= <-]. reflexivity. }
  split; [exact Hx|].
  exact (proj1 (incompatible_value TString (Some 0) (VInt 7)
                  [mkChan 0 [] true 0 [] []] Hx)).
Defined.

(** Sending into the buffer, and receiving from it. *)
Lemma send_all_buf t p xs :
  ∀ (σ : store) c,
    σ !! p = Some c → closed c = false → recvq c = 0 →
    length (buf c) + length xs ≤ dataqsiz c →
    Forall (λ x, ∃ xt, typeOf x = Some xt ∧ AssignableTo xt t = true) xs →
    send_all (VChan t (Some p)) xs σ =
      (replicate (length xs) (Ret Ok),
       <[p := mkChan (dataqsiz c) (buf c ++ xs) false 0 (sendq c) (taken c)]> σ).
Proof.
  induction xs as [|x xs IH]; intros σ c Hp Hc Hq Hlen Hty; simpl.
  - f_equal. symmetry. apply list_insert_id. rewrite Hp. f_equal.
    destruct c; simpl in *. subst. by rewrite app_nil_r.
  - apply Forall_cons in Hty as [(xt & Hx & Ha) Hty]. simpl in Hlen.
    rewrite (TrySend_live _ _ _ _ _ _ Hp Hx Ha).
    rewrite hsend_enqueue by (done || lia).
    rewrite (IH _ (mkChan (dataqsiz c) (buf c ++ [x]) false 0 (sendq c) (taken c))).
    + simpl. rewrite list_insert_insert_eq, <-app_assoc. done.
    + apply list_lookup_insert_eq. by eapply lookup_lt_Some.
    + done.
    + done.
    + simpl. rewrite length_app. simpl. lia.
    + done.
Qed.

Lemma recv_n_buf t p xs :
  ∀ (σ : store) c rest,
    σ !! p = Some c → buf c = xs ++ rest → sendq c = [] →
    recv_n (VChan t (Some p)) (length xs) σ =
      ((λ x, Ret (x, Ok)) <$> xs,
       <[p := mkChan (dataqsiz c) rest (closed c) (recvq c) [] (taken c ++ xs)]> σ).
Proof.
  induction xs as [|x xs IH]; intros σ c rest Hp Hb Hs; simpl.
  - f_equal. symmetry. apply list_insert_id. rewrite Hp. f_equal.
    destruct c; simpl in *. subst. by rewrite app_nil_r.
  - rewrite (TryRecv_live _ _ _ _ Hp). unfold hrecv. rewrite Hb, Hs. simpl.
    rewrite (IH _ (mkChan (dataqsiz c) (xs ++ rest) (closed c) (recvq c) []
                     (taken c ++ [x])) rest).
    + simpl. rewrite list_insert_insert_eq, <-app_assoc. done.
    + apply list_lookup_insert_eq. by eapply lookup_lt_Some.
    + done.
    + done.
Qed.

(** X5. First in, first out through the probes.  On an open, empty
    channel with no goroutine parked, as many [TrySend] as the capacity
    allows all return [Ok]; as many [TryRecv] then return the same
    values in the same order, each with [Ok], and leave the channel empty
    again, so that one more [TryRecv] returns [Blocked].  When the sends
    filled the buffer, one more [TrySend] returns [Blocked] and changes
    nothing. *)
Theorem probes_fifo (σ : store) (t : ty) (p : nat) (c : hchan) (xs : list value) :
  σ !! p = Some c →
  closed c = false → buf c = [] → sendq c = [] → recvq c = 0 →
  length xs ≤ dataqsiz c →
  Forall (λ x, ∃ xt, typeOf x = Some xt ∧ AssignableTo xt t = true) xs →
  ∃ σ1 σ2,
    send_all (VChan t (Some p)) xs σ = (replicate (length xs) (Ret Ok), σ1) ∧
    recv_n (VChan t (Some p)) (length xs) σ1 = ((λ x, Ret (x, Ok)) <$> xs, σ2) ∧
    σ2 = <[p := mkChan (dataqsiz c) [] false 0 [] (taken c ++ xs)]> σ ∧
    TryRecv (VChan t (Some p)) σ2 = (Ret (VNil, Blocked), σ2) ∧
    (length xs = dataqsiz c →
     ∀ y yt, typeOf y = Some yt → AssignableTo yt t = true →
       TrySend (VChan t (Some p)) y σ1 = (Ret Blocked, σ1)).
Proof.
  intros Hp Hc Hb Hs Hq Hlen Hty.
  assert (p < length σ) as Hlt by (by eapply lookup_lt_Some).
  set (c1 := mkChan (dataqsiz c) xs false 0 [] (taken c)).
  assert ((<[p := c1]> σ) !! p = Some c1) as Hp1 by (by apply list_lookup_insert_eq).
  exists (<[p := c1]> σ), (<[p := mkChan (dataqsiz c) [] false 0 [] (taken c ++ xs)]> σ).
  split_and!.
  - rewrite (send_all_buf _ _ _ _ _ Hp Hc Hq) by (rewrite ?Hb; simpl; done).
    by rewrite Hb, Hs.
  - rewrite (recv_n_buf t p xs _ c1 [] Hp1) by (simpl; by rewrite ?app_nil_r).
    simpl. by rewrite list_insert_insert_eq.
  - done.
  - by erewrite TryRecv_live by (by apply list_lookup_insert_eq).
  - intros Hfull y yt Hy Ha.
    rewrite (TrySend_live _ _ _ _ _ _ Hp1 Hy Ha).
    rewrite hsend_full; [done..|]. simpl. lia.
Qed.

Lemma probes_fifo_witness :
  [newchan 2] !! 0 = Some (newchan 2) ∧
  closed (newchan 2) = false ∧ buf (newchan 2) = [] ∧ sendq (newchan 2) = [] ∧
  recvq (newchan 2) = 0 ∧
  length [VStr "Hello"; VStr "Goodbye"] ≤ dataqsiz (newchan 2) ∧
  Forall (λ x, ∃ xt, typeOf x = Some xt ∧ AssignableTo xt TString = true)
    [VStr "Hello"; VStr "Goodbye"] ∧
  ∃ σ1 σ2,
    send_all (VChan TString (Some 0)) [VStr "Hello"; VStr "Goodbye"] [newchan 2]
      = ([Ret Ok; Ret Ok], σ1) ∧
    recv_n (VChan TString (Some 0)) 2 σ1
      = ([Ret (VStr "Hello", Ok); Ret (VStr "Goodbye", Ok)], σ2).
Proof.
  assert (Forall (λ x, ∃ xt, typeOf x = Some xt ∧ AssignableTo xt TString = true)
            [VStr "Hello"; VStr "Goodbye"]) as Hty.
  { repeat (apply Forall_cons_2; [by exists TString|]). apply Forall_nil_2. }
  split; [reflexivity|]. split; [reflexivity|]. split; [reflexivity|].
  split; [reflexivity|]. split; [reflexivity|]. split; [simpl; lia|].
  split; [exact Hty|].
  destruct (probes_fifo [newchan 2] TString 0 (newchan 2)
              [VStr "Hello"; VStr "Goodbye"] eq_refl eq_refl eq_refl eq_refl eq_refl
              ltac:(simpl; lia) Hty)
    as (σ1 & σ2 & Hsend & Hrecv & _).
  exists σ1, σ2. split; [exact Hsend|exact Hrecv].
Defined.


(** Only a close changes the closed flag of a channel. *)
Lemma insert_closed_same (σ : store) q cq cq' p c :
  σ !! q = Some cq → closed cq' = closed cq → σ !! p = Some c →
  ∃ c', <[q := cq']> σ !! p = Some c' ∧ closed c' = closed c.
Proof.
  intros Hq Hcl Hp. destruct (decide (q = p)) as [->|Hne].
  - exists cq'. rewrite list_lookup_insert_eq by (by eapply lookup_lt_Some).
    split; [done|]. by simplify_eq.
  - exists c. by rewrite list_lookup_insert_ne.
Qed.

Lemma env_hstep_closed_same a c :
  (∀ q, a ≠ EnvClose q) → closed (env_hstep a c) = closed c.
Proof.
  intros Ha. destruct a as [q x|q|q]; simpl.
  - destruct (hsend c x) as [c'| |] eqn:E; [|done..].
    apply hsend_done_open in E as [-> ->]. done.
  - destruct (hrecv c) as [[y c']| |] eqn:E; [|done..]. by eapply hrecv_closed_same.
  - by destruct (Ha q).
Qed.

Lemma op_step_keeps_closed p o (σ : store) c :
  closes_chan p o = false → σ !! p = Some c →
  ∃ c', op_step o σ !! p = Some c' ∧ closed c' = closed c.
Proof.
  intros Ho Hp. destruct o as [a|ch x|ch|ch]; simpl.
  - rewrite env_step_lookup, Hp. case_decide as He; [|by exists c].
    eexists. split; [done|]. apply env_hstep_closed_same.
    intros q ->. simpl in *. subst q. by rewrite bool_decide_eq_true_2 in Ho.
  - unfold TrySend. destruct (checkSend ch x) as [v|r]; [|by exists c].
    unfold Value_TrySend, chansend.
    destruct (cv_ptr v) as [q|]; [|by exists c].
    destruct (σ !! q) as [cq|] eqn:Hq; [|by exists c].
    destruct (hsend cq x) as [cq'| |r] eqn:E; simpl.
    + apply hsend_done_open in E as [E1 E2].
      eapply insert_closed_same; [done| |done]. congruence.
    + by exists c.
    + destruct (recovers closeChMsg r); by exists c.
  - unfold TryRecv. destruct (assertChanValue ch) as [v|r]; [|by exists c].
    unfold Value_TryRecv, chanrecv.
    destruct (cv_ptr v) as [q|]; [|by exists c].
    destruct (σ !! q) as [cq|] eqn:Hq; [|by exists c].
    destruct (hrecv cq) as [[[y|] cq']| |r] eqn:E; simpl; try (by exists c);
      (eapply insert_closed_same; [done| |done]); by eapply hrecv_closed_same.
  - unfold TryClose. destruct ch as [| | | |t q]; simpl; try (by exists c).
    unfold Value_Close, closechan. simpl.
    destruct q as [q|]; simpl; [|by exists c].
    destruct (σ !! q) as [cq|] eqn:Hq; simpl; [|by exists c].
    simpl in Ho. apply bool_decide_eq_false_1 in Ho.
    unfold hclose. destruct (closed cq); simpl; [by exists c|].
    exists c. by rewrite list_lookup_insert_ne.
Qed.

Lemma count_wins_closed p ops :
  ∀ (σ : store) c, σ !! p = Some c → closed c = true → count_wins p ops σ = 0.
Proof.
  induction ops as [|o ops IH]; intros σ c Hp Hc; [done|]. simpl.
  destruct (op_step_evolves o σ p c Hp) as (c1 & Hp1 & He).
  destruct (He Hc) as [Hc1 _]. rewrite (IH _ _ Hp1 Hc1).
  unfold wins_close. destruct o as [a|ch x|ch|ch]; try done.
  destruct ch as [| | | |t [q|]]; try done.
  case_bool_decide as Hq; [|done]. subst q.
  rewrite (TryClose_live _ _ _ _ Hp). unfold hclose. by rewrite Hc.
Qed.

(** X6. Racing closers.  Along any sequence of operations on the
    channels, the calls of [TryClose] on one channel return true at most
    once, and never if the channel was closed before.  If the channel was
    open, nobody closes it with a plain [close], and at least one
    [TryClose] on it is made, then exactly one of them returns true. *)
Theorem TryClose_race (σ : store) (p : nat) (c : hchan) (ops : list op) :
  σ !! p = Some c →
  count_wins p ops σ ≤ (if closed c then 0 else 1) ∧
  (closed c = false →
   OEnv (EnvClose p) ∉ ops →
   (∃ t, OTryClose (VChan t (Some p)) ∈ ops) →
   count_wins p ops σ = 1).
Proof.
  revert σ c. induction ops as [|o ops IH]; intros σ c Hp.
  { split; [simpl; destruct (closed c); lia|]. intros _ _ [t Ht].
    by apply elem_of_nil in Ht. }
  destruct (closed c) eqn:Hc.
  { split; [|done]. by rewrite (count_wins_closed _ _ _ _ Hp Hc). }
  simpl.
  assert ((∃ t, o = OTryClose (VChan t (Some p))) ∨ closes_chan p o = false ∨
          o = OEnv (EnvClose p)) as [[t ->]|[Ho| ->]].
  { destruct o as [[q x|q|q]|ch x|ch|ch]; simpl; auto.
    - destruct (decide (q = p)) as [->|Hne]; [auto|].
      right; left. by apply bool_decide_eq_false_2.
    - destruct ch as [| | | |t [q|]]; auto.
      destruct (decide (q = p)) as [->|Hne]; [eauto|].
      right; left. by apply bool_decide_eq_false_2. }
  - (* this call closes the channel *)
    assert (wins_close p (OTryClose (VChan t (Some p))) σ = 1) as ->.
    { unfold wins_close. rewrite bool_decide_eq_true_2 by done.
      rewrite (TryClose_live _ _ _ _ Hp). unfold hclose. by rewrite Hc. }
    assert (count_wins p ops (op_step (OTryClose (VChan t (Some p))) σ) = 0) as ->.
    { simpl. rewrite (TryClose_live _ _ _ _ Hp). unfold hclose. rewrite Hc. simpl.
      eapply count_wins_closed;
        [apply list_lookup_insert_eq; by eapply lookup_lt_Some|done]. }
    split; [lia|done].
  - (* the operation leaves the channel open *)
    destruct (op_step_keeps_closed _ _ _ _ Ho Hp) as (c1 & Hp1 & Hc1).
    assert (wins_close p o σ = 0) as ->.
    { unfold wins_close. destruct o as [a|ch x|ch|ch]; try done.
      destruct ch as [| | | |t [q|]]; try done. simpl in Ho. by rewrite Ho. }
    destruct (IH _ _ Hp1) as [Hle Hex]. rewrite Hc1, Hc in Hle, Hex.
    split; [lia|]. intros _ Hno [t Ht]. simpl. apply Hex; [done| |].
    + intros Hel. apply Hno. by apply list_elem_of_further.
    + exists t. apply elem_of_cons in Ht as [Ht|Ht]; [|done].
      subst o. simpl in Ho. by apply bool_decide_eq_false_1 in Ho.
  - (* a plain close *)
    destruct (op_step_evolves (OEnv (EnvClose p)) σ p c Hp) as (c1 & Hp1 & _).
    destruct (IH _ _ Hp1) as [Hle _]. split.
    + change (wins_close p (OEnv (EnvClose p)) σ) with 0.
      destruct (closed c1); lia.
    + intros _ Hno. exfalso. apply Hno. by apply list_elem_of_here.
Qed.

Lemma TryClose_race_witness :
  [newchan 0] !! 0 = Some (newchan 0) ∧
  count_wins 0 [OTryClose (VChan TUnit (Some 0)); OTryClose (VChan TUnit (Some 0))]
    [newchan 0] ≤ 1 ∧
  count_wins 0 [OTryClose (VChan TUnit (Some 0)); OTryClose (VChan TUnit (Some 0))]
    [newchan 0] = 1.
Proof.
  split; [reflexivity|].
  destruct (TryClose_race [newchan 0] 0 (newchan 0)
              [OTryClose (VChan TUnit (Some 0)); OTryClose (VChan TUnit (Some 0))]
              eq_refl) as [Hle Hex].
  split; [exact Hle|]. apply Hex; [reflexivity| |].
  - rewrite !not_elem_of_cons. split_and!; [done|done|apply not_elem_of_nil].
  - exists TUnit. apply list_elem_of_here.
Defined.

(** X7. Only a close changes what [IsClosed] reports.  Along any
    sequence of sends, receives and probes in which nobody closes the
    channel (neither [close] nor [TryClose] on it), [IsClosed] on a live
    channel returns after the sequence what it returned before. *)
Theorem IsClosed_stable (σ : store) (t : ty) (p : nat) (c : hchan) (ops : list op) :
  σ !! p = Some c →
  Forall (λ o, closes_chan p o = false) ops →
  IsClosed (VChan t (Some p)) (run_ops ops σ) = IsClosed (VChan t (Some p)) σ ∧
  IsClosed (VChan t (Some p)) σ = Ret (closed c).
Proof.
  intros Hp Hops. rewrite (IsClosed_live _ _ _ _ Hp). split; [|done].
  revert σ c Hp. induction Hops as [|o ops Ho Hops IH]; intros σ c Hp.
  - simpl. by rewrite (IsClosed_live _ _ _ _ Hp).
  - destruct (op_step_keeps_closed _ _ _ _ Ho Hp) as (c1 & Hp1 & Hc1).
    change (run_ops (o :: ops) σ) with (run_ops ops (op_step o σ)).
    rewrite (IH _ _ Hp1). by rewrite Hc1.
Qed.

Lemma IsClosed_stable_witness :
  [newchan 1] !! 0 = Some (newchan 1) ∧
  Forall (λ o, closes_chan 0 o = false)
    [OTrySend (VChan TInt (Some 0)) (VInt 1); OTryRecv (VChan TInt (Some 0))] ∧
  IsClosed (VChan TInt (Some 0))
    (run_ops [OTrySend (VChan TInt (Some 0)) (VInt 1); OTryRecv (VChan TInt (Some 0))]
       [newchan 1])
  = IsClosed (VChan TInt (Some 0)) [newchan 1].
Proof.
  assert (Forall (λ o, closes_chan 0 o = false)
    [OTrySend (VChan TInt (Some 0)) (VInt 1); OTryRecv (VChan TInt (Some 0))]) as Hops.
  { repeat (apply Forall_cons_2; [reflexivity|]). apply Forall_nil_2. }
  split; [reflexivity|]. split; [exact Hops|].
  exact (proj1 (IsClosed_stable [newchan 1] TInt 0 (newchan 1) _ eq_refl Hops)).
Defined.

End ProbeExtras.

Module FanOutExtras.
Import Go chops Sched fan Scenario Broadcast Merge ProbeVocab FanVocab.
Import ProbeFacts FanOutClaims.

(** The session [MakeFanOut] returns for one output or more. *)
Lemma MakeFanOut_started n outCap ch (σ : store) w0 :
  (1 ≤ n)%Z → MakeFanOut n outCap ch σ = Ret w0 →
  ∃ t p, ch = VChan t p ∧ (0 ≤ outCap)%Z ∧
    w0 = mkB (σ ++ replicate (Z.to_nat n) (newchan (Z.to_nat outCap))) (mkCV t p)
           (seq (length σ) (Z.to_nat n)) BRecv [].
Proof.
  intros Hn. unfold MakeFanOut.
  destruct ch as [| | | |t p]; [done..|]. simpl.
  destruct (Z.eqb_spec n 0); [lia|]. unfold makechan.
  destruct (Z.eqb_spec n 1) as [->|].
  - destruct (chan_size_ok outCap) eqn:Hok; [|done]. simpl. intros [= <-].
    apply chan_size_ok_spec in Hok as [Hcap _]. by eexists _, _.
  - destruct (slice_len_ok n); [|done]. simpl.
    destruct (chan_size_ok outCap) eqn:Hok; [|done]. simpl. intros [= <-].
    apply chan_size_ok_spec in Hok as [Hcap _]. by eexists _, _.
Qed.

Lemma binv_started n outCap ch (σ : store) w0 :
  (1 ≤ n)%Z → sole_receiver ch σ → MakeFanOut n outCap ch σ = Ret w0 →
  binv (Z.to_nat n) (length σ) (taken_before ch σ) [] w0.
Proof.
  intros Hn Hsole Hmk.
  destruct (MakeFanOut_started _ _ _ _ _ Hn Hmk) as (t & p & -> & Hcap & ->).
  split_and!; simpl; [done|by rewrite length_app, length_replicate|done|done| |].
  - intros j Hj. exists (newchan (Z.to_nat outCap)). split; [|done].
    rewrite lookup_app_r by lia.
    apply lookup_replicate_2. lia.
  - intros p' ->. destruct (Hsole t p' eq_refl) as (c & Hc & Hq).
    split; [by eapply lookup_lt_Some|]. exists c.
    rewrite lookup_app_l by (by eapply lookup_lt_Some).
    split_and!; [done..|]. rewrite Hc. simpl. by rewrite app_nil_r.
Qed.

(** X8. [MakeFanOut] with [n = 1] is a pipe.  In a program where the
    output is only received from and the goroutine is the only receiver
    on the input, after any schedule: what the input has handed out since
    the call is what was put into the output, in the same order, followed
    by the one item the goroutine may hold between its receive and its
    send; the output is closed only once the goroutine has seen the input
    closed; the goroutine has not panicked. *)
Theorem MakeFanOut_pipe (outCap : Z) (ch : value) (σ : store)
    (w0 w : bworld) (acts : list action) :
  sole_receiver ch σ →
  MakeFanOut 1 outCap ch σ = Ret w0 →
  Forall (bdisciplined w0) acts →
  brun acts w0 = Some w →
  outs w = [length σ] ∧
  (∀ r, bat w ≠ BCrashed r) ∧
  ∃ co, bchans w !! length σ = Some co ∧
    (∀ p, cv_ptr (input w) = Some p →
       ∃ ci, bchans w !! p = Some ci ∧
             taken ci = taken_before ch σ ++ delivered co ++ held (bat w)) ∧
    (closed co = true → EvRecvClosed 0 ∈ btrace w) ∧
    (bat w = BExited → closed co = true).
Proof.
  intros Hsole Hmk Hd Hrun.
  assert (1 ≤ 1)%Z as H1 by lia.
  pose proof (binv_started _ _ _ _ _ H1 Hsole Hmk) as Hinit.
  destruct (binv_run _ _ _ _ _ _ _ Hinit Hd Hrun) as (done & Hinv).
  destruct Hinv as (Ho & Hlen & Htr & Hpc & Houts & Hin).
  change (Z.to_nat 1) with 1 in *.
  split; [done|]. split; [intros r Hr; by rewrite Hr in Hpc|].
  destruct (Houts 0) as (co & Hco & Hdel & Hcl & _); [lia|].
  rewrite Nat.add_0_r in Hco. exists co. split; [done|]. split_and!.
  - intros p Hp. destruct (Hin p Hp) as (_ & ci & Hci & _ & Ht).
    exists ci. split; [done|]. rewrite Ht, Hdel. f_equal.
    destruct (bat w) as [|x [|[|j]]| | |]; simpl in *; try done;
      try (by rewrite !app_nil_r); try (by rewrite <- app_assoc); lia.
  - rewrite Hcl, Htr. intros Hc. apply elem_of_app. right.
    destruct (bat w); simpl in *; try done; apply list_elem_of_here.
  - intros Hat. rewrite Hcl, Hat. done.
Qed.

Lemma MakeFanOut_pipe_witness :
  sole_receiver (VChan TString (Some 0)) [newchan 0] ∧
  MakeFanOut 1 0 (VChan TString (Some 0)) [newchan 0] = Ret pipe_start ∧
  Forall (bdisciplined pipe_start) pipe_sched ∧
  brun pipe_sched pipe_start = Some pipe_end ∧
  outs pipe_end = [1].
Proof.
  assert (sole_receiver (VChan TString (Some 0)) [newchan 0]) as Hsole.
  { intros t p [= <- <-]. by exists (newchan 0). }
  assert (Forall (bdisciplined pipe_start) pipe_sched) as Hd.
  { repeat (apply Forall_cons_2; [simpl; try done|]); try apply Forall_nil_2.
    rewrite not_elem_of_cons. split; [done|]. apply not_elem_of_nil. }
  split; [exact Hsole|]. split; [reflexivity|]. split; [exact Hd|].
  split; [reflexivity|].
  exact (proj1 (MakeFanOut_pipe 0 (VChan TString (Some 0)) [newchan 0]
                  pipe_start pipe_end pipe_sched Hsole eq_refl Hd eq_refl)).
Defined.

(** X9. What [MakeFanOut] makes.  A call that returns was given a
    channel, a count [n] that is not negative and, unless [n = 0], a
    capacity [outCap] that is not negative, both within the limits of the
    allocator.  It has made [n] channels that are pairwise distinct and
    new (none is a channel the caller had), each open, empty and of
    capacity [outCap], and it has left the caller's channels as they
    were; a goroutine is started unless [n = 0].  A negative [n] panics
    in [make([]chan interface{}, n)]. *)
Theorem MakeFanOut_outputs (n outCap : Z) (ch : value) (σ : store) :
  (∀ w0, MakeFanOut n outCap ch σ = Ret w0 →
    is_chan ch = true ∧ (0 ≤ n)%Z ∧
    (n = 0 ∨ chan_size_ok outCap = true ∧ (0 ≤ outCap)%Z)%Z ∧
    (n = 0 ∨ n = 1 ∨ slice_len_ok n = true)%Z ∧
    length (outs w0) = Z.to_nat n ∧
    NoDup (outs w0) ∧
    (∀ o, o ∈ outs w0 →
       length σ ≤ o ∧ bchans w0 !! o = Some (newchan (Z.to_nat outCap))) ∧
    length (bchans w0) = length σ + Z.to_nat n ∧
    (∀ p, p < length σ → bchans w0 !! p = σ !! p) ∧
    VChan (cv_elem (input w0)) (cv_ptr (input w0)) = ch ∧
    bat w0 = (if (n =? 0)%Z then BExited else BRecv) ∧
    btrace w0 = []) ∧
  (is_chan ch = true → (n < 0)%Z →
   MakeFanOut n outCap ch σ = Panic (RuntimeError "makeslice: len out of range")).
Proof.
  split.
  - intros w0 Hmk. destruct (Z.eqb_spec n 0) as [->|Hn0].
    { unfold MakeFanOut in Hmk. destruct ch; try done. simpl in Hmk.
      simplify_eq. simpl.
      split_and!; try done; try lia; try (by left); try apply NoDup_nil_2.
      intros o Ho. by apply elem_of_nil in Ho. }
    assert (is_chan ch = true ∧ (0 ≤ n)%Z ∧ chan_size_ok outCap = true ∧
            (n = 1 ∨ slice_len_ok n = true)%Z) as (Hch & Hpos & Hok & Hsl).
    { unfold MakeFanOut in Hmk. destruct ch; try done. simpl in Hmk.
      destruct (Z.eqb_spec n 0); [done|].
      destruct (Z.eqb_spec n 1) as [->|].
      - destruct (makechan outCap) as [oc|] eqn:Hoc; [|done].
        apply makechan_ret in Hoc as [_ Hoc]. split_and!; [done|lia|done|by left].
      - destruct (slice_len_ok n) eqn:Hsl; [|done]. simpl in Hmk.
        destruct (makechan outCap) as [oc|] eqn:Hoc; [|done].
        apply makechan_ret in Hoc as [_ Hoc].
        apply slice_len_ok_spec in Hsl as Hsl'. split_and!; [done|lia|done|by right]. }
    assert (1 ≤ n)%Z as Hn by lia.
    destruct (MakeFanOut_started _ _ _ _ _ Hn Hmk) as (t & p & -> & Hcap & ->).
    simpl. split_and!; try done; try (by right).
    + by rewrite length_seq.
    + apply NoDup_seq.
    + intros o Ho. apply elem_of_seq in Ho as [Hlo Hhi]. split; [done|].
      rewrite lookup_app_r by done. apply lookup_replicate_2. lia.
    + by rewrite length_app, length_replicate.
    + intros q Hq. by rewrite lookup_app_l.
  - intros Hch Hn. unfold MakeFanOut. destruct ch; try done. simpl.
    destruct (Z.eqb_spec n 0); [lia|]. destruct (Z.eqb_spec n 1); [lia|].
    destruct (slice_len_ok n) eqn:Hsl; [|done].
    apply slice_len_ok_spec in Hsl. lia.
Qed.

(** No channel operation changes a capacity or overfills a buffer. *)
Lemma hsend_cap c x c' :
  hsend c x = Done c' → dataqsiz c' = dataqsiz c ∧ (within_cap c → within_cap c').
Proof.
  unfold hsend, within_cap. destruct (closed c); [done|]. destruct (recvq c).
  - destruct (Nat.ltb_spec (length (buf c)) (dataqsiz c)); [|done].
    intros [= <-]. simpl. rewrite length_app. simpl. split; [done|lia].
  - by intros [= <-].
Qed.

Lemma hrecv_cap c y c' :
  hrecv c = Done (y, c') → dataqsiz c' = dataqsiz c ∧ (within_cap c → within_cap c').
Proof.
  unfold hrecv, within_cap. destruct (buf c) as [|b bs] eqn:Hb.
  - destruct (closed c); [intros [= <- <-]; by rewrite Hb|].
    destruct (sendq c); [done|]. intros [= <- <-]. simpl. split; [done|lia].
  - destruct (sendq c); intros [= <- <-]; simpl; rewrite ?length_app; simpl;
      (split; [done|lia]).
Qed.

Lemma hclose_cap c c' :
  hclose c = Done c' → dataqsiz c' = dataqsiz c ∧ (within_cap c → within_cap c').
Proof. unfold hclose, within_cap. destruct (closed c); [done|]. by intros [= <-]. Qed.

Lemma env_hstep_cap a c :
  dataqsiz (env_hstep a c) = dataqsiz c ∧ (within_cap c → within_cap (env_hstep a c)).
Proof.
  destruct a as [q x|q|q]; simpl.
  - destruct (hsend c x) as [c'| |] eqn:E; [by eapply hsend_cap|done..].
  - destruct (hrecv c) as [[y c']| |] eqn:E; [by eapply hrecv_cap|done..].
  - destruct (hclose c) as [c'| |] eqn:E; [by eapply hclose_cap|done..].
Qed.

Lemma cap_kept_refl (σ : store) : cap_kept σ σ.
Proof. intros p c Hp. by exists c. Qed.

Lemma cap_kept_trans (σ1 σ2 σ3 : store) :
  cap_kept σ1 σ2 → cap_kept σ2 σ3 → cap_kept σ1 σ3.
Proof.
  intros H12 H23 p c Hp. destruct (H12 p c Hp) as (c2 & Hp2 & Hd2 & Hw2).
  destruct (H23 p c2 Hp2) as (c3 & Hp3 & Hd3 & Hw3).
  exists c3. split_and!; [done|congruence|auto].
Qed.

Lemma cap_kept_insert (σ : store) q cq cq' :
  σ !! q = Some cq → dataqsiz cq' = dataqsiz cq → (within_cap cq → within_cap cq') →
  cap_kept σ (<[q := cq']> σ).
Proof.
  intros Hq Hd Hw p c Hp. destruct (decide (q = p)) as [->|Hne].
  - exists cq'. rewrite list_lookup_insert_eq by (by eapply lookup_lt_Some).
    by simplify_eq.
  - exists c. by rewrite list_lookup_insert_ne.
Qed.

Lemma env_step_cap e (σ : store) : cap_kept σ (env_step e σ).
Proof.
  unfold env_step. destruct (σ !! env_chan e) as [c|] eqn:Hc; [|apply cap_kept_refl].
  destruct (env_hstep_cap e c). by eapply cap_kept_insert.
Qed.

Lemma chansend_cap q x (σ σ' : store) : chansend q x σ = Done σ' → cap_kept σ σ'.
Proof.
  unfold chansend. destruct q as [q|]; [|done].
  destruct (σ !! q) as [c|] eqn:Hc; [|done].
  destruct (hsend c x) as [c'| |] eqn:E; [|done..]. intros [= <-].
  destruct (hsend_cap _ _ _ E). by eapply cap_kept_insert.
Qed.

Lemma chanrecv_cap q y (σ σ' : store) : chanrecv q σ = Done (y, σ') → cap_kept σ σ'.
Proof.
  unfold chanrecv. destruct q as [q|]; [|done].
  destruct (σ !! q) as [c|] eqn:Hc; [|done].
  destruct (hrecv c) as [[z c']| |] eqn:E; [|done..]. intros [= <- <-].
  destruct (hrecv_cap _ _ _ E). by eapply cap_kept_insert.
Qed.

Lemma closechan_cap q (σ σ' : store) : closechan q σ = Done σ' → cap_kept σ σ'.
Proof.
  unfold closechan. destruct q as [q|]; [|done].
  destruct (σ !! q) as [c|] eqn:Hc; [|done].
  destruct (hclose c) as [c'| |] eqn:E; [|done..]. intros [= <-].
  destruct (hclose_cap _ _ E). by eapply cap_kept_insert.
Qed.

Lemma bstep_cap a w w' : bstep a w = Some w' → cap_kept (bchans w) (bchans w').
Proof.
  destruct a as [i|e]; simpl.
  - unfold bcast_step. destruct (bat w) as [|x j|j| |]; try done.
    + destruct (chanrecv (cv_ptr (input w)) (bchans w)) as [[[y|] σ']| |] eqn:E;
        try done; intros [= <-]; simpl; by eapply chanrecv_cap.
    + destruct (outs w !! j) as [o|]; [|intros [= <-]; apply cap_kept_refl].
      destruct (chansend (Some o) x (bchans w)) as [σ'| |] eqn:E; try done;
        intros [= <-]; simpl; [by eapply chansend_cap|apply cap_kept_refl].
    + destruct (outs w !! j) as [o|]; [|intros [= <-]; apply cap_kept_refl].
      destruct (closechan (Some o) (bchans w)) as [σ'| |] eqn:E; try done;
        intros [= <-]; simpl; [by eapply closechan_cap|apply cap_kept_refl].
  - intros [= <-]. simpl. apply env_step_cap.
Qed.

Lemma brun_cap acts :
  ∀ w w', brun acts w = Some w' → cap_kept (bchans w) (bchans w').
Proof.
  induction acts as [|a acts IH]; intros w w' Hrun; simpl in Hrun.
  - simplify_eq. apply cap_kept_refl.
  - destruct (bstep a w) as [w1|] eqn:Hs; [|done]. simpl in Hrun.
    eapply cap_kept_trans; [by eapply bstep_cap|by apply IH].
Qed.

(** A goroutine blocked in its send stays so while nobody receives from
    that output. *)
Lemma stalled_run x j o more :
  ∀ w w', bat w = BSend x j → outs w !! j = Some o →
    chansend (Some o) x (bchans w) = WouldBlock →
    Forall (bdisciplined w) more → Env (EnvRecv o) ∉ more →
    brun more w = Some w' →
    forallb is_env more = true ∧ bat w' = bat w ∧ btrace w' = btrace w ∧
    bcast_step w' = None.
Proof.
  induction more as [|a more IH]; intros w w' Hat Ho Hb Hd Hno Hrun; simpl in Hrun.
  - simplify_eq. split_and!; [done..|]. unfold bcast_step. by rewrite Hat, Ho, Hb.
  - apply Forall_cons in Hd as [Ha Hd]. apply not_elem_of_cons in Hno as [Hne Hno].
    destruct a as [i|e]; simpl in Hrun.
    { unfold bcast_step in Hrun. by rewrite Hat, Ho, Hb in Hrun. }
    simpl.
    set (w1 := mkB (env_step e (bchans w)) (input w) (outs w) (bat w) (btrace w)) in *.
    assert (env_chan e ≠ o) as Hoth.
    { apply list_elem_of_lookup_2 in Ho. destruct e as [q y|q|q]; simpl in *.
      - intros ->. done.
      - intros ->. done.
      - intros ->. done. }
    apply (IH w1 w'); [done|done| |by eapply Forall_impl|done|done].
    simpl. unfold chansend in Hb |- *. rewrite env_step_lookup.
    rewrite decide_False by done.
    destruct (bchans w !! o) as [c|]; [|done]. by destruct (hsend c x).
Qed.

(** A receive on a full output on which nobody waits makes room for
    one send. *)
Lemma recv_makes_room c x p :
  closed c = false → sendq c = [] → recvq c = 0 →
  dataqsiz c ≤ length (buf c) → length (buf c) ≤ dataqsiz c →
  ∃ c', hsend (env_hstep (EnvRecv p) c) x = Done c'.
Proof.
  intros Hcl Hsq Hrq Hfull Hw. simpl. unfold hrecv. rewrite Hcl, Hsq.
  destruct (buf c) as [|b bs] eqn:Hbuf.
  - unfold hsend, park_recv. simpl. rewrite ?Hcl. by eexists.
  - unfold hsend. simpl. rewrite ?Hcl, Hrq. simpl in Hw.
    destruct (Nat.ltb_spec (length bs) (dataqsiz c)); [by eexists|lia].
Qed.

(** X10. Head-of-line blocking in [MakeFanOut].  In a session with one
    output or more, in a program that keeps the discipline, let the
    goroutine be blocked in its send of item [x] to output [j].  Then
    that output is open, no consumer waits on it and its buffer holds
    exactly [outCap] items.  Whatever the other goroutines do, the
    goroutine does not move, and so the later outputs do not get [x],
    until somebody receives from output [j]; one receive on it lets the
    goroutine complete the send. *)
Theorem MakeFanOut_stalls (n outCap : Z) (ch : value) (σ : store)
    (w0 w : bworld) (acts : list action) (x : value) (j o : nat) :
  (1 ≤ n)%Z →
  sole_receiver ch σ →
  MakeFanOut n outCap ch σ = Ret w0 →
  Forall (bdisciplined w0) acts →
  brun acts w0 = Some w →
  bat w = BSend x j →
  outs w !! j = Some o →
  chansend (Some o) x (bchans w) = WouldBlock →
  (∃ c, bchans w !! o = Some c ∧ closed c = false ∧ recvq c = 0 ∧
        dataqsiz c = Z.to_nat outCap ∧ length (buf c) = Z.to_nat outCap) ∧
  (∀ more w', Forall (bdisciplined w) more → Env (EnvRecv o) ∉ more →
     brun more w = Some w' →
     forallb is_env more = true ∧ bat w' = BSend x j ∧ btrace w' = btrace w ∧
     bcast_step w' = None) ∧
  (∃ w', brun [Env (EnvRecv o); Task 0] w = Some w' ∧
         bat w' = BSend x (S j) ∧ btrace w' = btrace w ++ [EvSend j x]).
Proof.
  intros Hn Hsole Hmk Hd Hrun Hat Ho Hb.
  pose proof (binv_started _ _ _ _ _ Hn Hsole Hmk) as Hinit.
  destruct (binv_run _ _ _ _ _ _ _ Hinit Hd Hrun) as (done & Hinv).
  destruct Hinv as (Houts & Hlen & _ & _ & Hst & _).
  rewrite Houts in Ho. apply lookup_seq in Ho as [-> Hj].
  destruct (Hst j Hj) as (c & Hc & _ & Hcl & Hsq & _).
  rewrite Hat in Hcl. simpl in Hcl.
  (* the capacity of the output *)
  destruct (MakeFanOut_started _ _ _ _ _ Hn Hmk) as (t & p & -> & Hcap & ->).
  assert (bchans (mkB (σ ++ replicate (Z.to_nat n) (newchan (Z.to_nat outCap)))
            (mkCV t p) (seq (length σ) (Z.to_nat n)) BRecv []) !! (length σ + j)
          = Some (newchan (Z.to_nat outCap))) as Hc0.
  { simpl. rewrite lookup_app_r by lia. apply lookup_replicate_2. lia. }
  destruct (brun_cap _ _ _ Hrun _ _ Hc0) as (c1 & Hc1 & Hdq & Hw).
  rewrite Hc in Hc1. injection Hc1 as <-.
  specialize (Hw ltac:(unfold within_cap; simpl; lia)). unfold within_cap in Hw.
  simpl in Hdq.
  (* why the send is blocked *)
  pose proof Hb as Hb'. unfold chansend in Hb'. rewrite Hc in Hb'.
  unfold hsend in Hb'. rewrite Hcl in Hb'.
  destruct (recvq c) as [|k] eqn:Hrq; [|done].
  destruct (Nat.ltb_spec (length (buf c)) (dataqsiz c)) as [|Hfull]; [done|].
  split; [|split].
  - exists c. split_and!; [done..|lia].
  - intros more w' Hd' Hno Hrun'. rewrite <- Hat.
    eapply stalled_run; try done. rewrite Houts. by apply lookup_seq_lt.
  - destruct (recv_makes_room c x (length σ + j)) as [c'' Hs]; [done..|lia|].
    set (σ1 := env_step (EnvRecv (length σ + j)) (bchans w)).
    exists (mkB (<[length σ + j := c'']> σ1) (input w) (outs w) (BSend x (S j))
              (btrace w ++ [EvSend j x])).
    split; [|split; reflexivity]. subst σ1.
    change (brun [Env (EnvRecv (length σ + j)); Task 0] w)
      with (bcast_step (mkB (env_step (EnvRecv (length σ + j)) (bchans w))
                          (input w) (outs w) (bat w) (btrace w)) ≫= Some).
    unfold bcast_step. cbn [bat outs bchans]. rewrite Hat, Houts.
    rewrite lookup_seq_lt by done.
    unfold chansend, env_step. cbn [env_chan]. rewrite Hc.
    rewrite list_lookup_insert_eq by (by eapply lookup_lt_Some).
    rewrite Hs. reflexivity.
Qed.

Lemma MakeFanOut_stalls_witness :
  (1 ≤ 2)%Z ∧
  sole_receiver (VChan TString (Some 0)) two_blocking_store ∧
  MakeFanOut 2 0 (VChan TString (Some 0)) two_blocking_store = Ret two_blocking_start ∧
  Forall (bdisciplined two_blocking_start) stall_sched ∧
  brun stall_sched two_blocking_start = Some stall_world ∧
  bat stall_world = BSend (VStr "Hello") 0 ∧
  outs stall_world !! 0 = Some 1 ∧
  chansend (Some 1) (VStr "Hello") (bchans stall_world) = WouldBlock ∧
  ∃ w', brun [Env (EnvRecv 1); Task 0] stall_world = Some w' ∧
        bat w' = BSend (VStr "Hello") 1 ∧
        btrace w' = btrace stall_world ++ [EvSend 0 (VStr "Hello")].
Proof.
  assert (1 ≤ 2)%Z as Hn by lia.
  assert (sole_receiver (VChan TString (Some 0)) two_blocking_store) as Hsole.
  { intros t p [= <- <-]. by exists (newchan 0). }
  assert (Forall (bdisciplined two_blocking_start) stall_sched) as Hd.
  { repeat (apply Forall_cons_2; [simpl; try done|]); try apply Forall_nil_2.
    rewrite !not_elem_of_cons. split_and!; try done. apply not_elem_of_nil. }
  split; [exact Hn|]. split; [exact Hsole|]. split; [reflexivity|].
  split; [exact Hd|]. do 4 (split; [reflexivity|]).
  exact (proj2 (proj2 (MakeFanOut_stalls 2 0 (VChan TString (Some 0)) two_blocking_store
    two_blocking_start stall_world stall_sched (VStr "Hello") 0 1
    Hn Hsole eq_refl Hd eq_refl eq_refl eq_refl eq_refl))).
Defined.

End FanOutExtras.

Module FanInExtras.
Import Go chops Sched fan Scenario Broadcast Merge ProbeVocab FanVocab MergeVocab.
Import ProbeFacts CancelClaims CloseOnce.















End FanInExtras.

Module OldFanInExtras.
Import Go chops Sched Scenario Broadcast Merge ProbeVocab FanVocab MergeVocab SignalVocab.
Import ProbeFacts CancelClaims CloseOnce FanInExtras.

















End OldFanInExtras.

Module CallExtras.
Import Go chops Sched Scenario Broadcast Merge ProbeVocab MergeVocab CallVocab.
Import ProbeFacts CancelClaims CloseOnce VersionsAgree.

Lemma assertAll_accepts chs :
  (∃ vs, assertAll chs = Ret vs) ↔ Forall (λ c, is_chan c = true) chs.
Proof.
  induction chs as [|c chs IH]; simpl.
  - split; [intros _; apply Forall_nil_2|by eexists].
  - split.
    + intros [vs Hvs]. destruct c as [| | | |t p]; simpl in Hvs; try done.
      destruct (assertAll chs) as [vs'|]; [|done].
      apply Forall_cons_2; [done|]. apply IH. by eexists.
    + intros Hall. apply Forall_cons in Hall as [Hc Hall].
      destruct c as [| | | |t p]; try done. simpl.
      apply IH in Hall as [vs ->]. by eexists.
Qed.

(** X13. What [MakeFanIn] takes and makes, in both versions of fan.go.
    A call that returns was given no input, or a single
    [chan interface{}], or two or more inputs that are all channels, and
    (unless there is no input) a capacity [outCap] that is not negative
    and within the limit of the allocator.  It has added two channels to
    the caller's, the output and then stop, and changed nothing else: the
    output is open, empty and of capacity [outCap] (closed, without
    buffer, when there is no input), stop is open and without buffer (of
    capacity 1 with two inputs or more).  The two versions return for
    the same arguments. *)
Theorem MakeFanIn_makes (ver : version) (outCap : Z) (chs : list value) (σ : store) :
  (∀ w0, MakeFanIn_of ver outCap chs σ = Ret w0 →
    accepted outCap chs ∧
    out w0 = length σ ∧ stop w0 = S (length σ) ∧
    chans w0 = σ ++ [fresh_out outCap chs; fresh_stop chs] ∧
    trace w0 = []) ∧
  ((∃ w0, MakeFanIn_of SrcFanGo outCap chs σ = Ret w0) ↔
   (∃ w0, MakeFanIn_of LaterFanGo outCap chs σ = Ret w0)).
Proof.
  destruct chs as [|c1 [|c2 rest]].
  - (* no input *)
    assert (∀ ver', MakeFanIn_of ver' outCap [] σ
            = Ret (mkWorld (σ ++ [closed_empty; newchan 0]) (length σ) (S (length σ))
                     NoTask Exited [])) as Hmk.
    { assert (closechan (Some (length σ)) (σ ++ [newchan 0])
              = Done (σ ++ [closed_empty])) as Hcl.
      { unfold closechan. rewrite list_lookup_middle by done. simpl.
        f_equal. rewrite insert_app_r_alt by done. by rewrite Nat.sub_diag. }
      intros ver'.
      destruct ver'; cbn [MakeFanIn_of]; unfold fan_go.MakeFanIn, fan.MakeFanIn, alloc;
        rewrite Hcl; rewrite length_app, <- app_assoc; simpl;
        by replace (length σ + 1) with (S (length σ)) by lia. }
    split; [|rewrite !Hmk; done]. rewrite Hmk. by intros w0 [= <-].
  - (* one input: the same code in both versions *)
    split; [|done].
    assert (MakeFanIn_of ver outCap [c1] σ = fan.MakeFanIn outCap [c1] σ) as ->
      by (by destruct ver).
    unfold fan.MakeFanIn, accepted, alloc, makechan.
    intros w0. destruct c1 as [| | | |t p]; try done. destruct t; try done. simpl.
    destruct (chan_size_ok outCap) eqn:Hok; [|done]. simpl. intros [= <-]. simpl.
    split; [split; [by eexists|done]|].
    rewrite length_app, <- app_assoc. simpl.
    by replace (length σ + 1) with (S (length σ)) by lia.
  - (* two inputs or more *)
    unfold accepted.
    destruct (assertAll (c1 :: c2 :: rest)) as [vs|e] eqn:Hall;
      destruct (chan_size_ok outCap) eqn:Hok.
    + split.
      * destruct ver; cbn [MakeFanIn_of]; unfold fan_go.MakeFanIn, fan.MakeFanIn,
          alloc, makechan; rewrite ?Hall, ?Hok; cbn [bind]; rewrite ?Hall, ?Hok;
          cbn [bind]; intros w0 [= <-]; simpl;
          (split; [split; [apply assertAll_accepts; by eexists|done]|]);
          rewrite length_app, <- app_assoc; simpl;
          by replace (length σ + 1) with (S (length σ)) by lia.
      * cbn [MakeFanIn_of]. unfold fan_go.MakeFanIn, fan.MakeFanIn, alloc, makechan.
        rewrite Hall, Hok. cbn [bind]. rewrite ?Hall. cbn [bind].
        split; intros _; by eexists.
    + split.
      * destruct ver; cbn [MakeFanIn_of]; unfold fan_go.MakeFanIn, fan.MakeFanIn,
          alloc, makechan; rewrite ?Hall, ?Hok; cbn [bind]; rewrite ?Hall, ?Hok;
          cbn [bind]; by intros w0.
      * cbn [MakeFanIn_of]. unfold fan_go.MakeFanIn, fan.MakeFanIn, alloc, makechan.
        rewrite Hall, Hok. cbn [bind]. split; by intros [w0 Hw].
    + split.
      * destruct ver; cbn [MakeFanIn_of]; unfold fan_go.MakeFanIn, fan.MakeFanIn,
          alloc, makechan; rewrite ?Hall, ?Hok; cbn [bind]; rewrite ?Hall, ?Hok;
          cbn [bind]; by intros w0.
      * cbn [MakeFanIn_of]. unfold fan_go.MakeFanIn, fan.MakeFanIn, alloc, makechan.
        rewrite Hall, Hok. cbn [bind]. rewrite ?Hall. cbn [bind].
        split; by intros [w0 Hw].
    + split.
      * destruct ver; cbn [MakeFanIn_of]; unfold fan_go.MakeFanIn, fan.MakeFanIn,
          alloc, makechan; rewrite ?Hall, ?Hok; cbn [bind]; rewrite ?Hall, ?Hok;
          cbn [bind]; by intros w0.
      * cbn [MakeFanIn_of]. unfold fan_go.MakeFanIn, fan.MakeFanIn, alloc, makechan.
        rewrite Hall, Hok. cbn [bind]. split; by intros [w0 Hw].
Qed.

(** A run of the later fan.go that ends by cancellation. *)
Lemma later_fan_closes_once_witness :
  two_handles ≠ [] ∧
  valid_inputs two_handles (two_inputs 0) ∧
  fan.MakeFanIn 0 two_handles (two_inputs 0) = Ret two_idle_start ∧
  Forall (disciplined two_idle_start) (stopped_sched two_idle_start) ∧
  fan.run (stopped_sched two_idle_start) two_idle_start = Some stopped_end ∧
  has_exited stopped_end = true ∧
  out_closed stopped_end = Some (has_exited stopped_end) ∧
  count_close (trace stopped_end) = (if has_exited stopped_end then 1 else 0).
Proof.
  assert (two_handles ≠ []) as Hne by done.
  assert (Forall (disciplined two_idle_start) (stopped_sched two_idle_start)) as Hd.
  { repeat (apply Forall_cons_2; [simpl; try done|]); try apply Forall_nil_2. }
  split; [exact Hne|]. split; [exact two_handles_valid|]. split; [reflexivity|].
  split; [exact Hd|]. split; [reflexivity|]. split; [reflexivity|].
  destruct (later_fan_closes_once 0 two_handles (two_inputs 0) two_idle_start
              stopped_end (stopped_sched two_idle_start)
              Hne two_handles_valid eq_refl Hd eq_refl) as (_ & Hcl & Hcnt & _).
  split; [exact Hcl|exact Hcnt].
Defined.

(** Both versions on a single idle input whose session is cancelled. *)
Lemma versions_agree_upto_one_witness :
  length [VChan TIface (Some 0)] ≤ 1 ∧
  valid_inputs [VChan TIface (Some 0)] [newchan 0] ∧
  fan.MakeFanIn 0 [VChan TIface (Some 0)] [newchan 0] = Ret one_idle_start ∧
  Forall (disciplined one_idle_start) [Env (EnvClose 2); Task 0; Task 0] ∧
  fan_go.MakeFanIn 0 [VChan TIface (Some 0)] [newchan 0] = Ret one_idle_start ∧
  fan_go.run [Env (EnvClose 2); Task 0; Task 0] one_idle_start
    = fan.run [Env (EnvClose 2); Task 0; Task 0] one_idle_start.
Proof.
  assert (length [VChan TIface (Some 0)] ≤ 1) as Hlen by (simpl; lia).
  assert (valid_inputs [VChan TIface (Some 0)] [newchan 0]) as Hvalid.
  { intros t p Hin. apply list_elem_of_singleton in Hin. simplify_eq. simpl. lia. }
  assert (Forall (disciplined one_idle_start) [Env (EnvClose 2); Task 0; Task 0])
    as Hd.
  { repeat (apply Forall_cons_2; [simpl; try done|]); try apply Forall_nil_2. }
  split; [exact Hlen|]. split; [exact Hvalid|]. split; [reflexivity|].
  split; [exact Hd|].
  exact (versions_agree_upto_one 0 [VChan TIface (Some 0)] [newchan 0] one_idle_start
           [Env (EnvClose 2); Task 0; Task 0] Hlen Hvalid eq_refl Hd).
Defined.

End CallExtras.

Module DrainExtras.
Import Go chops Sched Scenario Broadcast Merge ProbeVocab MergeVocab DrainVocab.
Import ProbeFacts CancelClaims CloseOnce.

Lemma chanrecv_exhausted (σ : store) q :
  exhausted σ q → chanrecv q σ = Done (None, σ).
Proof.
  intros (p & c & -> & Hc & Hcl & Hb).
  rewrite (chanrecv_live _ _ _ Hc). unfold hrecv. rewrite Hb, Hcl.
  by rewrite list_insert_id.
Qed.

(** A step of the goroutine changes [cases] only when it drops an input
    that reported closed. *)
Lemma task_step_kind chosen w w' :
  fan.task_step chosen w = Some w' →
  kind w' = kind w ∨
  ∃ cases rem v, kind w = General cases rem ∧ at_pc w = AtSelect ∧
    cases !! chosen = Some (Some v) ∧ chosen ≠ length cases - 1 ∧ rem ≠ 1 ∧
    kind w' = General (<[chosen := None]> cases) (rem - 1).
Proof.
  unfold fan.task_step.
  destruct (kind w) as [|ch|cases rem] eqn:Hkind; [done| |].
  - unfold fan.fast_step, fast_select, fan.send_or_crash, close_and_exit, goto.
    intros H. left. repeat case_match; simplify_eq; done.
  - unfold fan.general_step. destruct (at_pc w) eqn:Hat; try done.
    + unfold reflect_Select.
      destruct (cases !! chosen) as [[v|]|] eqn:Hch; [|done..].
      destruct (chanrecv (cv_ptr v) (chans w)) as [[[x|] σ']| |]; [| |done..].
      * intros [= <-]. by left.
      * destruct (Nat.eqb_spec chosen (length cases - 1)); [intros [= <-]; by left|].
        destruct (Nat.eqb_spec rem 1); intros [= <-]; [by left|].
        right. by eexists _, _, _.
    + unfold fan.send_or_crash, goto. intros H. left.
      repeat case_match; simplify_eq; done.
    + unfold close_and_exit, goto. intros H. left.
      repeat case_match; simplify_eq; done.
Qed.

Lemma live_ok_task K w chosen w' :
  live_ok K w → fan.task_step chosen w = Some w' → live_ok K w'.
Proof.
  intros Hlive Hstep. unfold live_ok in *.
  destruct (task_step_kind _ _ _ Hstep)
    as [->|(cases & rem & v & Hk & Hat & Hch & Hne & Hrem & ->)]; [done|].
  rewrite Hk in Hlive.
  destruct Hlive as (Hlen & Hpos & dead & Hnd & Hcount & Hdead & Hlive).
  assert (chosen < K) as HcK.
  { apply lookup_lt_Some in Hch. lia. }
  assert (chosen ∉ dead) as Hnot.
  { intros Hd. destruct (Hdead _ Hd) as [_ Hnone]. congruence. }
  rewrite length_insert. split_and!; [done|lia|].
  exists (chosen :: dead). split_and!.
  - by apply NoDup_cons.
  - simpl. lia.
  - intros i Hi. apply elem_of_cons in Hi as [->|Hi].
    + split; [done|]. apply list_lookup_insert_eq. by eapply lookup_lt_Some.
    + destruct (Hdead i Hi) as [HiK Hnone]. split; [done|].
      rewrite list_lookup_insert_ne; [done|]. by intros ->.
  - intros i HiK Hi. apply not_elem_of_cons in Hi as [Hic Hi].
    rewrite list_lookup_insert_ne by done. by apply Hlive.
Qed.

Lemma live_ok_run K base acts :
  ∀ w w', finv base w → live_ok K w → Forall (disciplined w) acts →
    fan.run acts w = Some w' → finv base w' ∧ live_ok K w'.
Proof.
  induction acts as [|a acts IH]; intros w w' Hinv Hlive Hd Hrun; simpl in Hrun.
  - by simplify_eq.
  - destruct (fan.step a w) as [w1|] eqn:Hs; [|done]. simpl in Hrun.
    apply Forall_cons in Hd as [Ha Hd].
    destruct (step_frame _ _ _ Hs) as [Ho Hst].
    eapply (IH w1); [| | |done].
    + destruct a as [chosen|e]; simpl in Hs.
      * by eapply finv_task.
      * simplify_eq. by apply finv_env.
    + destruct a as [chosen|e]; simpl in Hs.
      * by eapply live_ok_task.
      * by simplify_eq.
    + eapply Forall_impl; [done|]. intros b. by apply disciplined_frame.
Qed.

Lemma live_ok_init outCap chs (σ : store) w0 :
  chs ≠ [] → fan.MakeFanIn outCap chs σ = Ret w0 → live_ok (length chs) w0.
Proof.
  intros Hne. unfold fan.MakeFanIn, alloc, makechan.
  destruct chs as [|c1 [|c2 rest]]; [done| |].
  - destruct (assertChanIface c1); [|done]. simpl.
    destruct (chan_size_ok outCap); [|done]. simpl. by intros [= <-].
  - destruct (chan_size_ok outCap); [|done]. cbn [bind].
    destruct (assertAll (c1 :: c2 :: rest)) as [vs|] eqn:Hall; [|done].
    cbn [bind]. intros [= <-].
    pose proof (assertAll_length _ _ Hall) as Hvs.
    unfold live_ok. cbn [kind]. rewrite length_app, length_fmap. simpl in *.
    split_and!; [lia|lia|].
    exists []. split_and!; [apply NoDup_nil_2|simpl; lia| |].
    + intros i Hi. by apply elem_of_nil in Hi.
    + intros i Hi _. destruct (lookup_lt_is_Some_2 vs i) as [v Hv]; [lia|].
      exists v. rewrite lookup_app_l by (rewrite length_fmap; lia).
      by rewrite list_lookup_fmap, Hv.
Qed.

(** Among [K] indices of which fewer than [K] are marked, one is not. *)
Lemma one_left (K : nat) (dead : list nat) :
  NoDup dead → (∀ i, i ∈ dead → i < K) → length dead < K →
  ∃ i, i < K ∧ i ∉ dead.
Proof.
  intros Hnd Hlt Hlen.
  destruct (decide (Forall (λ i, i ∈ dead) (seq 0 K))) as [Hall|Hnot].
  - assert (seq 0 K ⊆+ dead) as Hsub.
    { apply NoDup_submseteq; [apply NoDup_seq|].
      intros i Hi. by eapply Forall_forall in Hall. }
    apply submseteq_length in Hsub. rewrite length_seq in Hsub. lia.
  - apply not_Forall_Exists in Hnot; [|apply _].
    apply Exists_exists in Hnot as (i & Hi & Hnot).
    apply elem_of_seq in Hi. exists i. split; [lia|done].
Qed.

(** The goroutine of the general path, in its select with every live
    input exhausted: it drops the inputs one by one and ends. *)
Lemma drain_general K base rem :
  ∀ w cases, finv base w → live_ok K w → kind w = General cases rem →
    at_pc w = AtSelect → inputs_done w →
    ∃ sched w', forallb is_task sched = true ∧ length sched = S rem ∧
      fan.run sched w = Some w' ∧ at_pc w' = Exited ∧
      out_closed w' = Some true ∧ chans w' = <[out w := default closed_empty
        ((λ c, mkChan (dataqsiz c) (buf c) true 0 [] (taken c)) <$> chans w !! out w)]>
        (chans w).
Proof.
  induction rem as [rem IH] using lt_wf_ind. intros w cases Hinv Hlive Hkind Hat Hdone.
  pose proof Hlive as Hlive'. unfold live_ok in Hlive. rewrite Hkind in Hlive.
  destruct Hlive as (Hlen & Hpos & dead & Hnd & Hcount & Hdead & Hl).
  destruct (one_left K dead Hnd) as (i & HiK & Hi); [by intros j Hj; apply Hdead|lia|].
  destruct (Hl i HiK Hi) as [v Hv].
  unfold inputs_done in Hdone. rewrite Hkind in Hdone.
  assert (chanrecv (cv_ptr v) (chans w) = Done (None, chans w)) as Hrecv.
  { apply chanrecv_exhausted. apply (Hdone i v); [lia|done]. }
  assert (∃ w1, fan.task_step i w = Some w1 ∧ chans w1 = chans w ∧
            out w1 = out w ∧
            (rem = 1 ∧ at_pc w1 = AtClose ∧ kind w1 = kind w ∨
             rem ≠ 1 ∧ at_pc w1 = AtSelect ∧
             kind w1 = General (<[i := None]> cases) (rem - 1)))
    as (w1 & Hstep & Hch1 & Ho1 & Hcase).
  { unfold fan.task_step, fan.general_step, reflect_Select.
    rewrite Hkind, Hat, Hv, Hrecv.
    destruct (Nat.eqb_spec i (length cases - 1)); [lia|].
    destruct (Nat.eqb_spec rem 1).
    - eexists. split; [done|]. split_and!; [done..|]. by left.
    - eexists. split; [done|]. split_and!; [done..|]. by right. }
  pose proof (finv_task _ _ _ _ Hinv Hstep) as Hinv1.
  pose proof (live_ok_task _ _ _ _ Hlive' Hstep) as Hlive1.
  destruct Hcase as [(-> & Hat1 & Hk1)|(Hrem & Hat1 & Hk1)].
  - (* the last input: close(out) and return *)
    destruct (finv_close _ _ Hinv1 Hat1) as (w2 & Hcl & _ & Hat2 & _ & Hoc & _).
    exists [Task i; Task 0], w2. split_and!; [done|done| |done|done|].
    + simpl. rewrite Hstep. simpl. unfold fan.task_step. rewrite Hk1, Hkind.
      unfold fan.general_step. rewrite Hat1, Hcl. done.
    + unfold close_and_exit in Hcl. rewrite Ho1, Hch1 in Hcl.
      destruct Hinv as (Ho & _ & _ & _ & (co & Hco & Hok) & _).
      rewrite Hat in Hok. simpl in Hok.
      rewrite Ho in *. rewrite (closechan_live _ _ _ Hco) in Hcl.
      unfold hclose in Hcl. rewrite Hok in Hcl. injection Hcl as <-. simpl.
      by rewrite Hco.
  - (* one input less *)
    destruct (IH (rem - 1) ltac:(lia) w1 (<[i := None]> cases) Hinv1 Hlive1 Hk1 Hat1)
      as (sched & w2 & Htask & Hlen2 & Hrun & Hat2 & Hoc & Hch2).
    { unfold inputs_done. rewrite Hk1, Hch1, length_insert.
      intros j v' Hj Hl'. destruct (decide (i = j)) as [->|Hne].
      - rewrite list_lookup_insert_eq in Hl' by (by eapply lookup_lt_Some). done.
      - rewrite list_lookup_insert_ne in Hl' by done. by eapply Hdone. }
    exists (Task i :: sched), w2. split_and!; [done|simpl; lia| |done|done|].
    + simpl. rewrite Hstep. done.
    + by rewrite Hch2, Hch1, Ho1.
Qed.

(** X16. The later fan.go finishes when its inputs are exhausted.  In a
    session with [K >= 1] inputs, in a program that keeps the discipline
    of the doc comment, let the goroutine be in its select at a moment
    when every input it still listens to is closed and drained.  Then a
    run of at most [K + 1] steps of the goroutine alone, none of which
    has to wait for another goroutine, ends it; the output is then
    closed, holds what it held, and no other channel has changed. *)
Theorem later_fan_drains (outCap : Z) (chs : list value) (σ : store)
    (w0 w : world) (acts : list action) :
  chs ≠ [] →
  valid_inputs chs σ →
  fan.MakeFanIn outCap chs σ = Ret w0 →
  Forall (disciplined w0) acts →
  fan.run acts w0 = Some w →
  at_pc w = AtSelect →
  inputs_done w →
  ∃ sched w' co,
    forallb is_task sched = true ∧ length sched ≤ S (length chs) ∧
    fan.run sched w = Some w' ∧
    at_pc w' = Exited ∧ out_closed w' = Some true ∧
    chans w !! out w = Some co ∧ closed co = false ∧
    chans w' = <[out w := mkChan (dataqsiz co) (buf co) true 0 [] (taken co)]> (chans w).
Proof.
  intros Hne Hvalid Hmk Hd Hrun Hat Hdone.
  destruct (finv_init _ _ _ _ Hne Hvalid Hmk) as (Hinv0 & _).
  pose proof (live_ok_init _ _ _ _ Hne Hmk) as Hlive0.
  destruct (live_ok_run _ _ _ _ _ Hinv0 Hlive0 Hd Hrun) as [Hinv Hlive].
  pose proof Hinv as (Ho & Hs & _ & Hk & (co & Hco & Hok) & _).
  rewrite Hat in Hok. simpl in Hok.
  destruct (kind w) as [|ch|cases rem] eqn:Hkind.
  - unfold kind_ok in Hk. by rewrite Hkind in Hk.
  - (* the single-input path *)
    unfold inputs_done in Hdone. rewrite Hkind in Hdone.
    pose proof (chanrecv_exhausted _ _ Hdone) as Hrecv.
    set (w1 := goto w (chans w) (Fast ch) AtClose [EvRecvClosed 1]).
    assert (fan.task_step 1 w = Some w1) as Hstep.
    { unfold fan.task_step, fan.fast_step, fast_select.
      by rewrite Hkind, Hat, Hrecv. }
    pose proof (finv_task _ _ _ _ Hinv Hstep) as Hinv1.
    destruct (finv_close _ _ Hinv1 eq_refl) as (w2 & Hcl & _ & Hat2 & _ & Hoc & _).
    exists [Task 1; Task 0], w2, co.
    split_and!; [done|destruct chs; [done|simpl; lia]| |done|done|by rewrite Ho|done|].
    + simpl. rewrite Hstep. simpl. unfold fan.task_step, fan.fast_step.
      by rewrite Hcl.
    + unfold close_and_exit in Hcl. subst w1. cbn [out chans goto] in Hcl.
      rewrite Ho in *. rewrite (closechan_live _ _ _ Hco) in Hcl.
      unfold hclose in Hcl. rewrite Hok in Hcl. by injection Hcl as <-.
  - (* the general path *)
    destruct (drain_general (length chs) _ rem w cases Hinv Hlive Hkind Hat Hdone)
      as (sched & w' & Htask & Hlen & Hrun' & Hat' & Hoc & Hch).
    unfold live_ok in Hlive. rewrite Hkind in Hlive.
    destruct Hlive as (_ & _ & dead & _ & Hcount & _).
    exists sched, w', co. split_and!; [done|lia|done|done|done|by rewrite Ho|done|].
    rewrite Hch, Ho, Hco. done.
Qed.

Lemma later_fan_drains_witness :
  two_handles ≠ [] ∧
  valid_inputs two_handles (two_inputs 0) ∧
  fan.MakeFanIn 0 two_handles (two_inputs 0) = Ret two_idle_start ∧
  Forall (disciplined two_idle_start) drained_sched ∧
  fan.run drained_sched two_idle_start = Some drained_world ∧
  at_pc drained_world = AtSelect ∧
  inputs_done drained_world ∧
  ∃ sched w',
    forallb is_task sched = true ∧ length sched ≤ 3 ∧
    fan.run sched drained_world = Some w' ∧
    at_pc w' = Exited ∧ out_closed w' = Some true.
Proof.
  assert (two_handles ≠ []) as Hne by done.
  assert (Forall (disciplined two_idle_start) drained_sched) as Hd.
  { repeat (apply Forall_cons_2; [simpl; try done|]); try apply Forall_nil_2. }
  assert (inputs_done drained_world) as Hdone.
  { intros [|[|i]] v Hi Hv; simpl in Hi, Hv; [| |lia]; simplify_eq; simpl.
    - by exists 0, (mkChan 0 [] true 0 [] []).
    - by exists 1, (mkChan 0 [] true 0 [] []). }
  split; [exact Hne|]. split; [exact two_handles_valid|]. split; [reflexivity|].
  split; [exact Hd|]. split; [reflexivity|]. split; [reflexivity|].
  split; [exact Hdone|].
  destruct (later_fan_drains 0 two_handles (two_inputs 0) two_idle_start
              drained_world drained_sched
              Hne two_handles_valid eq_refl Hd eq_refl eq_refl Hdone)
    as (sched & w' & co & Htask & Hlen & Hrun & Hat & Hoc & _).
  exists sched, w'. split; [exact Htask|]. split; [exact Hlen|].
  split; [exact Hrun|]. split; [exact Hat|exact Hoc].
Defined.

End DrainExtras.
